(** * gas-spreadsheet-helper: the indexed tabular record store

    A shallow embedding of [src/SpreadsheetHelper.ts] (the two store
    variants [SheetObject] and [SheetTable], with their row handles
    [RowObject] and [SheetRow]) and the properties of the specification
    that are settled against it.

    Layout: the JavaScript values and built-ins the code relies on
    ([Js]), the Apps Script grid ([Gas]), the thrown errors and the
    state-and-exception monad, the first store variant ([SheetObject]),
    the second one ([SheetTable]); then the lemmas and theorems. *)

From Stdlib Require Import ZArith Lia Ascii String.
From stdpp Require Import gmap strings list fin_maps pretty.

Open Scope string_scope.
Open Scope list_scope.
Open Scope Z_scope.

(** ** JavaScript values and built-ins *)

Module Js.

(** *** Numbers

    A finite number is zero or the decimal [0.d1...dk * 10^n] with a
    sign: the digits [d1...dk] and the [n] are the [s] and the [n] that
    Number::toString takes of the number, so the first and the last
    digit are not zero.  The two zeros are one value: no operation of
    the code tells them apart. *)
Inductive nzdigit := N1 | N2 | N3 | N4 | N5 | N6 | N7 | N8 | N9.

Inductive digit := D0 | Dnz (d : nzdigit).

Inductive significand :=
| Sig1 (d : nzdigit)
| SigN (first : nzdigit) (middle : list digit) (last : nzdigit).

Inductive finite :=
| Zero
| Decimal (negative : bool) (s : significand) (n : Z).

Inductive number :=
| Finite (x : finite)
| NaN
| Infinity (negative : bool).

(** [Date]: a time value in milliseconds since the epoch, or an invalid
    date (time value NaN). *)
Inductive Date :=
| DateAt (ms : Z)
| InvalidDate.

(** [type CellValue = string | number | boolean | Date] *)
Inductive CellValue :=
| Str (s : string)
| Num (n : number)
| Bool (b : bool)
| Dat (d : Date).

(** [type RowRecordValue = CellValue | null] *)
Inductive RowRecordValue :=
| Null
| Cell (v : CellValue).

#[global] Instance nzdigit_eq_dec : EqDecision nzdigit.
Proof. solve_decision. Defined.
#[global] Instance digit_eq_dec : EqDecision digit.
Proof. solve_decision. Defined.
#[global] Instance significand_eq_dec : EqDecision significand.
Proof. solve_decision. Defined.
#[global] Instance finite_eq_dec : EqDecision finite.
Proof. solve_decision. Defined.
#[global] Instance number_eq_dec : EqDecision number.
Proof. solve_decision. Defined.
#[global] Instance Date_eq_dec : EqDecision Date.
Proof. solve_decision. Defined.
#[global] Instance CellValue_eq_dec : EqDecision CellValue.
Proof. solve_decision. Defined.
#[global] Instance RowRecordValue_eq_dec : EqDecision RowRecordValue.
Proof. solve_decision. Defined.

(** *** Objects used as records

    [type RowRecord = Record<string, RowRecordValue>]: an object with
    own data properties and a prototype.  An object literal has
    [Object.prototype]; the setter of [__proto__] can change it to
    [null] or to a [Date]. *)
Inductive Prototype :=
| ObjectPrototype
| NullPrototype
| DatePrototype (d : Date).

#[global] Instance Prototype_eq_dec : EqDecision Prototype.
Proof. solve_decision. Defined.

Record RowRecord := mkRecord {
  own : gmap string RowRecordValue;
  proto : Prototype;
}.

#[global] Instance RowRecord_eq_dec : EqDecision RowRecord.
Proof. solve_decision. Defined.

(** The object literal with the own properties [fields]. *)
Definition literal (fields : gmap string RowRecordValue) : RowRecord :=
  mkRecord fields ObjectPrototype.

(** What reading a property of a record gives: a value of the record,
    or what the prototype chain has under the name, a built-in
    function or [Object.prototype] itself. *)
Inductive JsValue :=
| JsUndefined
| JsNull
| JsCell (v : CellValue)
| JsFunction
| JsObjectPrototype.

#[global] Instance JsValue_eq_dec : EqDecision JsValue.
Proof. solve_decision. Defined.

Definition of_value (v : RowRecordValue) : JsValue :=
  match v with
  | Null => JsNull
  | Cell c => JsCell c
  end.

(** The function properties of [Object.prototype]; [__proto__] is its
    one accessor. *)
Definition ObjectPrototype_functions : list string :=
  ["constructor"; "__defineGetter__"; "__defineSetter__"; "hasOwnProperty";
   "__lookupGetter__"; "__lookupSetter__"; "isPrototypeOf";
   "propertyIsEnumerable"; "toString"; "valueOf"; "toLocaleString"].

(** The function properties of [Date.prototype] with a string name. *)
Definition DatePrototype_functions : list string :=
  ["constructor"; "toString"; "toDateString"; "toTimeString"; "toISOString";
   "toUTCString"; "toGMTString"; "getDate"; "setDate"; "getDay";
   "getFullYear"; "setFullYear"; "getHours"; "setHours"; "getMilliseconds";
   "setMilliseconds"; "getMinutes"; "setMinutes"; "getMonth"; "setMonth";
   "getSeconds"; "setSeconds"; "getTime"; "setTime"; "getTimezoneOffset";
   "getUTCDate"; "setUTCDate"; "getUTCDay"; "getUTCFullYear";
   "setUTCFullYear"; "getUTCHours"; "setUTCHours"; "getUTCMilliseconds";
   "setUTCMilliseconds"; "getUTCMinutes"; "setUTCMinutes"; "getUTCMonth";
   "setUTCMonth"; "getUTCSeconds"; "setUTCSeconds"; "valueOf"; "getYear";
   "setYear"; "toJSON"; "toLocaleString"; "toLocaleDateString";
   "toLocaleTimeString"].

(** A property the object does not own, looked up in its prototype
    chain.  The getter of [__proto__] gives the prototype. *)
Definition inherited (p : Prototype) (k : string) : JsValue :=
  match p with
  | NullPrototype => JsUndefined
  | ObjectPrototype =>
      if bool_decide (k = "__proto__") then JsObjectPrototype
      else if bool_decide (k ∈ ObjectPrototype_functions) then JsFunction
      else JsUndefined
  | DatePrototype d =>
      if bool_decide (k = "__proto__") then JsCell (Dat d)
      else if bool_decide (k ∈ DatePrototype_functions ++ ObjectPrototype_functions)
      then JsFunction
      else JsUndefined
  end.

(** [record[k]] *)
Definition get (record : RowRecord) (k : string) : JsValue :=
  match own record !! k with
  | Some v => of_value v
  | None => inherited (proto record) k
  end.

(** [record[k] = v].  An own property is written; a name the object
    does not own becomes an own property, but for [__proto__] when the
    chain reaches [Object.prototype]: its setter makes [null] or an
    object the prototype and does nothing with any other value. *)
Definition set (record : RowRecord) (k : string) (v : RowRecordValue) : RowRecord :=
  match own record !! k, proto record with
  | Some _, _ | None, NullPrototype => mkRecord (<[k := v]> (own record)) (proto record)
  | None, _ =>
      if bool_decide (k = "__proto__") then
        match v with
        | Null => mkRecord (own record) NullPrototype
        | Cell (Dat d) => mkRecord (own record) (DatePrototype d)
        | Cell _ => record
        end
      else mkRecord (<[k := v]> (own record)) (proto record)
  end.

(** [{...record, [k]: v}]: a new object literal with the own
    properties of [record] and the own property [k]. *)
Definition spread_with (record : RowRecord) (k : string) (v : RowRecordValue)
  : RowRecord :=
  literal (<[k := v]> (own record)).

(** [x == null]: true of [null] and of [undefined]. *)
Definition eq_null (x : JsValue) : bool :=
  match x with
  | JsUndefined | JsNull => true
  | _ => false
  end.

(** [x ?? null] on an array element of cell values. *)
Definition or_null (x : option CellValue) : RowRecordValue :=
  match x with
  | Some v => Cell v
  | None => Null
  end.

(** [val === ''] *)
Definition is_empty_text (v : CellValue) : bool :=
  bool_decide (v = Str "").

(** [typeof h !== 'string'] *)
Definition not_string (v : CellValue) : bool :=
  match v with
  | Str _ => false
  | _ => true
  end.

(** SameValueZero, the comparison of [Set] and [Map] keys: primitives by
    value, objects by identity.  The [Date] objects of one array of
    cells are distinct objects. *)
Definition sameValueZero (a b : CellValue) : bool :=
  match a, b with
  | Dat _, _ | _, Dat _ => false
  | _, _ => bool_decide (a = b)
  end.

(** [Array.from(new Set(xs))]: first occurrences, in order. *)
Definition Array_from_Set (xs : list CellValue) : list CellValue :=
  fold_left
    (fun seen x => if existsb (sameValueZero x) seen then seen else seen ++ [x])
    xs [].

(** [Array.from(new Set(xs))] on strings. *)
Definition uniq (xs : list string) : list string :=
  fold_left
    (fun seen x => if bool_decide (x ∈ seen) then seen else seen ++ [x])
    xs [].

(** *** Number::toString *)

Definition nzdigitChar (d : nzdigit) : ascii :=
  match d with
  | N1 => "1" | N2 => "2" | N3 => "3" | N4 => "4" | N5 => "5"
  | N6 => "6" | N7 => "7" | N8 => "8" | N9 => "9"
  end%char.

Definition digitChar (d : digit) : ascii :=
  match d with
  | D0 => "0"%char
  | Dnz d => nzdigitChar d
  end.

Definition digits (s : significand) : list digit :=
  match s with
  | Sig1 d => [Dnz d]
  | SigN f m l => Dnz f :: m ++ [Dnz l]
  end.

Fixpoint digitsText (ds : list digit) : string :=
  match ds with
  | [] => ""
  | d :: ds' => String (digitChar d) (digitsText ds')
  end.

(** The text of a finite number, case by case as Number::toString has
    it, [k] being the number of digits. *)
Definition Number_toString (x : finite) : string :=
  match x with
  | Zero => "0"
  | Decimal negative s n =>
      let ds := digits s in
      let k := Z.of_nat (length ds) in
      (if negative then "-" else "") +:+
      (if (k <=? n) && (n <=? 21)
       then digitsText (ds ++ replicate (Z.to_nat (n - k)) D0)
       else if (0 <? n) && (n <=? 21)
       then digitsText (take (Z.to_nat n) ds) +:+ "." +:+
            digitsText (drop (Z.to_nat n) ds)
       else if (-6 <? n) && (n <=? 0)
       then "0." +:+ digitsText (replicate (Z.to_nat (- n)) D0 ++ ds)
       else
         let e := n - 1 in
         let sign := if e <? 0 then "-" else "+" in
         match ds with
         | [d] => digitsText [d] +:+ "e" +:+ sign +:+ pretty (Z.abs e)
         | _ => digitsText (take 1 ds) +:+ "." +:+ digitsText (drop 1 ds)
                +:+ "e" +:+ sign +:+ pretty (Z.abs e)
         end)
  end.

(** [String(n)] *)
Definition String_of_number (n : number) : string :=
  match n with
  | Finite x => Number_toString x
  | NaN => "NaN"
  | Infinity false => "Infinity"
  | Infinity true => "-Infinity"
  end.

(** *** Date.prototype.toISOString *)

Definition msPerDay : Z := 86400000.

(** Zero-padded decimal of a non-negative integer. *)
Definition pad (width : nat) (z : Z) : string :=
  let s := pretty z in
  String.concat "" (replicate (width - String.length s) "0") +:+ s.

(** Civil date of a day number counted from 1970-01-01. *)
Definition civil_from_days (days : Z) : Z * Z * Z :=
  let z := days + 719468 in
  let era := z `div` 146097 in
  let doe := z - era * 146097 in
  let yoe := (doe - doe `div` 1460 + doe `div` 36524 - doe `div` 146096) `div` 365 in
  let doy := doe - (365 * yoe + yoe `div` 4 - yoe `div` 100) in
  let mp := (5 * doy + 2) `div` 153 in
  let d := doy - (153 * mp + 2) `div` 5 + 1 in
  let m := if mp <? 10 then mp + 3 else mp - 9 in
  let y := yoe + era * 400 + (if m <=? 2 then 1 else 0) in
  (y, m, d).

Definition isoYear (y : Z) : string :=
  if (0 <=? y) && (y <=? 9999) then pad 4 y
  else (if y <? 0 then "-" else "+") +:+ pad 6 (Z.abs y).

Definition toISOString (t : Z) : string :=
  let '(y, m, d) := civil_from_days (t `div` msPerDay) in
  let ms := t `mod` msPerDay in
  isoYear y +:+ "-" +:+ pad 2 m +:+ "-" +:+ pad 2 d +:+ "T" +:+
  pad 2 (ms `div` 3600000) +:+ ":" +:+
  pad 2 ((ms `div` 60000) `mod` 60) +:+ ":" +:+
  pad 2 ((ms `div` 1000) `mod` 60) +:+ "." +:+
  pad 3 (ms `mod` 1000) +:+ "Z".

(** *** JSON.stringify on an array of record values *)

Definition dquote : ascii := ascii_of_nat 34.
Definition backslash : ascii := ascii_of_nat 92.

Definition hexDigit (n : nat) : ascii :=
  ascii_of_nat (if (n <? 10)%nat then 48 + n else 87 + n).

(** One code unit of QuoteJSONString. *)
Definition quoteChar (c : ascii) : string :=
  let n := nat_of_ascii c in
  if (n =? 8)%nat then String backslash "b"
  else if (n =? 9)%nat then String backslash "t"
  else if (n =? 10)%nat then String backslash "n"
  else if (n =? 12)%nat then String backslash "f"
  else if (n =? 13)%nat then String backslash "r"
  else if (n =? 34)%nat then String backslash (String dquote "")
  else if (n =? 92)%nat then String backslash (String backslash "")
  else if (n <? 32)%nat then
    String backslash
      (String "u" (String "0" (String "0"
         (String (hexDigit (n / 16)) (String (hexDigit (n mod 16)) "")))))
  else String c "".

Fixpoint quoteChars (s : string) : string :=
  match s with
  | EmptyString => ""
  | String c s' => quoteChar c +:+ quoteChars s'
  end.

Definition QuoteJSONString (s : string) : string :=
  String dquote (quoteChars s +:+ String dquote "").

(** What SerializeJSONProperty makes of an array element before it
    prints it: [undefined], [null], a function and the non-finite
    numbers are printed as [null]; a [Date] goes through [toJSON],
    which is [null] for an invalid date and the ISO text otherwise;
    [Object.prototype] has no enumerable property and is printed as an
    empty object. *)
Inductive JSONValue :=
| JNull
| JString (s : string)
| JNumber (x : finite)
| JBool (b : bool)
| JEmptyObject.

Definition toJSON (x : JsValue) : JSONValue :=
  match x with
  | JsUndefined | JsNull | JsFunction => JNull
  | JsObjectPrototype => JEmptyObject
  | JsCell (Str s) => JString s
  | JsCell (Num (Finite x)) => JNumber x
  | JsCell (Num _) => JNull
  | JsCell (Bool b) => JBool b
  | JsCell (Dat (DateAt t)) => JString (toISOString t)
  | JsCell (Dat InvalidDate) => JNull
  end.

Definition render (j : JSONValue) : string :=
  match j with
  | JNull => "null"
  | JString s => QuoteJSONString s
  | JNumber x => Number_toString x
  | JBool true => "true"
  | JBool false => "false"
  | JEmptyObject => "{}"
  end.

Definition serialize (x : JsValue) : string := render (toJSON x).

Definition JSON_stringify (xs : list JsValue) : string :=
  "[" +:+ String.concat "," (map serialize xs) +:+ "]".

End Js.

Export Js.



Close Scope Z_scope.
Open Scope nat_scope.

(** ** The Apps Script grid

    The part of [SpreadsheetApp] the stores call: a sheet is a grid of
    cells with a number of frozen rows; an empty cell reads as the
    empty text, and [getLastRow] and [getLastColumn] are the positions
    of the last row and column that have content.  A [Range] is a
    rectangle of 1-based positions on its sheet.  The grid has no
    bound: the sheet is taken to have room for the rows written under
    its data. *)

Module Gas.

Abbreviation Grid := (list (list CellValue)).

Record Sheet := mkSheet {
  frozenRows : nat;
  cells : Grid;
}.

Record Range := mkRange {
  row : nat;
  column : nat;
  numRows : nat;
  numColumns : nat;
}.

#[global] Instance Range_eq_dec : EqDecision Range.
Proof. solve_decision. Defined.

(** Spreadsheets are looked up by sheet name, files by id. *)
Record SpreadsheetApp := mkApp {
  active : gmap string Sheet;
  files : gmap string (gmap string Sheet);
}.

(** The cell at 0-based position [(i, j)]. *)
Definition cell (g : Grid) (i j : nat) : CellValue :=
  default (Str "") (g !! i ≫= fun r => r !! j).

Definition hasContent (v : CellValue) : bool := negb (is_empty_text v).

(** 1-based position of the last [true], or 0. *)
Fixpoint last_true (l : list bool) : nat :=
  match l with
  | [] => 0
  | b :: l' =>
      match last_true l' with
      | 0 => if b then 1 else 0
      | S n => S (S n)
      end
  end.

Definition getLastRow (g : Grid) : nat :=
  last_true (map (existsb hasContent) g).

Definition getLastColumn (g : Grid) : nat :=
  foldr (fun r acc => Nat.max (last_true (map hasContent r)) acc) 0 g.

(** [l[i] = x] on a list that grows as needed, filled with [d]. *)
Definition list_put {A} (d : A) (i : nat) (x : A) (l : list A) : list A :=
  <[i := x]> (l ++ replicate (S i - length l) d).

Definition setCell (g : Grid) (i j : nat) (v : CellValue) : Grid :=
  list_put [] i (list_put (Str "") j v (default [] (g !! i))) g.

Fixpoint writeCells (g : Grid) (i j : nat) (vs : list CellValue) : Grid :=
  match vs with
  | [] => g
  | v :: vs' => writeCells (setCell g i j v) i (S j) vs'
  end.

Fixpoint writeRows (g : Grid) (i j : nat) (values : list (list CellValue)) : Grid :=
  match values with
  | [] => g
  | r :: values' => writeRows (writeCells g i j r) (S i) j values'
  end.

(** [sheet.getRange(row, column, numRows, numColumns)]: [None] stands
    for the exception Apps Script raises on an empty rectangle or a
    position before the first cell. *)
Definition getRange (r c nr nc : nat) : option Range :=
  if (1 <=? r) && (1 <=? c) && (1 <=? nr) && (1 <=? nc)
  then Some (mkRange r c nr nc) else None.

Definition Range_getLastRow (rg : Range) : nat := row rg + numRows rg - 1.
Definition Range_getLastColumn (rg : Range) : nat := column rg + numColumns rg - 1.

(** [range.getValues()] *)
Definition Range_getValues (g : Grid) (rg : Range) : Grid :=
  map (fun i => map (fun j => cell g (row rg - 1 + i) (column rg - 1 + j))
                    (seq 0 (numColumns rg)))
      (seq 0 (numRows rg)).

(** [range.offset(rowOffset, columnOffset, numRows, numColumns)] *)
Definition Range_offset (rg : Range) (ro co nr nc : nat) : option Range :=
  getRange (row rg + ro) (column rg + co) nr nc.

(** The values handed to [setValues], when they are cell values. *)
Definition asCell (x : JsValue) : option CellValue :=
  match x with
  | JsCell v => Some v
  | _ => None
  end.

Definition asCells (values : list (list JsValue)) : option Grid :=
  mapM (mapM asCell) values.

(** [range.setValues(values)]: the data must have the dimensions of the
    range. *)
Definition Range_setValues (g : Grid) (rg : Range) (values : Grid) : option Grid :=
  if (length values =? numRows rg)
     && forallb (fun r => length r =? numColumns rg) values
  then Some (writeRows g (row rg - 1) (column rg - 1) values)
  else None.

(** [range.getCell(row, column)], relative to the range and inside it. *)
Definition Range_getCell (rg : Range) (r c : nat) : option Range :=
  if (1 <=? r) && (r <=? numRows rg) && (1 <=? c) && (c <=? numColumns rg)
  then Some (mkRange (row rg + r - 1) (column rg + c - 1) 1 1) else None.

(** [range.setValue(value)] and [range.getValue()] of a single cell. *)
Definition Range_setValue (g : Grid) (rg : Range) (v : CellValue) : Grid :=
  setCell g (row rg - 1) (column rg - 1) v.

Definition Range_getValue (g : Grid) (rg : Range) : CellValue :=
  cell g (row rg - 1) (column rg - 1).

End Gas.

Export Gas.

(** ** Errors and the store monad *)

(** The exceptions of the code, one constructor per message, with the
    values the message interpolates.  [Unmodelled] is not an exception
    of the code: it ends a run that leaves what is modelled here, by
    handing [setValues] a value that is no cell value or by using a
    [Date] as a property name, whose text depends on the time zone of
    the script. *)
Inductive Error :=
| SheetNotFound (sheetName : string)
| HeaderNotFrozen (sheetName : string)
| HeaderNotOneRow (sheetName : string)
| SheetNotFilled (sheetName : string)
| GetRangeFailed (lastRow lastColumn : nat) (sheetName : string)
| HeadersNotFilled (sheetName : string)
| HeadersNotStrings (sheetName : string)
| HeadersRepeat (sheetName : string)
| MissingHeaders (sheetName : string) (lostHeaders : list string)
| KeyHeadersNotSet
| DuplicateKey (sheetName : string) (keyHeaders : list string)
               (existLine newLine : nat)
| HeaderNotFound (headerName : string)
| NotIndexed
| KeyArity (got expected : nat)
| TypeError
| GasException
| Unmodelled.

#[global] Instance Error_eq_dec : EqDecision Error.
Proof. solve_decision. Defined.

Inductive result (A : Type) :=
| Ok (a : A)
| Throw (e : Error).
Arguments Ok {A} a.
Arguments Throw {A} e.

(** A computation on a store: the state it leaves and what it returns
    or throws.  An exception keeps the state reached when it is thrown. *)
Definition M (S A : Type) : Type := S -> S * result A.

Definition ret {S A} (a : A) : M S A := fun s => (s, Ok a).
Definition throw {S A} (e : Error) : M S A := fun s => (s, Throw e).
Definition bind {S A B} (c : M S A) (k : A -> M S B) : M S B :=
  fun s =>
    match c s with
    | (s', Ok a) => k a s'
    | (s', Throw e) => (s', Throw e)
    end.
Definition gets {S A} (f : S -> A) : M S A := fun s => (s, Ok (f s)).
Definition modify {S} (f : S -> S) : M S unit := fun s => (f s, Ok tt).
Definition orThrow {S A} (e : Error) (x : option A) : M S A :=
  match x with
  | Some a => ret a
  | None => throw e
  end.

(** The results of a loop that stops at the first exception. *)
Fixpoint collect {A} (l : list (result A)) : result (list A) :=
  match l with
  | [] => Ok []
  | Throw e :: _ => Throw e
  | Ok a :: l' =>
      match collect l' with
      | Ok r => Ok (a :: r)
      | Throw e => Throw e
      end
  end.

Notation "'let!' x ':=' c 'in' k" := (bind c (fun x => k))
  (at level 10, x name, c at level 100, k at level 200, only parsing).
Notation "'do!' c 'in' k" := (bind c (fun _ => k))
  (at level 10, c at level 100, k at level 200, only parsing).

(** A JavaScript [Map] with string keys: entries in insertion order. *)
Fixpoint Map_set {V} (k : string) (v : V) (m : list (string * V)) : list (string * V) :=
  match m with
  | [] => [(k, v)]
  | (k', v') :: m' =>
      if bool_decide (k = k') then (k, v) :: m' else (k', v') :: Map_set k v m'
  end.

Fixpoint Map_get {V} (k : string) (m : list (string * V)) : option V :=
  match m with
  | [] => None
  | (k', v') :: m' => if bool_decide (k = k') then Some v' else Map_get k m'
  end.

Definition Map_has {V} (k : string) (m : list (string * V)) : bool :=
  bool_decide (is_Some (Map_get k m)).

Definition Map_keys {V} (m : list (string * V)) : list string := map fst m.

(** A [Map] whose keys are cell values, compared by SameValueZero. *)
Fixpoint CMap_set {V} (k : CellValue) (v : V) (m : list (CellValue * V))
  : list (CellValue * V) :=
  match m with
  | [] => [(k, v)]
  | (k', v') :: m' =>
      if sameValueZero k k' then (k, v) :: m' else (k', v') :: CMap_set k v m'
  end.

Fixpoint CMap_get {V} (k : CellValue) (m : list (CellValue * V)) : option V :=
  match m with
  | [] => None
  | (k', v') :: m' => if sameValueZero k k' then Some v' else CMap_get k m'
  end.

(** ** The first store variant: [SheetObject] and [RowObject] *)

Module SheetObject.

(** [SheetRowObj]: the fields of a row and the two symbol properties. *)
Record SheetRowObj := mkRowObj {
  fields : RowRecord;
  LineSymbol : nat;
  IndexSymbol : nat;
}.

(** The property key a header cell is read as.  The text of a date
    depends on the time zone of the script and is not modelled. *)
Definition ToPropertyKey (h : CellValue) : option string :=
  match h with
  | Str s => Some s
  | Num n => Some (String_of_number n)
  | Bool true => Some "true"
  | Bool false => Some "false"
  | Dat _ => None
  end.

(** [sheet.header[colIndex]] as a property key; [undefined] past the
    end of the header. *)
Definition headerKey (header : list CellValue) (colIndex : nat) : option string :=
  match header !! colIndex with
  | Some h => ToPropertyKey h
  | None => Some "undefined"
  end.

(** [defaultSheetRowsTransformer(row, index, {header})].  A row of a
    range has at least one cell, so both symbols are set. *)
Definition defaultSheetRowsTransformer (row : list CellValue) (index : nat)
    (header : list CellValue) : result SheetRowObj :=
  match
    fold_left
      (fun res cv =>
         let colIndex := cv.1 in
         let val := cv.2 in
         match res, headerKey header colIndex with
         | Some res, Some key =>
             Some (Js.set res key (if is_empty_text val then Null else Cell val))
         | _, _ => None
         end)
      (imap (fun colIndex val => (colIndex, val)) row) (Some (literal ∅))
  with
  | Some fields => Ok (mkRowObj fields (index + 1) index)
  | None => Throw Unmodelled
  end.

(** [getSheetTableRange(sheetName)] on the active spreadsheet. *)
Definition getSheetTableRange (ss : gmap string Sheet) (sheetName : string)
  : result Range :=
  match ss !! sheetName with
  | None => Throw (SheetNotFound sheetName)
  | Some sheet =>
      let lastRow := getLastRow (cells sheet) in
      let lastCol := getLastColumn (cells sheet) in
      if frozenRows sheet =? 0 then Throw (HeaderNotFrozen sheetName)
      else if 1 <? frozenRows sheet then Throw (HeaderNotOneRow sheetName)
      else if (lastRow =? 0) || (lastCol =? 0) then Throw (SheetNotFilled sheetName)
      else
        match getRange 1 1 lastRow lastCol with
        | Some range => Ok range
        | None => Throw (GetRangeFailed lastRow lastCol sheetName)
        end
  end.

(** [getSheetRowsAsObjects(range)], for the sheet [sheetName] with the
    cells [g]. *)
Definition getSheetRowsAsObjects (sheetName : string) (g : Grid) (range : Range)
  : result (list SheetRowObj) :=
  let values := Range_getValues g range in
  if length values =? 1 then Ok []
  else
    match values with
    | [] => Throw TypeError
    | header :: rest =>
        let uniqHeaders := Array_from_Set header in
        if negb (length header =? length uniqHeaders)
        then Throw (HeadersRepeat sheetName)
        else if existsb not_string uniqHeaders
        then Throw (HeadersNotStrings sheetName)
        else if existsb is_empty_text uniqHeaders
        then Throw (HeadersNotFilled sheetName)
        else collect (imap (fun i row => defaultSheetRowsTransformer row (i + 1) header) rest)
    end.

Record SheetObjectParams := mkParams {
  params_keyHeaders : option (list string);
  rowsFilter : option (SheetRowObj -> bool);
}.

(** The store.  A [RowObject] is never changed once made, so the rows
    are held by value. *)
Record t := mkObject {
  keyHeaders : option (list string);
  rowsByKeysMap : gmap string SheetRowObj;
  header : list CellValue;
  headerColMap : list (CellValue * nat);
  lastRow : nat;
  sheetName : string;
  range : Range;
  rows : list SheetRowObj;
  sheet : Sheet;
}.

Definition set_sheet (g : Grid) (so : t) : t :=
  mkObject (keyHeaders so) (rowsByKeysMap so) (header so) (headerColMap so)
    (lastRow so) (sheetName so) (range so) (rows so)
    (mkSheet (frozenRows (sheet so)) g).
Definition set_lastRow (n : nat) (so : t) : t :=
  mkObject (keyHeaders so) (rowsByKeysMap so) (header so) (headerColMap so)
    n (sheetName so) (range so) (rows so) (sheet so).
Definition set_rows (l : list SheetRowObj) (so : t) : t :=
  mkObject (keyHeaders so) (rowsByKeysMap so) (header so) (headerColMap so)
    (lastRow so) (sheetName so) (range so) l (sheet so).
Definition set_rowsByKeysMap (m : gmap string SheetRowObj) (so : t) : t :=
  mkObject (keyHeaders so) m (header so) (headerColMap so)
    (lastRow so) (sheetName so) (range so) (rows so) (sheet so).
Definition set_keyHeaders (k : option (list string)) (so : t) : t :=
  mkObject k (rowsByKeysMap so) (header so) (headerColMap so)
    (lastRow so) (sheetName so) (range so) (rows so) (sheet so).

(** [getRowKey(row)] *)
Definition getRowKey (so : t) (row : SheetRowObj) : string :=
  JSON_stringify
    (fold_left (fun res h => res ++ [Js.get (fields row) h])
               (default [] (keyHeaders so)) []).

(** [addToIndex(row)] *)
Definition addToIndex (row : SheetRowObj) : M t unit :=
  let! rowKey := gets (fun so => getRowKey so row) in
  let! existing := gets (fun so => rowsByKeysMap so !! rowKey) in
  match existing with
  | Some existRow =>
      let! name := gets sheetName in
      let! keyHeaders := gets (fun so => default [] (keyHeaders so)) in
      throw (DuplicateKey name keyHeaders (LineSymbol existRow) (LineSymbol row))
  | None =>
      modify (fun so => set_rowsByKeysMap (<[rowKey := row]> (rowsByKeysMap so)) so)
  end.

(** [rows.forEach(row => this.addToIndex(row))] *)
Fixpoint forEach_addToIndex (rows : list SheetRowObj) : M t unit :=
  match rows with
  | [] => ret tt
  | row :: rows' => do! addToIndex row in forEach_addToIndex rows'
  end.

(** [new SheetObject(sheetName, params)] on the active spreadsheet. *)
Definition new (ss : gmap string Sheet) (name : string) (params : SheetObjectParams)
  : result t :=
  match getSheetTableRange ss name, ss !! name with
  | Throw e, _ => Throw e
  | Ok _, None => Throw (SheetNotFound name)
  | Ok range, Some sheet =>
      let rowsFilter := default (fun _ => true) (rowsFilter params) in
      match getSheetRowsAsObjects name (cells sheet) range with
      | Throw e => Throw e
      | Ok objs =>
          let rows := filter (fun it => rowsFilter it = true) objs in
          let lastRow := Range_getLastRow range in
          match option_map (fun rg => Range_getValues (cells sheet) rg)
                  (Range_offset range 0 0 1 (numColumns range)) with
          | None => Throw GasException
          | Some [] => Throw TypeError
          | Some (header :: _) =>
              let headerColMap :=
                fold_left (fun m ih => CMap_set ih.2 ih.1 m)
                          (imap (fun index h => (index, h)) header) [] in
              let so := mkObject None ∅ header headerColMap lastRow name range rows sheet in
              match params_keyHeaders params with
              | Some (h :: hs) =>
                  match forEach_addToIndex rows (set_keyHeaders (Some (h :: hs)) so) with
                  | (so', Ok _) => Ok so'
                  | (_, Throw e) => Throw e
                  end
              | _ => Ok so
              end
          end
      end
  end.

Definition indexed (so : t) : bool :=
  match keyHeaders so with
  | Some (_ :: _) => true
  | _ => false
  end.

(** [getHeaderCol(headerName)] *)
Definition getHeaderCol (headerName : string) : M t nat :=
  fun so =>
    match CMap_get (Str headerName) (headerColMap so) with
    | Some c => (so, Ok (c + 1))
    | None => (so, Throw (HeaderNotFound headerName))
    end.

(** [getRowByKey(key)] *)
Definition getRowByKey (key : RowRecordValue + list RowRecordValue)
  : M t (option SheetRowObj) :=
  let! isIndexed := gets indexed in
  if negb isIndexed then throw NotIndexed
  else
    let rowKeys := match key with inr keys => keys | inl k => [k] end in
    let! expected := gets (fun so => length (default [] (keyHeaders so))) in
    if negb (length rowKeys =? expected)
    then throw (KeyArity (length rowKeys) expected)
    else gets (fun so => rowsByKeysMap so !! JSON_stringify (map of_value rowKeys)).

(** [addRows(rows)] *)
Definition addRows (newRows : list RowRecord) : M t (list SheetRowObj) :=
  let! header := gets header in
  let! keys := orThrow Unmodelled
                 (if bool_decide (newRows = []) then Some []
                  else mapM ToPropertyKey header) in
  let values :=
    map (fun row =>
           map (fun h =>
                  let cellVal := Js.get row h in
                  if eq_null cellVal then JsCell (Str "") else cellVal) keys)
        newRows in
  let! startRow := gets lastRow in
  match values with
  | [] => throw TypeError
  | values0 :: _ =>
      let! range := gets range in
      let! target := orThrow GasException
                       (Range_offset range startRow 0 (length values) (length values0)) in
      let! cellValues := orThrow Unmodelled (asCells values) in
      let! g := gets (fun so => cells (sheet so)) in
      let! g' := orThrow GasException (Range_setValues g target cellValues) in
      do! modify (set_sheet g') in
      do! modify (fun so => set_lastRow (lastRow so + length values) so) in
      let rowObjects :=
        imap (fun index row =>
                mkRowObj (literal (own row)) (startRow + index + 1) (startRow + index))
             newRows in
      do! modify (fun so => set_rows (rows so ++ rowObjects) so) in
      let! isIndexed := gets indexed in
      do! (if isIndexed then forEach_addToIndex rowObjects else ret tt) in
      ret rowObjects
  end.

(** *** [RowObject] methods *)

(** [getRange(headerName)] *)
Definition RowObject_getRange (row : SheetRowObj) (headerName : string) : M t Range :=
  let! range := gets range in
  let! col := getHeaderCol headerName in
  orThrow GasException (Range_getCell range (LineSymbol row) col).

(** [setValue(headerName, value)] *)
Definition RowObject_setValue (row : SheetRowObj) (headerName : string)
    (value : RowRecordValue) : M t SheetRowObj :=
  let! cell := RowObject_getRange row headerName in
  do! modify (fun so =>
               set_sheet
                 (Range_setValue (cells (sheet so)) cell
                    match value with Null => Str "" | Cell v => v end) so) in
  ret row.

End SheetObject.

(** ** The second store variant: [SheetTable] and [SheetRow] *)

Module SheetTable.

Record SheetTableOptions := mkOptions {
  spreadsheetId : option string;
  mandatoryHeaders : option (list string);
  keyHeaders : option (list string);
}.

(** A [SheetRow] object.  Its [sheetTable] is the table that holds it
    and its [changeHook] is that table's [attachRow]. *)
Record SheetRow := mkSheetRow {
  rowRecord : RowRecord;
  rowLine : nat;
}.

(** A reference to a [SheetRow] object: its position in [objects]. *)
Abbreviation handle := nat.

(** The table, with the sheet it is bound to and the [SheetRow] objects
    it has created.  [rows] is a [Set] (insertion order, no repeats) and
    [rowByKeyMap] a [Map] that is only read and written by key.  The
    [rowByRecordWeakMap], keyed by the identity of record objects, is
    read by [getRowByRecord] alone and is left out. *)
Record t := mkTable {
  sheetName : string;
  options : SheetTableOptions;
  sheet : Sheet;
  lastRow : nat;
  range : option Range;
  headerColumn : list (string * nat);
  headers : list string;
  rowByKeyMap : gmap string handle;
  rows : list handle;
  objects : list SheetRow;
}.

Definition set_sheet (g : Grid) (st : t) : t :=
  mkTable (sheetName st) (options st) (mkSheet (frozenRows (sheet st)) g)
    (lastRow st) (range st) (headerColumn st) (headers st)
    (rowByKeyMap st) (rows st) (objects st).
Definition set_lastRow (n : nat) (st : t) : t :=
  mkTable (sheetName st) (options st) (sheet st) n (range st)
    (headerColumn st) (headers st) (rowByKeyMap st) (rows st) (objects st).
Definition set_range (rg : option Range) (st : t) : t :=
  mkTable (sheetName st) (options st) (sheet st) (lastRow st) rg
    (headerColumn st) (headers st) (rowByKeyMap st) (rows st) (objects st).
Definition set_rowByKeyMap (m : gmap string handle) (st : t) : t :=
  mkTable (sheetName st) (options st) (sheet st) (lastRow st) (range st)
    (headerColumn st) (headers st) m (rows st) (objects st).
Definition set_rows (l : list handle) (st : t) : t :=
  mkTable (sheetName st) (options st) (sheet st) (lastRow st) (range st)
    (headerColumn st) (headers st) (rowByKeyMap st) l (objects st).
Definition set_objects (l : list SheetRow) (st : t) : t :=
  mkTable (sheetName st) (options st) (sheet st) (lastRow st) (range st)
    (headerColumn st) (headers st) (rowByKeyMap st) (rows st) l.

(** [options.keyHeaders] when [options.keyHeaders?.length] is truthy. *)
Definition keyHeadersSet (o : SheetTableOptions) : option (list string) :=
  match keyHeaders o with
  | Some (h :: hs) => Some (h :: hs)
  | _ => None
  end.

(** The header test of the constructor, in its order. *)
Definition headerTest (name : string) (headers : list CellValue) : option Error :=
  if existsb is_empty_text headers then Some (HeadersNotFilled name)
  else if existsb not_string headers then Some (HeadersNotStrings name)
  else if negb (length headers =? length (Array_from_Set headers))
       then Some (HeadersRepeat name)
  else None.

(** The cast [as Array<keyof T>]: past the header test every header is
    text. *)
Definition keyof (h : CellValue) : string :=
  match h with
  | Str s => s
  | _ => ""
  end.

(** [headers.reduce((res, h, index) => res.set(h, index + 1), new Map())] *)
Definition buildHeaderColumn (headers : list string) : list (string * nat) :=
  fold_left (fun res ih => Map_set ih.2 (ih.1 + 1) res)
            (imap (fun index h => (index, h)) headers) [].

(** The check for mandatory headers: the headers that are lost. *)
Definition lostHeaders (o : SheetTableOptions) (headerColumn : list (string * nat))
  : list string :=
  match mandatoryHeaders o, keyHeaders o with
  | (None | Some []), (None | Some []) => []
  | _, _ =>
      let keyHeaders := default [] (keyHeaders o) in
      let mandatoryHeaders := default [] (mandatoryHeaders o) in
      let allMandatoryHeaders := uniq (keyHeaders ++ mandatoryHeaders) in
      filter (fun h => Map_get h headerColumn = None) allMandatoryHeaders
  end.

(** One cell of a loaded row: [sheetRowValues[column - 1] ?? null], and
    the empty text read as [null]. *)
Definition decodeCell (x : option CellValue) : RowRecordValue :=
  match or_null x with
  | Cell v => if is_empty_text v then Null else Cell v
  | Null => Null
  end.

(** The body of the loop that loads the rows of the table. *)
Definition loadRecord (headerColumn : list (string * nat))
    (sheetRowValues : list CellValue) : RowRecord :=
  fold_left
    (fun rowRecord key =>
       Js.set rowRecord key
         (decodeCell (Map_get key headerColumn ≫= fun c => sheetRowValues !! (c - 1))))
    (Map_keys headerColumn) (literal ∅).

(** [getRecordHash(record)] for a record or an array of key values. *)
Definition getRecordHash (st : t) (record : RowRecord + list RowRecordValue)
  : result string :=
  match keyHeadersSet (options st) with
  | None => Throw KeyHeadersNotSet
  | Some keyHeaders =>
      let keyValues :=
        match record with
        | inr values => map of_value values
        | inl record => map (fun h => Js.get record h) keyHeaders
        end in
      Ok (JSON_stringify keyValues)
  end.

(** Reading a [SheetRow] through its reference.  The references a table
    holds all point into [objects]. *)
Definition deref (row : handle) : M t SheetRow :=
  fun st => orThrow TypeError (objects st !! row) st.

Definition getLine (row : handle) : M t nat :=
  let! obj := deref row in ret (rowLine obj).

Definition getRecord (row : handle) : M t RowRecord :=
  let! obj := deref row in ret (rowRecord obj).

(** [attachRow(row)] *)
Definition attachRow (row : handle) : M t unit :=
  let! record := getRecord row in
  let! isNewRow := gets (fun st => negb (bool_decide (row ∈ rows st))) in
  do! (if isNewRow then modify (fun st => set_rows (rows st ++ [row]) st)
       else ret tt) in
  let! o := gets options in
  match keyHeadersSet o with
  | None => ret tt
  | Some keyHeaders =>
      if forallb (fun h => eq_null (Js.get record h)) keyHeaders then ret tt
      else
        let! recHash := (fun st => (st, getRecordHash st (inl record))) in
        let! existing := gets (fun st => rowByKeyMap st !! recHash) in
        match existing with
        | Some existRow =>
            if isNewRow then
              let! name := gets sheetName in
              let! existLine := getLine existRow in
              let! newLine := getLine row in
              throw (DuplicateKey name keyHeaders existLine newLine)
            else modify (fun st => set_rowByKeyMap (<[recHash := row]> (rowByKeyMap st)) st)
        | None => modify (fun st => set_rowByKeyMap (<[recHash := row]> (rowByKeyMap st)) st)
        end
  end.

(** [new SheetRow(this, record, line, row => this.attachRow(row))]: the
    object is allocated, then its constructor runs the hook. *)
Definition new_SheetRow (record : RowRecord) (line : nat) : M t handle :=
  let! row := gets (fun st => length (objects st)) in
  do! modify (fun st => set_objects (objects st ++ [mkSheetRow record line]) st) in
  do! attachRow row in
  ret row.

(** [records.map((it, index) => new SheetRow(this, it, lastRow + index + 1, ...))] *)
Fixpoint createRowsFrom (records : list RowRecord) (lastRow index : nat)
  : M t (list handle) :=
  match records with
  | [] => ret []
  | it :: records' =>
      let! row := new_SheetRow it (lastRow + index + 1) in
      let! rows := createRowsFrom records' lastRow (S index) in
      ret (row :: rows)
  end.

Definition createInternalRows (records : list RowRecord) (lastRow : nat)
  : M t (list handle) :=
  createRowsFrom records lastRow 0.

(** [getValues(record)] *)
Definition getValues (headers : list string) (record : RowRecord) : list JsValue :=
  map (fun h =>
         let cellVal := Js.get record h in
         if eq_null cellVal then JsCell (Str "") else cellVal) headers.

(** The range of the whole occupied rectangle of a sheet. *)
Definition readSheetRange (name : string) (s : Sheet) : result Range :=
  let lastRow := getLastRow (cells s) in
  let lastColumn := getLastColumn (cells s) in
  match getRange 1 1 lastRow lastColumn with
  | Some range => Ok range
  | None => Throw (GetRangeFailed lastRow lastColumn name)
  end.

(** [getSheetRange(forceUpdate)] *)
Definition getSheetRange (forceUpdate : bool) : M t Range :=
  fun st =>
    match (if forceUpdate then None else range st) with
    | Some range => (st, Ok range)
    | None =>
        match readSheetRange (sheetName st) (sheet st) with
        | Ok range => (set_range (Some range) st, Ok range)
        | Throw e => (st, Throw e)
        end
    end.

Definition indexed (st : t) : bool :=
  bool_decide (is_Some (keyHeadersSet (options st))).

(** [getHeaderColumn(headerName)] *)
Definition getHeaderColumn (headerName : string) : M t nat :=
  fun st => orThrow (HeaderNotFound headerName)
              (Map_get headerName (headerColumn st)) st.

(** [getRowByKey(key)] *)
Definition getRowByKey (key : RowRecordValue + list RowRecordValue)
  : M t (option handle) :=
  let! isIndexed := gets indexed in
  if negb isIndexed then throw NotIndexed
  else
    let rowKeys := match key with inr keys => keys | inl k => [k] end in
    let! expected := gets (fun st => length (default [] (keyHeaders (options st)))) in
    if negb (length rowKeys =? expected)
    then throw (KeyArity (length rowKeys) expected)
    else
      let! rowKey := (fun st => (st, getRecordHash st (inr rowKeys))) in
      gets (fun st => rowByKeyMap st !! rowKey).

Definition getRows (st : t) : list handle := rows st.

(** [addRecords(records)] *)
Definition addRecords (records : list RowRecord) : M t (list handle) :=
  let! hs := gets headers in
  let values := map (getValues hs) records in
  let! range := getSheetRange false in
  let lastRow := Range_getLastRow range in
  let! thisLastRow := gets SheetTable.lastRow in
  match values with
  | [] => throw TypeError
  | values0 :: _ =>
      let! target := orThrow GasException
                 (Range_offset range thisLastRow 0 (length values) (length values0)) in
      let! cellValues := orThrow Unmodelled (asCells values) in
      let! g := gets (fun st => cells (sheet st)) in
      let! g' := orThrow GasException (Range_setValues g target cellValues) in
      do! modify (set_sheet g') in
      let! range' := getSheetRange true in
      do! modify (set_lastRow (Range_getLastRow range')) in
      let! newRows := createInternalRows records lastRow in
      ret newRows
  end.

(** *** [SheetRow] methods *)

(** [getCell(headerName)] *)
Definition getCell (row : handle) (headerName : string) : M t Range :=
  let! range := getSheetRange false in
  let! line := getLine row in
  let! col := getHeaderColumn headerName in
  orThrow GasException (Range_getCell range line col).

(** [getValue(header)] *)
Definition getValue (row : handle) (header : string) : M t JsValue :=
  let! record := getRecord row in ret (Js.get record header).

(** [value == null ? '' : value] *)
Definition encodeValue (value : RowRecordValue) : CellValue :=
  match value with
  | Null => Str ""
  | Cell v => v
  end.

(** [setValue(header, value)] *)
Definition setValue (row : handle) (header : string) (value : RowRecordValue)
  : M t handle :=
  let! cell := getCell row header in
  do! modify (fun st =>
               set_sheet (Range_setValue (cells (sheet st)) cell (encodeValue value)) st) in
  do! modify (fun st =>
               set_objects
                 (alter (fun obj =>
                           mkSheetRow (spread_with (rowRecord obj) header value)
                             (rowLine obj))
                        row (objects st)) st) in
  do! attachRow row in
  ret row.

(** *** The constructor *)

(** The spreadsheet the options select. *)
Definition openSpreadsheet (app : SpreadsheetApp) (o : SheetTableOptions)
  : result (gmap string Sheet) :=
  match spreadsheetId o with
  | Some (String c id) =>
      match files app !! String c id with
      | Some ss => Ok ss
      | None => Throw GasException
      end
  | _ => Ok (active app)
  end.

(** The constructor up to the loading of the rows: the table without
    rows, and the records decoded from the sheet. *)
Definition init (app : SpreadsheetApp) (name : string) (o : SheetTableOptions)
  : result (t * list RowRecord) :=
  match openSpreadsheet app o with
  | Throw e => Throw e
  | Ok spreadsheet =>
  match spreadsheet !! name with
  | None => Throw (SheetNotFound name)
  | Some sheet =>
  if frozenRows sheet =? 0 then Throw (HeaderNotFrozen name)
  else if 1 <? frozenRows sheet then Throw (HeaderNotOneRow name)
  else
  match readSheetRange name sheet with
  | Throw e => Throw e
  | Ok range =>
  let lastRow := Range_getLastRow range in
  let lastColumn := Range_getLastColumn range in
  if (lastRow =? 0) || (lastColumn =? 0) then Throw (SheetNotFilled name)
  else
  match Range_getValues (cells sheet) range with
  | [] => Throw TypeError
  | headers :: sheetValues =>
  match headerTest name headers with
  | Some e => Throw e
  | None =>
  let headers := map keyof headers in
  let headerColumn := buildHeaderColumn headers in
  match lostHeaders o headerColumn with
  | (_ :: _) as lost => Throw (MissingHeaders name lost)
  | [] =>
  let sheetRowsRecords := map (loadRecord headerColumn) sheetValues in
  Ok (mkTable name o sheet lastRow (Some range) headerColumn headers ∅ [] [],
      sheetRowsRecords)
  end end end end end end.

(** [new SheetTable(sheetName, options)]: the [SheetRow] objects the
    constructor has created, and the table or the exception. *)
Definition new (app : SpreadsheetApp) (name : string) (o : SheetTableOptions)
  : list SheetRow * result t :=
  match init app name o with
  | Throw e => ([], Throw e)
  | Ok (st, sheetRowsRecords) =>
      match createInternalRows sheetRowsRecords 1 st with
      | (st', Ok _) => (objects st', Ok st')
      | (st', Throw e) => (objects st', Throw e)
      end
  end.

End SheetTable.

(** ** Vocabulary of the statements

    Definitions the theorems are stated with: none of them is code of
    the repository, each is read off the code named in its comment. *)

Module JsonText.

Fixpoint string_forall (P : ascii -> bool) (s : string) : bool :=
  match s with
  | EmptyString => true
  | String c s' => P c && string_forall P s'
  end.

Definition isDigit (c : ascii) : bool :=
  let n := nat_of_ascii c in (48 <=? n) && (n <=? 57).

(** The characters of the decimal text of a number. *)
Definition numChar (c : ascii) : bool :=
  isDigit c || bool_decide (c = "-"%char) || bool_decide (c = "+"%char)
  || bool_decide (c = "."%char) || bool_decide (c = "e"%char).

(** The text of a number in parts: the digits before the point, the
    digits after it, the exponent. *)
Definition expText (ex : option Z) : string :=
  match ex with
  | Some e =>
      String "e" (String (if (e <? 0)%Z then "-"%char else "+"%char) (pretty (Z.abs_N e)))
  | None => ""
  end.

Definition fracText (fp : option (list digit)) (ex : option Z) : string :=
  match fp with
  | Some q => String "." (digitsText q +:+ expText ex)
  | None => expText ex
  end.

Definition layoutText (l : list digit * option (list digit) * option Z) : string :=
  digitsText l.1.1 +:+ fracText l.1.2 l.2.

Definition layoutOf (ds : list digit) (n : Z) : list digit * option (list digit) * option Z :=
  let k := Z.of_nat (length ds) in
  if ((k <=? n) && (n <=? 21))%Z
  then (ds ++ replicate (Z.to_nat (n - k)) D0, None, None)
  else if ((0 <? n) && (n <=? 21))%Z
  then (take (Z.to_nat n) ds, Some (drop (Z.to_nat n) ds), None)
  else if ((-6 <? n) && (n <=? 0))%Z
  then ([D0], Some (replicate (Z.to_nat (- n)) D0 ++ ds), None)
  else
    match ds with
    | [d] => ([d], None, Some (n - 1)%Z)
    | _ => (take 1 ds, Some (drop 1 ds), Some (n - 1)%Z)
    end.

(** Digit lists that begin and end with a digit that is not zero. *)
Definition headNz (ds : list digit) : Prop := exists d ds', ds = Dnz d :: ds'.
Definition lastNz (ds : list digit) : Prop := exists ds' d, ds = ds' ++ [Dnz d].

Definition hexValue (c : ascii) : nat :=
  let n := nat_of_ascii c in if n <? 58 then n - 48 else n - 87.

(** The inverse of [quoteChar] at the front of a text. *)
Definition unquote1 (s : string) : option (ascii * string) :=
  match s with
  | EmptyString => None
  | String c rest =>
      if (nat_of_ascii c =? 34) then None
      else if (nat_of_ascii c =? 92) then
        match rest with
        | EmptyString => None
        | String e rest' =>
            match nat_of_ascii e with
            | 98 => Some (ascii_of_nat 8, rest')
            | 116 => Some (ascii_of_nat 9, rest')
            | 110 => Some (ascii_of_nat 10, rest')
            | 102 => Some (ascii_of_nat 12, rest')
            | 114 => Some (ascii_of_nat 13, rest')
            | 34 => Some (ascii_of_nat 34, rest')
            | 92 => Some (ascii_of_nat 92, rest')
            | 117 =>
                match rest' with
                | String _ (String _ (String h1 (String h0 r))) =>
                    Some (ascii_of_nat (16 * hexValue h1 + hexValue h0), r)
                | _ => None
                end
            | _ => None
            end
        end
      else Some (c, rest)
  end.

(** The characters that follow an element of a printed array. *)
Definition delim (c : ascii) : Prop := c = ","%char \/ c = "]"%char.

End JsonText.

Export JsonText.

Module TableModel.

Import SheetTable.

(** The key [attachRow] files a record under: none when all its key
    fields are [null], else what [getRecordHash] gives. *)
Definition recordKey (keyHeaders : list string) (record : RowRecord) : option string :=
  if forallb (fun h => eq_null (Js.get record h)) keyHeaders then None
  else Some (JSON_stringify (map (fun h => Js.get record h) keyHeaders)).

(** [if (isNewRow) this.rows.add(row)] *)
Definition touch (row : handle) (st : t) : t :=
  if bool_decide (row ∈ rows st) then st else set_rows (rows st ++ [row]) st.

(** The table with the objects [objs], all of them in [rows], and the
    index [idx]. *)
Definition with_rows (st : t) (objs : list SheetRow) (idx : gmap string handle) : t :=
  set_rowByKeyMap idx (set_rows (seq 0 (length objs)) (set_objects objs st)).

(** The objects [createInternalRows(records, lastRow)] allocates, from
    the index [index] of its [map] on. *)
Fixpoint newObjects (records : list RowRecord) (lastRow index : nat) : list SheetRow :=
  match records with
  | [] => []
  | r :: rs => mkSheetRow r (lastRow + index + 1) :: newObjects rs lastRow (S index)
  end.

(** The index once new rows for [records] are attached, the first of
    them being the object [next]. *)
Fixpoint absorbed (kh : list string) (idx : gmap string handle) (next : handle)
    (records : list RowRecord) : gmap string handle :=
  match records with
  | [] => idx
  | r :: rs =>
      absorbed kh
        (match recordKey kh r with Some key => <[key := next]> idx | None => idx end)
        (S next) rs
  end.

Definition later (c : option (nat * handle)) : option (nat * handle) :=
  match c with Some (k, e) => Some (S k, e) | None => None end.

(** The first record whose new row [attachRow] refuses, with the row
    that holds its key. *)
Fixpoint firstConflict (kh : list string) (idx : gmap string handle) (next : handle)
    (records : list RowRecord) : option (nat * handle) :=
  match records with
  | [] => None
  | r :: rs =>
      match recordKey kh r with
      | None => later (firstConflict kh idx (S next) rs)
      | Some key =>
          match idx !! key with
          | Some e => Some (0, e)
          | None => later (firstConflict kh (<[key := next]> idx) (S next) rs)
          end
      end
  end.

(** What [createRowsFrom] comes to, in closed form. *)
Definition createRows_outcome (st : t) (records : list RowRecord) (lastRow index : nat)
  : t * result (list handle) :=
  let n := length (objects st) in
  let all := objects st ++ newObjects records lastRow index in
  match keyHeadersSet (options st) with
  | None => (with_rows st all (rowByKeyMap st), Ok (seq n (length records)))
  | Some kh =>
      match firstConflict kh (rowByKeyMap st) n records with
      | None =>
          (with_rows st all (absorbed kh (rowByKeyMap st) n records),
           Ok (seq n (length records)))
      | Some (k, e) =>
          let objs := objects st ++ newObjects (take (S k) records) lastRow index in
          (with_rows st objs (absorbed kh (rowByKeyMap st) n (take k records)),
           Throw (DuplicateKey (sheetName st) kh
                    (default 0 (rowLine <$> objs !! e)) (lastRow + (index + k) + 1)))
      end
  end.

(** No record of the batch has a key that the index holds or that an
    earlier record of the batch has. *)
Definition batch_fresh (kh : list string) (idx : gmap string handle)
    (records : list RowRecord) : Prop :=
  forall i r key,
    records !! i = Some r -> recordKey kh r = Some key ->
    idx !! key = None /\
    forall j r', j < i -> records !! j = Some r' -> recordKey kh r' <> Some key.

(** The references of a table: every object is in [rows], in the order
    of creation, and the index points at objects. *)
Record heap_ok (st : t) : Prop := {
  rows_all : rows st = seq 0 (length (objects st));
  index_in : forall key h, rowByKeyMap st !! key = Some h -> h < length (objects st);
}.

(** The number of rows of the cached range: [range.getLastRow()]. *)
Definition cachedRows (st : t) : nat := default 0 (numRows <$> range st).

(** The table and its sheet: the cached range is a rectangle from the
    first cell, as wide as the headers and of at most [lastRow] rows;
    the last header cell has content, and nothing lies to the right of
    the headers or below the row [lastRow]. *)
Record grid_ok (st : t) : Prop := {
  range_cached : range st = Some (mkRange 1 1 (cachedRows st) (length (headers st)));
  cachedRows_pos : 1 <= cachedRows st;
  cachedRows_le : cachedRows st <= lastRow st;
  headers_pos : 1 <= length (headers st);
  header_content :
    hasContent (cell (cells (sheet st)) 0 (length (headers st) - 1)) = true;
  width : getLastColumn (cells (sheet st)) = length (headers st);
  extent : getLastRow (cells (sheet st)) <= lastRow st;
}.

(** The cached range has [lastRow] rows, as the constructor and
    [addRecords] leave it. *)
Definition in_step (st : t) : Prop := cachedRows st = lastRow st.

(** A record gives a cell value, [null] or [undefined] under every
    header: nothing is read from the prototype chain but a [Date]. *)
Definition storable (headers : list string) (record : RowRecord) : bool :=
  forallb (fun h => match Js.get record h with
                    | JsFunction | JsObjectPrototype => false
                    | _ => true
                    end) headers.

(** The prototype the setter of [__proto__] leaves to a record made by
    an object literal. *)
Definition protoAfter (v : RowRecordValue) : Prototype :=
  match v with
  | Null => NullPrototype
  | Cell (Dat d) => DatePrototype d
  | Cell _ => ObjectPrototype
  end.

(** The cell [getValues] makes of the value of a header. *)
Definition cellOf (record : RowRecord) (h : string) : CellValue :=
  match Js.get record h with
  | JsCell v => v
  | _ => Str ""
  end.

Definition encodedRow (headers : list string) (record : RowRecord) : list CellValue :=
  map (cellOf record) headers.

(** The rows [addRecords(records)] writes, and the table once they are
    written and the range is read again. *)
Definition encoded (st : t) (records : list RowRecord) : Grid :=
  map (encodedRow (headers st)) records.

Definition written (st : t) (records : list RowRecord) : Grid :=
  writeRows (cells (sheet st)) (lastRow st) 0 (encoded st records).

Definition appended (st : t) (records : list RowRecord) : t :=
  let g := written st records in
  set_lastRow (getLastRow g)
    (set_range (Some (mkRange 1 1 (getLastRow g) (length (headers st))))
       (set_sheet g st)).

(** Every attached row that has a key is the row the index holds for
    that key. *)
Definition index_exact (st : t) : Prop :=
  forall kh h obj key,
    keyHeadersSet (options st) = Some kh ->
    objects st !! h = Some obj -> recordKey kh (rowRecord obj) = Some key ->
    rowByKeyMap st !! key = Some h.

(** The table [setValue(header, value)] leaves when it returns, on the
    handle [row] of the object [obj], [target] being the cell of the
    handle for the header. *)
Definition afterSetValue (st : t) (row : handle) (obj : SheetRow) (header : string)
    (value : RowRecordValue) (target : Range) : t :=
  let record' := spread_with (rowRecord obj) header value in
  let st1 :=
    set_objects (<[row := mkSheetRow record' (rowLine obj)]> (objects st))
      (set_sheet (Range_setValue (cells (sheet st)) target (encodeValue value)) st) in
  match keyHeadersSet (options st) with
  | Some kh =>
      match recordKey kh record' with
      | Some key => set_rowByKeyMap (<[key := row]> (rowByKeyMap st)) st1
      | None => st1
      end
  | None => st1
  end.

(** Every row of the table is below the header row. *)
Definition lines_ok (st : t) : Prop :=
  forall h obj, objects st !! h = Some obj -> 2 <= rowLine obj.

(** The tables a caller can hold: one the constructor returned, as the
    methods that change a table leave it, [addRecords], [setValue] and
    [getSheetRange], whether they return or throw.  The sheet is
    changed through the table only, and the records handed to
    [addRecords] give a cell value, [null] or [undefined] under every
    header: what [setValues] does with another value is not in the
    code. *)
Inductive reachable : t -> Prop :=
| reach_new app name o objs st :
    SheetTable.new app name o = (objs, Ok st) -> reachable st
| reach_addRecords st records :
    reachable st -> forallb (storable (headers st)) records = true ->
    reachable (addRecords records st).1
| reach_setValue st row header value :
    reachable st -> reachable (setValue row header value st).1
| reach_getSheetRange st forceUpdate :
    reachable st -> reachable (getSheetRange forceUpdate st).1.

(** The schema of a table: its headers are distinct texts, none of them
    empty, and [headerColumn] gives each its column. *)
Record schema_ok (st : t) : Prop := {
  headers_nodup : NoDup (headers st);
  headers_filled : forall h, h ∈ headers st -> h <> "";
  columns_built : headerColumn st = buildHeaderColumn (headers st);
}.

(** The first row of the sheet holds the headers of the table. *)
Definition header_row_ok (st : t) : Prop :=
  forall j h, headers st !! j = Some h -> cell (cells (sheet st)) 0 j = Str h.

(** Every key of the index is the key of the row it points at. *)
Definition index_sound (st : t) : Prop :=
  forall kh key h,
    keyHeadersSet (options st) = Some kh -> rowByKeyMap st !! key = Some h ->
    exists obj, objects st !! h = Some obj /\ recordKey kh (rowRecord obj) = Some key.

(** A record whose key values are all read by [JSON.stringify] as what
    they are: none of them is printed as [null] without being [null]
    or [undefined] (as NaN, an infinity, an invalid date and an
    inherited function are). *)
Definition plainKey (kh : list string) (record : RowRecord) : bool :=
  forallb (fun h => match toJSON (Js.get record h) with
                    | JNull => eq_null (Js.get record h)
                    | _ => true
                    end) kh.

(** The tables a caller can hold all of whose records, those loaded
    from the sheet, those handed to [addRecords] and those [setValue]
    makes, satisfy [P]. *)
Inductive built (P : RowRecord -> Prop) : t -> Prop :=
| built_new app name o objs st :
    SheetTable.new app name o = (objs, Ok st) ->
    Forall (fun obj => P (rowRecord obj)) objs -> built P st
| built_addRecords st records :
    built P st -> forallb (storable (headers st)) records = true ->
    Forall P records -> built P (addRecords records st).1
| built_setValue st row header value :
    built P st ->
    (forall obj, objects st !! row = Some obj ->
                 P (spread_with (rowRecord obj) header value)) ->
    built P (setValue row header value st).1
| built_getSheetRange st forceUpdate :
    built P st -> built P (getSheetRange forceUpdate st).1.

(** Every key of the index is the key of a record that satisfies [P]. *)
Definition index_from (P : RowRecord -> Prop) (st : t) : Prop :=
  forall kh key h,
    keyHeadersSet (options st) = Some kh -> rowByKeyMap st !! key = Some h ->
    exists record, P record /\ recordKey kh record = Some key.

(** The tables made by the constructor and by calls of [addRecords]
    that return. *)
Inductive loaded : t -> Prop :=
| loaded_new app name o objs st :
    SheetTable.new app name o = (objs, Ok st) -> loaded st
| loaded_addRecords st records st' hs :
    loaded st -> addRecords records st = (st', Ok hs) -> loaded st'.

(** The row of the sheet at the 0-based position [i], [n] cells wide. *)
Definition sheetRow (g : Grid) (i n : nat) : list CellValue :=
  map (fun j => cell g i j) (seq 0 n).

End TableModel.

Export TableModel.

(** ** A small sheet *)

Module Demo.

(** The numbers 1 to 9. *)
Definition num (d : nzdigit) : CellValue := Num (Finite (Decimal false (Sig1 d) 1)).

Definition grid : Grid :=
  [[Str "id"; Str "name"]; [num N1; Str "a"]; [num N2; Str "b"]].

Definition app : SpreadsheetApp := mkApp {[ "Sheet1" := mkSheet 1 grid ]} ∅.

Definition keyed : SheetTable.SheetTableOptions :=
  SheetTable.mkOptions None None (Some ["id"]).

Definition record (id name : RowRecordValue) : RowRecord :=
  literal {[ "id" := id; "name" := name ]}.

(** The table [new SheetTable("Sheet1", {keyHeaders: ["id"]})]. *)
Definition store : SheetTable.t :=
  SheetTable.mkTable "Sheet1" keyed (mkSheet 1 grid) 3 (Some (mkRange 1 1 3 2))
    [("id", 1); ("name", 2)] ["id"; "name"]
    {[ "[1]" := 0; "[2]" := 1 ]} [0; 1]
    [SheetTable.mkSheetRow (record (Cell (num N1)) (Cell (Str "a"))) 2;
     SheetTable.mkSheetRow (record (Cell (num N2)) (Cell (Str "b"))) 3].

(** The same sheet held by [new SheetObject("Sheet1", {keyHeaders: ["id"]})]. *)
Definition params : SheetObject.SheetObjectParams :=
  SheetObject.mkParams (Some ["id"]) None.

Definition rowObj1 : SheetObject.SheetRowObj :=
  SheetObject.mkRowObj (record (Cell (num N1)) (Cell (Str "a"))) 2 1.
Definition rowObj2 : SheetObject.SheetRowObj :=
  SheetObject.mkRowObj (record (Cell (num N2)) (Cell (Str "b"))) 3 2.

Definition object : SheetObject.t :=
  SheetObject.mkObject (Some ["id"]) {[ "[1]" := rowObj1; "[2]" := rowObj2 ]}
    [Str "id"; Str "name"] [(Str "id", 0); (Str "name", 1)] 3 "Sheet1"
    (mkRange 1 1 3 2) [rowObj1; rowObj2] (mkSheet 1 grid).

(** The table in the middle of [setValue("id", 1)] on the row of line 3:
    the cell is written and the record replaced, and the row is not
    attached again yet. *)
Definition updated : SheetTable.t :=
  SheetTable.set_objects
    [SheetTable.mkSheetRow (record (Cell (num N1)) (Cell (Str "a"))) 2;
     SheetTable.mkSheetRow (record (Cell (num N1)) (Cell (Str "b"))) 3]
    (SheetTable.set_sheet
       [[Str "id"; Str "name"]; [num N1; Str "a"]; [num N1; Str "b"]] store).

(** Sheets for the corner cases: a header row alone whose two cells
    repeat, one data row, and two data rows with an empty key cell. *)
Definition headerOnly : Grid := [[Str "id"; Str "id"]].
Definition oneRow : Grid := [[Str "id"; Str "name"]; [num N1; Str "a"]].
Definition blankKeys : Grid :=
  [[Str "id"; Str "name"]; [Str ""; Str "a"]; [Str ""; Str "b"]].

Definition sheets (g : Grid) : gmap string Sheet := {[ "Sheet1" := mkSheet 1 g ]}.

(** The table [new SheetTable("Sheet1", {keyHeaders: ["id"]})] on the
    sheet [blankKeys]: two rows, none of them with a key. *)
Definition blanks : SheetTable.t :=
  SheetTable.mkTable "Sheet1" keyed (mkSheet 1 blankKeys) 3 (Some (mkRange 1 1 3 2))
    [("id", 1); ("name", 2)] ["id"; "name"] ∅ [0; 1]
    [SheetTable.mkSheetRow (record Null (Cell (Str "a"))) 2;
     SheetTable.mkSheetRow (record Null (Cell (Str "b"))) 3].

End Demo.

(** * Lemmas and theorems *)

Import SheetTable.

Open Scope string_scope.
Open Scope list_scope.
Open Scope nat_scope.

#[local] Arguments String.append !_ _ / : simpl nomatch.

Ltac msimpl :=
  repeat (progress (unfold bind, gets, modify, ret, throw, orThrow,
                    getRecord, getLine, deref; cbn beta iota zeta)).

(** ** Sanity checks of the built-ins *)

Example toISOString_epoch : toISOString 0 = "1970-01-01T00:00:00.000Z".
Proof. vm_compute. reflexivity. Qed.
Example toISOString_2023 : toISOString 1700000000000 = "2023-11-14T22:13:20.000Z".
Proof. vm_compute. reflexivity. Qed.
Example toISOString_leap : toISOString 951782400000 = "2000-02-29T00:00:00.000Z".
Proof. vm_compute. reflexivity. Qed.
Example toISOString_neg : toISOString (-1) = "1969-12-31T23:59:59.999Z".
Proof. vm_compute. reflexivity. Qed.
Example Number_toString_fraction :
  Number_toString (Decimal false (SigN N1 [Dnz N2; Dnz N3; Dnz N4; Dnz N5] N6) 3)
  = "123.456".
Proof. vm_compute. reflexivity. Qed.
Example Number_toString_1e21 : Number_toString (Decimal false (Sig1 N1) 22) = "1e+21".
Proof. vm_compute. reflexivity. Qed.
Example Number_toString_1e20 :
  Number_toString (Decimal false (Sig1 N1) 21) = "100000000000000000000".
Proof. vm_compute. reflexivity. Qed.
Example Number_toString_small :
  Number_toString (Decimal true (Sig1 N1) (-5)) = "-0.000001".
Proof. vm_compute. reflexivity. Qed.
Example Number_toString_exp :
  Number_toString (Decimal false (SigN N1 [] N5) (-6)) = "1.5e-7".
Proof. vm_compute. reflexivity. Qed.
Example JSON_stringify_ex :
  JSON_stringify [JsCell (Demo.num N1); JsUndefined; JsCell (Str "a,b");
                  JsFunction; JsObjectPrototype]
  = "[1,null," +:+ String dquote "a,b" +:+ String dquote ",null,{}]".
Proof. vm_compute. reflexivity. Qed.

(** ** The grid *)

Section GridFacts.
Implicit Types (g : Grid) (i j : nat) (v : CellValue).

Lemma lookup_list_put {A} (d : A) i j x (l : list A) :
  default d (list_put d i x l !! j) = if decide (i = j) then x else default d (l !! j).
Proof.
  unfold list_put. case_decide as Hij.
  - subst j. rewrite list_lookup_insert_eq; [done|].
    rewrite length_app, length_replicate. lia.
  - rewrite list_lookup_insert_ne by done.
    destruct (decide (j < length l)) as [Hlt|Hge].
    + by rewrite lookup_app_l.
    + rewrite lookup_app_r by lia.
      rewrite (lookup_ge_None_2 l j) by lia. simpl.
      destruct (replicate _ d !! _) eqn:E; [|done].
      apply lookup_replicate in E as [-> _]. done.
Qed.

Lemma cell_rowAt g i j : cell g i j = default (Str "") (default [] (g !! i) !! j).
Proof. unfold cell. by destruct (g !! i). Qed.

Lemma cell_setCell g i j v i' j' :
  cell (setCell g i j v) i' j'
  = if decide (i = i' ∧ j = j') then v else cell g i' j'.
Proof.
  rewrite !cell_rowAt. unfold setCell. rewrite lookup_list_put.
  destruct (decide (i = i')) as [->|Hi].
  - rewrite lookup_list_put. repeat case_decide; naive_solver.
  - case_decide; naive_solver.
Qed.

Lemma cell_writeCells g i j vs i' j' :
  cell (writeCells g i j vs) i' j'
  = if decide (i = i' ∧ j ≤ j' < j + length vs)
    then default (Str "") (vs !! (j' - j)) else cell g i' j'.
Proof.
  revert g j. induction vs as [|v vs IH]; intros g j; simpl.
  - case_decide; [lia|done].
  - rewrite IH, cell_setCell.
    destruct (decide (i = i')) as [->|Hi]; [|repeat case_decide; naive_solver].
    destruct (decide (j = j')) as [->|Hj].
    + rewrite Nat.sub_diag. simpl. repeat case_decide; try lia; naive_solver.
    + repeat case_decide; try lia; try naive_solver.
      replace (j' - j) with (S (j' - S j)) by lia. done.
Qed.

Lemma cell_writeRows g i j values i' j' :
  cell (writeRows g i j values) i' j'
  = match values !! (i' - i) with
    | Some r =>
        if decide (i ≤ i' ∧ j ≤ j' < j + length r)
        then default (Str "") (r !! (j' - j)) else cell g i' j'
    | None => cell g i' j'
    end.
Proof.
  revert g i. induction values as [|r values IH]; intros g i; simpl; [done|].
  rewrite IH.
  destruct (decide (i' < i)) as [Hlt|Hge].
  - replace (i' - S i) with 0 by lia. replace (i' - i) with 0 by lia. simpl.
    destruct values as [|r' ?]; simpl.
    + rewrite cell_writeCells. repeat case_decide; try lia; done.
    + rewrite cell_writeCells. repeat case_decide; try lia; done.
  - destruct (decide (i' = i)) as [->|Hne].
    + rewrite Nat.sub_diag. simpl. replace (i - S i) with 0 by lia.
      rewrite cell_writeCells.
      destruct values as [|r' ?]; simpl; repeat case_decide; try lia; try naive_solver.
    + replace (i' - i) with (S (i' - S i)) by lia. simpl.
      rewrite cell_writeCells.
      destruct (values !! (i' - S i)); repeat case_decide; try lia; try naive_solver.
Qed.

Lemma hasContent_false v : hasContent v = false ↔ v = Str "".
Proof.
  unfold hasContent, is_empty_text. rewrite negb_false_iff, bool_decide_eq_true. done.
Qed.

Lemma last_true_above (l : list bool) i : last_true l ≤ i → l !! i ≠ Some true.
Proof.
  revert i. induction l as [|b l IH]; intros i Hi; [done|].
  simpl in Hi. destruct i as [|i]; simpl.
  - destruct (last_true l); [destruct b; [lia|done]|lia].
  - apply IH. destruct (last_true l); [lia|lia].
Qed.

Lemma last_true_at (l : list bool) : last_true l ≠ 0 → l !! (last_true l - 1) = Some true.
Proof.
  induction l as [|b l IH]; simpl; [done|].
  destruct (last_true l) as [|n] eqn:E.
  - destruct b; [done|done].
  - intros _. replace (S (S n) - 1) with (S n) by lia. simpl.
    specialize (IH ltac:(lia)). by replace (S n - 1) with n in IH by lia.
Qed.

Lemma existsb_hasContent (r : list CellValue) :
  existsb hasContent r = true ↔ ∃ j, hasContent (default (Str "") (r !! j)) = true.
Proof.
  rewrite existsb_exists. split.
  - intros (x & Hin & Hx). apply list_elem_of_In, list_elem_of_lookup in Hin as [j Hj].
    exists j. by rewrite Hj.
  - intros [j Hj]. destruct (r !! j) as [x|] eqn:E; [|done].
    exists x. split; [|done]. apply list_elem_of_In, list_elem_of_lookup. eauto.
Qed.

Lemma getLastRow_blank g i j : getLastRow g ≤ i → cell g i j = Str "".
Proof.
  intros Hi. apply hasContent_false. apply not_true_is_false. intros Hc.
  apply (last_true_above _ _ Hi). rewrite list_lookup_fmap.
  rewrite cell_rowAt in Hc. destruct (g !! i) as [r|] eqn:E; simpl in *; [|done].
  f_equal. apply existsb_hasContent. eauto.
Qed.

Lemma getLastRow_content g :
  getLastRow g ≠ 0 → ∃ j, hasContent (cell g (getLastRow g - 1) j) = true.
Proof.
  intros H. apply last_true_at in H. fold (getLastRow g) in H.
  rewrite list_lookup_fmap in H.
  destruct (g !! (getLastRow g - 1)) as [r|] eqn:E; simpl in H; [|done].
  injection H as H. apply existsb_hasContent in H as [j Hj].
  exists j. by rewrite cell_rowAt, E.
Qed.

Lemma getLastRow_le g n : (∀ i j, n ≤ i → cell g i j = Str "") → getLastRow g ≤ n.
Proof.
  intros H. destruct (decide (getLastRow g ≤ n)) as [|Hgt]; [done|].
  destruct (getLastRow_content g) as [j Hj]; [lia|].
  rewrite H in Hj by lia. done.
Qed.

Lemma getLastRow_gt g i j : hasContent (cell g i j) = true → i < getLastRow g.
Proof.
  intros H. destruct (decide (i < getLastRow g)) as [|Hge]; [done|].
  rewrite getLastRow_blank in H by lia. done.
Qed.

Lemma getLastColumn_blank g i j : getLastColumn g ≤ j → cell g i j = Str "".
Proof.
  revert i. induction g as [|r g IH]; intros i Hj; [done|].
  simpl in Hj. destruct i as [|i].
  - rewrite cell_rowAt. simpl. apply hasContent_false, not_true_is_false. intros Hc.
    apply (last_true_above (map hasContent r) j); [lia|].
    rewrite list_lookup_fmap. destruct (r !! j); simpl in *; [by f_equal|done].
  - unfold cell. simpl. apply (IH i). lia.
Qed.

Lemma getLastColumn_content g :
  getLastColumn g ≠ 0 → ∃ i, hasContent (cell g i (getLastColumn g - 1)) = true.
Proof.
  induction g as [|r g IH]; simpl; [done|].
  intros H.
  destruct (decide (getLastColumn g ≤ last_true (map hasContent r))) as [Hle|Hgt].
  - rewrite Nat.max_l in * by done. apply last_true_at in H.
    exists 0. rewrite cell_rowAt. simpl. rewrite list_lookup_fmap in H.
    destruct (r !! _); simpl in *; [by injection H|done].
  - rewrite Nat.max_r in * by lia. destruct (IH H) as [i Hi]. by exists (S i).
Qed.

Lemma getLastColumn_le g n : (∀ i j, n ≤ j → cell g i j = Str "") → getLastColumn g ≤ n.
Proof.
  intros H. destruct (decide (getLastColumn g ≤ n)) as [|Hgt]; [done|].
  destruct (getLastColumn_content g) as [i Hi]; [lia|].
  rewrite H in Hi by lia. done.
Qed.

Lemma getLastColumn_gt g i j : hasContent (cell g i j) = true → j < getLastColumn g.
Proof.
  intros H. destruct (decide (j < getLastColumn g)) as [|Hge]; [done|].
  rewrite getLastColumn_blank in H by lia. done.
Qed.

End GridFacts.

(** ** The text of a key *)

Lemma unquote1_quoteChar c X : unquote1 (quoteChar c +:+ X) = Some (c, X).
Proof. destruct c as [[] [] [] [] [] [] [] []]; reflexivity. Qed.

Lemma unquote1_dquote X : unquote1 (String dquote X) = None.
Proof. reflexivity. Qed.

Lemma string_app_assoc (a b c : string) : (a +:+ b) +:+ c = a +:+ (b +:+ c).
Proof. induction a as [|x a IH]; simpl; [done|]. by rewrite IH. Qed.

Lemma quoteChars_inj s1 s2 r1 r2 :
  quoteChars s1 +:+ String dquote r1 = quoteChars s2 +:+ String dquote r2 →
  s1 = s2 ∧ r1 = r2.
Proof.
  revert s2. induction s1 as [|c1 s1 IH]; intros [|c2 s2]; cbn [quoteChars].
  - by intros [= ->].
  - intros H. apply (f_equal unquote1) in H.
    rewrite string_app_assoc, unquote1_quoteChar in H. done.
  - intros H. apply (f_equal unquote1) in H.
    rewrite string_app_assoc, unquote1_quoteChar in H. done.
  - intros H. apply (f_equal unquote1) in H.
    rewrite !string_app_assoc, !unquote1_quoteChar in H.
    injection H as -> H. apply IH in H as [-> ->]. done.
Qed.

Lemma split_unique P s1 s2 d1 d2 u v :
  string_forall P s1 = true → string_forall P s2 = true →
  P d1 = false → P d2 = false →
  s1 +:+ String d1 u = s2 +:+ String d2 v → s1 = s2 ∧ d1 = d2 ∧ u = v.
Proof.
  revert s2. induction s1 as [|c1 s1 IH]; intros [|c2 s2]; simpl;
    intros H1 H2 Hd1 Hd2 H.
  - by injection H as -> ->.
  - injection H as -> _. apply andb_true_iff in H2 as [H2 _]. congruence.
  - injection H as -> _. apply andb_true_iff in H1 as [H1 _]. congruence.
  - injection H as -> H. apply andb_true_iff in H1 as [_ H1].
    apply andb_true_iff in H2 as [_ H2].
    destruct (IH _ H1 H2 Hd1 Hd2 H) as (-> & -> & ->). done.
Qed.

Lemma string_forall_app P a b :
  string_forall P (a +:+ b) = string_forall P a && string_forall P b.
Proof. induction a as [|x a IH]; simpl; [done|]. by rewrite IH, andb_assoc. Qed.

Lemma string_forall_impl (P Q : ascii → bool) s :
  (∀ c, P c = true → Q c = true) → string_forall P s = true → string_forall Q s = true.
Proof.
  intros H. induction s as [|c s IH]; simpl; [done|].
  intros [H1 H2]%andb_true_iff. by rewrite (H _ H1), IH.
Qed.

Lemma no_split P s1 s2 d u :
  string_forall P s1 = true → P d = false → s1 ≠ s2 +:+ String d u.
Proof.
  intros H1 Hd ->. rewrite string_forall_app in H1. simpl in H1.
  rewrite Hd in H1. by rewrite andb_false_r in H1.
Qed.

Lemma digitChar_isDigit d : isDigit (digitChar d) = true.
Proof. by destruct d as [|[]]. Qed.

Lemma digitChar_inj d1 d2 : digitChar d1 = digitChar d2 → d1 = d2.
Proof. by destruct d1 as [|[]], d2 as [|[]]. Qed.

Lemma digitsText_isDigit ds : string_forall isDigit (digitsText ds) = true.
Proof. induction ds as [|d ds IH]; simpl; [done|]. by rewrite digitChar_isDigit. Qed.

Lemma digitsText_inj ds1 ds2 : digitsText ds1 = digitsText ds2 → ds1 = ds2.
Proof.
  revert ds2. induction ds1 as [|d ds1 IH]; intros [|d2 ds2]; simpl; try done.
  intros [= Hd H]. by rewrite (digitChar_inj _ _ Hd), (IH _ H).
Qed.

Lemma digitsText_app a b : digitsText (a ++ b) = digitsText a +:+ digitsText b.
Proof. induction a as [|x a IH]; simpl; [done|]. by rewrite IH. Qed.

Lemma pretty_N_char_isDigit x : isDigit (pretty_N_char x) = true.
Proof. unfold pretty_N_char. by repeat case_match. Qed.

Lemma pretty_N_go_isDigit x s :
  string_forall isDigit s = true → string_forall isDigit (pretty_N_go x s) = true.
Proof.
  revert s. induction (N.lt_wf_0 x) as [x _ IH]; intros s Hs.
  assert (x = 0 ∨ 0 < x)%N as [->|?] by lia.
  - by rewrite pretty_N_go_0.
  - rewrite pretty_N_go_step by done. apply IH.
    { by apply N.div_lt. }
    simpl. by rewrite pretty_N_char_isDigit.
Qed.

Lemma pretty_N_isDigit (x : N) : string_forall isDigit (pretty x) = true.
Proof. unfold pretty, pretty_N. case_decide; [done|]. by apply pretty_N_go_isDigit. Qed.

Lemma pretty_Z_abs (e : Z) : pretty (Z.abs e) = pretty (Z.abs_N e).
Proof. by destruct e. Qed.

Lemma string_app_nil_r (a : string) : a +:+ "" = a.
Proof. induction a as [|x a IH]; simpl; [done|]. by rewrite IH. Qed.

Lemma Number_toString_layout negative s n :
  Number_toString (Decimal negative s n)
  = (if negative then "-" else "") +:+ layoutText (layoutOf (digits s) n).
Proof.
  unfold Number_toString, layoutOf, layoutText. cbn zeta. f_equal.
  destruct (_ && _)%Z; [by rewrite string_app_nil_r|].
  destruct (_ && _)%Z; [cbn; by rewrite string_app_nil_r|].
  destruct (_ && _)%Z; [cbn; by rewrite string_app_nil_r|].
  rewrite pretty_Z_abs.
  destruct (digits s) as [|d [|d' ds]]; cbn; by destruct (n - 1 <? 0)%Z.
Qed.
Lemma digits_no_split q s c u :
  isDigit c = false → digitsText q = s +:+ String c u → False.
Proof. intros Hc H. by apply (no_split isDigit (digitsText q) s c u (digitsText_isDigit q) Hc). Qed.

Lemma expText_inj e1 e2 : expText e1 = expText e2 → e1 = e2.
Proof.
  destruct e1 as [e1|], e2 as [e2|]; simpl; try done.
  intros [= Hs Hp]. apply (inj pretty) in Hp. f_equal.
  destruct (e1 <? 0)%Z eqn:E1, (e2 <? 0)%Z eqn:E2; try done;
    try apply Z.ltb_lt in E1; try apply Z.ltb_lt in E2;
    try apply Z.ltb_ge in E1; try apply Z.ltb_ge in E2; lia.
Qed.

Lemma expText_head ex :
  expText ex = "" ∨ ∃ u, expText ex = String "e" u.
Proof. destruct ex; simpl; eauto. Qed.

Lemma fracText_head fp ex :
  fracText fp ex = "" ∨ ∃ c u, fracText fp ex = String c u ∧ isDigit c = false.
Proof.
  destruct fp; simpl; [right; by eexists _, _|].
  destruct (expText_head ex) as [->|[u ->]]; [by left|right; by eexists _, _].
Qed.

Lemma fracText_inj fp1 ex1 fp2 ex2 :
  fracText fp1 ex1 = fracText fp2 ex2 → fp1 = fp2 ∧ ex1 = ex2.
Proof.
  destruct fp1 as [q1|], fp2 as [q2|]; simpl.
  - intros [= H].
    destruct (expText_head ex1) as [E1|[u1 E1]], (expText_head ex2) as [E2|[u2 E2]];
      rewrite E1, E2 in H.
    + rewrite !string_app_nil_r in H. apply digitsText_inj in H as ->.
      split; [done|]. apply expText_inj. by rewrite E1, E2.
    + rewrite string_app_nil_r in H. exfalso.
      by eapply digits_no_split in H.
    + rewrite string_app_nil_r in H. exfalso. symmetry in H.
      by eapply digits_no_split in H.
    + apply split_unique with (P := isDigit) in H as (H & _ & Hu);
        auto using digitsText_isDigit.
      apply digitsText_inj in H as ->. split; [done|].
      apply expText_inj. by rewrite E1, E2, Hu.
  - intros H. destruct ex2; simpl in H; done.
  - intros H. destruct ex1; simpl in H; done.
  - intros H. split; [done|]. by apply expText_inj.
Qed.

Lemma layoutText_inj l1 l2 : layoutText l1 = layoutText l2 → l1 = l2.
Proof.
  destruct l1 as [[ip1 fp1] ex1], l2 as [[ip2 fp2] ex2]. unfold layoutText. simpl.
  intros H.
  destruct (fracText_head fp1 ex1) as [E1|(c1 & u1 & E1 & Hc1)],
           (fracText_head fp2 ex2) as [E2|(c2 & u2 & E2 & Hc2)]; rewrite E1, E2 in H.
  - rewrite !string_app_nil_r in H. apply digitsText_inj in H as ->.
    destruct (fracText_inj fp1 ex1 fp2 ex2) as [-> ->]; [congruence|done].
  - rewrite string_app_nil_r in H. exfalso.
    by eapply digits_no_split in H.
  - rewrite string_app_nil_r in H. exfalso. symmetry in H.
    by eapply digits_no_split in H.
  - apply split_unique with (P := isDigit) in H as (H & -> & ->);
      auto using digitsText_isDigit.
    apply digitsText_inj in H as ->.
    destruct (fracText_inj fp1 ex1 fp2 ex2) as [-> ->]; [congruence|done].
Qed.

Lemma digits_headNz s : headNz (digits s).
Proof. destruct s; by eexists _, _. Qed.

Lemma digits_lastNz s : lastNz (digits s).
Proof.
  destruct s as [d|f m l]; simpl.
  - by exists [], d.
  - by exists (Dnz f :: m), l.
Qed.

Lemma digits_inj s1 s2 : digits s1 = digits s2 → s1 = s2.
Proof.
  destruct s1 as [d1|f1 m1 l1], s2 as [d2|f2 m2 l2]; simpl.
  - by intros [= ->].
  - intros [= -> H]. by destruct m2.
  - intros [= -> H]. by destruct m1.
  - intros [= -> H]. apply app_inj_tail in H as [-> [= ->]]. done.
Qed.

Lemma zeros_head_inj a b x y :
  headNz x → headNz y →
  replicate a D0 ++ x = replicate b D0 ++ y → a = b ∧ x = y.
Proof.
  intros (dx & x' & ->) (dy & y' & ->). revert b.
  induction a as [|a IH]; intros [|b]; simpl; try done.
  intros [= H]. by destruct (IH _ H) as [-> ->].
Qed.

Lemma zeros_tail_inj a b x y :
  lastNz x → lastNz y →
  x ++ replicate a D0 = y ++ replicate b D0 → a = b ∧ x = y.
Proof.
  intros (x' & dx & ->) (y' & dy & ->) H.
  apply (f_equal (@rev digit)) in H.
  rewrite !rev_app_distr in H. simpl in H.
  assert (Hr : ∀ n, rev (replicate n D0) = replicate n D0).
  { intros n. induction n as [|n IH]; simpl; [done|].
    rewrite IH. clear. induction n; simpl; [done|]. by f_equal. }
  rewrite !Hr in H.
  apply zeros_head_inj in H as [-> H]; [|by eexists _, _..].
  split; [done|]. injection H as -> H. apply (f_equal (@rev digit)) in H.
  rewrite !rev_involutive in H. by rewrite H.
Qed.

Lemma layoutOf_inj ds1 n1 ds2 n2 :
  headNz ds1 → lastNz ds1 → headNz ds2 → lastNz ds2 →
  layoutOf ds1 n1 = layoutOf ds2 n2 → ds1 = ds2 ∧ n1 = n2.
Proof.
  intros Hh1 Hl1 Hh2 Hl2. unfold layoutOf.
  assert (Hk1 : 0 < length ds1) by (destruct Hh1 as (? & ? & ->); simpl; lia).
  assert (Hk2 : 0 < length ds2) by (destruct Hh2 as (? & ? & ->); simpl; lia).
  destruct ((Z.of_nat (length ds1) <=? n1) && (n1 <=? 21))%Z eqn:A1;
    [apply andb_true_iff in A1 as [A1 A1']; apply Z.leb_le in A1, A1'|];
    (destruct ((Z.of_nat (length ds2) <=? n2) && (n2 <=? 21))%Z eqn:A2;
      [apply andb_true_iff in A2 as [A2 A2']; apply Z.leb_le in A2, A2'|]).
  - intros [= H]. apply zeros_tail_inj in H as [H ->]; [|done..]. split; [done|lia].
  - destruct ((0 <? n2) && (n2 <=? 21))%Z; [done|].
    destruct ((-6 <? n2) && (n2 <=? 0))%Z; [done|]. by destruct ds2 as [|? [|]].
  - destruct ((0 <? n1) && (n1 <=? 21))%Z; [done|].
    destruct ((-6 <? n1) && (n1 <=? 0))%Z; [done|]. by destruct ds1 as [|? [|]].
  - destruct ((0 <? n1) && (n1 <=? 21))%Z eqn:B1;
      [apply andb_true_iff in B1 as [B1 B1']; apply Z.ltb_lt in B1; apply Z.leb_le in B1'|];
      (destruct ((0 <? n2) && (n2 <=? 21))%Z eqn:B2;
        [apply andb_true_iff in B2 as [B2 B2']; apply Z.ltb_lt in B2; apply Z.leb_le in B2'|]).
    + intros [= Ht Hd].
      assert (Hlt1 : (n1 < Z.of_nat (length ds1))%Z).
      { apply andb_false_iff in A1 as [A1|A1];
          [apply Z.leb_gt in A1|apply Z.leb_gt in A1]; lia. }
      assert (Hlt2 : (n2 < Z.of_nat (length ds2))%Z).
      { apply andb_false_iff in A2 as [A2|A2];
          [apply Z.leb_gt in A2|apply Z.leb_gt in A2]; lia. }
      assert (ds1 = ds2) as ->.
      { by rewrite <- (take_drop (Z.to_nat n1) ds1), Ht, Hd, take_drop. }
      split; [done|]. apply (f_equal length) in Ht. rewrite !length_take in Ht. lia.
    + destruct ((-6 <? n2) && (n2 <=? 0))%Z.
      * intros [= Ht _]. destruct Hh1 as (d & ds' & ->).
        destruct (Z.to_nat n1) eqn:E; [lia|]. done.
      * by destruct ds2 as [|? [|]].
    + destruct ((-6 <? n1) && (n1 <=? 0))%Z.
      * intros [= Ht _]. destruct Hh2 as (d & ds' & ->).
        destruct (Z.to_nat n2) eqn:E; [lia|]. done.
      * by destruct ds1 as [|? [|]].
    + destruct ((-6 <? n1) && (n1 <=? 0))%Z eqn:C1;
        [apply andb_true_iff in C1 as [C1 C1']; apply Z.ltb_lt in C1; apply Z.leb_le in C1'|];
        (destruct ((-6 <? n2) && (n2 <=? 0))%Z eqn:C2;
          [apply andb_true_iff in C2 as [C2 C2']; apply Z.ltb_lt in C2; apply Z.leb_le in C2'|]).
      * intros [= H]. apply zeros_head_inj in H as [H ->]; [|done..]. split; [done|lia].
      * by destruct ds2 as [|? [|]].
      * by destruct ds1 as [|? [|]].
      * destruct ds1 as [|d1 [|d1' ds1]], ds2 as [|d2 [|d2' ds2]]; simpl in *; try lia;
          intros [= ]; subst; split; try done; lia.
Qed.

Lemma layout_head ds n :
  headNz ds →
  ∃ d u, layoutText (layoutOf ds n) = String (digitChar d) u
         ∧ ((∃ u', u = String "." u') ∨ d ≠ D0).
Proof.
  intros (d & ds' & ->). unfold layoutOf, layoutText.
  destruct ((Z.of_nat (length (Dnz d :: ds')) <=? n) && (n <=? 21))%Z;
    [exists (Dnz d); eexists; split; [reflexivity|by right]|].
  destruct ((0 <? n) && (n <=? 21))%Z eqn:B.
  { apply andb_true_iff in B as [B _]. apply Z.ltb_lt in B.
    destruct (Z.to_nat n) eqn:E; [lia|].
    exists (Dnz d). eexists. split; [reflexivity|by right]. }
  destruct ((-6 <? n) && (n <=? 0))%Z;
    [exists D0; eexists; split; [reflexivity|left; by eexists]|].
  destruct ds'; exists (Dnz d); eexists; (split; [reflexivity|by right]).
Qed.

Lemma Number_toString_inj x y : Number_toString x = Number_toString y → x = y.
Proof.
  assert (Hzero : ∀ negative s n, Number_toString (Decimal negative s n) ≠ "0").
  { intros negative s n. rewrite Number_toString_layout.
    destruct (layout_head (digits s) n (digits_headNz s)) as (d & u & -> & Hd).
    destruct negative; [done|]. simpl. intros [= Hc ->].
    destruct Hd as [[u' ?]|Hd]; [done|]. by destruct d as [|[]]. }
  destruct x as [|neg1 s1 n1], y as [|neg2 s2 n2]; [done| | |].
  - intros H. symmetry in H. by apply Hzero in H.
  - intros H. by apply Hzero in H.
  - rewrite !Number_toString_layout.
    destruct (layout_head (digits s1) n1 (digits_headNz s1)) as (d1 & u1 & E1 & _).
    destruct (layout_head (digits s2) n2 (digits_headNz s2)) as (d2 & u2 & E2 & _).
    intros H.
    assert (neg1 = neg2 ∧ layoutText (layoutOf (digits s1) n1)
                          = layoutText (layoutOf (digits s2) n2)) as [-> HL].
    { destruct neg1, neg2; simpl in H.
      - by injection H.
      - rewrite E2 in H. injection H as H _. by destruct d2 as [|[]].
      - rewrite E1 in H. injection H as H _. by destruct d1 as [|[]].
      - done. }
    apply layoutText_inj, layoutOf_inj in HL as [Hd ->];
      auto using digits_headNz, digits_lastNz.
    by apply digits_inj in Hd as ->.
Qed.

Lemma Number_toString_numChar x : string_forall numChar (Number_toString x) = true.
Proof.
  assert (Hd : ∀ s, string_forall isDigit s = true → string_forall numChar s = true).
  { intros s. apply string_forall_impl. intros c Hc. unfold numChar. by rewrite Hc. }
  destruct x as [|negative s n]; [done|].
  rewrite Number_toString_layout, string_forall_app.
  apply andb_true_iff. split; [by destruct negative|].
  unfold layoutText. rewrite string_forall_app, Hd by apply digitsText_isDigit.
  assert (He : string_forall numChar (expText (layoutOf (digits s) n).2) = true).
  { destruct (layoutOf (digits s) n).2 as [e|]; [|done]. simpl.
    rewrite Hd by apply pretty_N_isDigit. by destruct (e <? 0)%Z. }
  destruct (layoutOf (digits s) n).1.2 as [q|]; simpl; [|done].
  by rewrite string_forall_app, He, Hd by apply digitsText_isDigit.
Qed.
Lemma render_inj_delim a b d1 d2 u v :
  delim d1 → delim d2 →
  render a +:+ String d1 u = render b +:+ String d2 v →
  a = b ∧ d1 = d2 ∧ u = v.
Proof.
  intros Hd1 Hd2.
  assert (Hnum : ∀ (x : finite) s d w, delim d →
            Number_toString x +:+ String d w = s →
            match s with String c _ => numChar c = true ∨ delim c | _ => False end).
  { intros x s d w Hd <-. pose proof (Number_toString_numChar x) as Hx.
    destruct (Number_toString x) as [|c p]; simpl in *; [by right|].
    apply andb_true_iff in Hx as [Hx _]. by left. }
  assert (Hnd : ∀ d, delim d → numChar d = false).
  { by intros d [-> | ->]. }
  destruct a as [|s1|x1|[]|], b as [|s2|x2|[]|]; simpl; intros H;
    try (injection H as <- <-; done);
    try (by injection H);
    try (apply Hnum in H; [|done]; destruct H as [H|[H|H]]; by inversion H);
    try (symmetry in H; apply Hnum in H; [|done]; destruct H as [H|[H|H]]; by inversion H).
  - unfold QuoteJSONString in H. simpl in H. injection H as H.
    rewrite !string_app_assoc in H. simpl in H.
    apply quoteChars_inj in H as [-> H]. by injection H as -> ->.
  - apply split_unique with (P := numChar) in H as (H & -> & ->);
      auto using Number_toString_numChar.
    by apply Number_toString_inj in H as ->.
Qed.

Lemma render_inj a b : render a = render b → a = b.
Proof.
  intros H. eapply (render_inj_delim a b "]" "]" "" "").
  - by right.
  - by right.
  - by rewrite H.
Qed.

Lemma concat_render_inj (xs ys : list JSONValue) :
  length xs = length ys →
  String.concat "," (map render xs) +:+ "]" = String.concat "," (map render ys) +:+ "]" →
  xs = ys.
Proof.
  revert ys. induction xs as [|x xs IH]; intros [|y ys] Hlen; try done.
  destruct xs as [|x2 xs], ys as [|y2 ys]; try done.
  - simpl. intros H. apply render_inj_delim in H as (-> & _); [done|by right..].
  - intros H. cbn [map String.concat] in H.
    rewrite !string_app_assoc in H.
    change ("," +:+ ?s) with (String "," s) in H.
    apply render_inj_delim in H as (-> & _ & H); [|by left..].
    f_equal. apply IH; [simpl in *; lia|]. exact H.
Qed.

Lemma JSON_stringify_eq (xs ys : list JsValue) :
  length xs = length ys →
  JSON_stringify xs = JSON_stringify ys ↔ map toJSON xs = map toJSON ys.
Proof.
  intros Hlen. unfold JSON_stringify, serialize. split.
  - intros H. injection H as H.
    rewrite <- !(map_map toJSON render) in H.
    apply concat_render_inj in H; [done|]. by rewrite !length_map.
  - intros H. by rewrite <- !(map_map toJSON render), H.
Qed.

(** ** Attaching rows *)

(** ** Attaching rows *)

Lemma attachRow_eq st row obj :
  objects st !! row = Some obj →
  attachRow row st =
    match keyHeadersSet (options st) with
    | None => (touch row st, Ok tt)
    | Some kh =>
        match recordKey kh (rowRecord obj) with
        | None => (touch row st, Ok tt)
        | Some recHash =>
            match rowByKeyMap st !! recHash with
            | Some existRow =>
                if bool_decide (row ∈ rows st)
                then (set_rowByKeyMap (<[recHash := row]> (rowByKeyMap st)) st, Ok tt)
                else
                  match objects st !! existRow with
                  | Some eobj =>
                      (touch row st,
                       Throw (DuplicateKey (sheetName st) kh (rowLine eobj) (rowLine obj)))
                  | None => (touch row st, Throw TypeError)
                  end
            | None =>
                (set_rowByKeyMap (<[recHash := row]> (rowByKeyMap st)) (touch row st), Ok tt)
            end
        end
    end.
Proof.
  intros Hobj. unfold attachRow, touch, recordKey, getRecordHash. msimpl.
  rewrite Hobj. msimpl.
  destruct (bool_decide (row ∈ rows st)) eqn:Hin; cbn [negb]; msimpl; cbn.
  - destruct (keyHeadersSet (options st)) as [kh|] eqn:Hkh; [|done].
    destruct (forallb _ kh); [done|]. rewrite Hkh.
    destruct (rowByKeyMap st !! _); done.
  - destruct (keyHeadersSet (options st)) as [kh|] eqn:Hkh; [|done].
    destruct (forallb _ kh); [done|]. cbn. rewrite Hkh.
    destruct (rowByKeyMap st !! _) as [e|]; [|done].
    msimpl. cbn.
    destruct (objects st !! e); cbn; [|done]. rewrite Hobj. done.
Qed.

Lemma with_rows_id st : heap_ok st → with_rows st (objects st) (rowByKeyMap st) = st.
Proof. intros [Hr _]. destruct st; unfold with_rows; simpl in *. by rewrite Hr. Qed.

Lemma with_rows_twice st o1 i1 o2 i2 :
  with_rows (with_rows st o1 i1) o2 i2 = with_rows st o2 i2.
Proof. done. Qed.

Lemma heap_ok_with_rows st objs idx :
  (∀ key h, idx !! key = Some h → h < length objs) → heap_ok (with_rows st objs idx).
Proof. intros H. split; simpl; [done|exact H]. Qed.

Lemma fresh_not_in_rows st : heap_ok st → length (objects st) ∉ rows st.
Proof. intros [Hr _]. rewrite Hr, elem_of_seq. lia. Qed.

Lemma new_SheetRow_eq st record line :
  heap_ok st →
  let n := length (objects st) in
  let objs := objects st ++ [mkSheetRow record line] in
  new_SheetRow record line st =
    match keyHeadersSet (options st) with
    | None => (with_rows st objs (rowByKeyMap st), Ok n)
    | Some kh =>
        match recordKey kh record with
        | None => (with_rows st objs (rowByKeyMap st), Ok n)
        | Some key =>
            match rowByKeyMap st !! key with
            | Some e =>
                (with_rows st objs (rowByKeyMap st),
                 Throw (DuplicateKey (sheetName st) kh
                          (default 0 (rowLine <$> objects st !! e)) line))
            | None => (with_rows st objs (<[key := n]> (rowByKeyMap st)), Ok n)
            end
        end
    end.
Proof.
  intros Hok n objs. unfold new_SheetRow. msimpl.
  set (sta := set_objects _ st). fold n.
  assert (Hobj : objects sta !! n = Some (mkSheetRow record line)).
  { subst sta n. simpl. rewrite lookup_app_r by lia. by rewrite Nat.sub_diag. }
  rewrite (attachRow_eq _ _ _ Hobj).
  assert (Hnew : bool_decide (n ∈ rows sta) = false).
  { apply bool_decide_eq_false. subst sta. simpl. by apply fresh_not_in_rows. }
  assert (Ht : touch n sta = with_rows st objs (rowByKeyMap st)).
  { unfold touch. rewrite Hnew. unfold with_rows. subst sta objs n. simpl.
    destruct Hok as [Hr _]. rewrite Hr. rewrite length_app. simpl.
    rewrite Nat.add_1_r, seq_S. done. }
  rewrite Ht. subst sta. simpl.
  destruct (keyHeadersSet (options st)) as [kh|]; [|done].
  destruct (recordKey kh record) as [key|]; [|done].
  destruct (rowByKeyMap st !! key) as [e|] eqn:He; [|done].
  simpl in Hnew. rewrite Hnew.
  pose proof (index_in _ Hok _ _ He) as Hlt.
  rewrite lookup_app_l by done.
  destruct (objects st !! e) eqn:Ee; [done|].
  apply lookup_ge_None in Ee. lia.
Qed.

Lemma length_newObjects records lastRow index :
  length (newObjects records lastRow index) = length records.
Proof. revert index. induction records; intros; simpl; [done|]. by rewrite IHrecords. Qed.

Lemma lookup_newObjects records lastRow index i :
  newObjects records lastRow index !! i
  = (fun r => mkSheetRow r (lastRow + (index + i) + 1)) <$> records !! i.
Proof.
  revert index i. induction records as [|r rs IH]; intros index [|i]; simpl; try done.
  - by rewrite Nat.add_0_r.
  - rewrite IH. by replace (S index + i) with (index + S i) by lia.
Qed.

Lemma absorbed_bound kh idx next records m :
  next + length records ≤ m →
  (∀ key h, idx !! key = Some h → h < m) →
  ∀ key h, absorbed kh idx next records !! key = Some h → h < m.
Proof.
  revert idx next. induction records as [|r rs IH]; intros idx next Hm Hidx; simpl in *; [done|].
  apply IH; [lia|]. destruct (recordKey kh r) as [k|]; [|done].
  intros key h. rewrite lookup_insert. case_decide; [|by apply Hidx].
  intros [= <-]. lia.
Qed.

Lemma createRowsFrom_eq records st lastRow index :
  heap_ok st →
  createRowsFrom records lastRow index st = createRows_outcome st records lastRow index.
Proof.
  revert st index. induction records as [|r rs IH]; intros st index Hok.
  - unfold createRows_outcome. simpl. rewrite app_nil_r, with_rows_id by done.
    by destruct (keyHeadersSet _).
  - simpl. unfold bind at 1. rewrite new_SheetRow_eq by done.
    unfold createRows_outcome. simpl.
    set (n := length (objects st)).
    set (o1 := objects st ++ [mkSheetRow r (lastRow + index + 1)]).
    assert (Ho1 : length o1 = S n) by (subst o1 n; rewrite length_app; simpl; lia).
    assert (Happ : ∀ l, o1 ++ l = objects st ++ mkSheetRow r (lastRow + index + 1) :: l).
    { intros l. subst o1. by rewrite <- app_assoc. }
    assert (Hstep : ∀ idx1,
      (∀ key h, idx1 !! key = Some h → h < S n) →
      bind (createRowsFrom rs lastRow (S index))
           (fun rows => ret (n :: rows)) (with_rows st o1 idx1)
      = match createRows_outcome (with_rows st o1 idx1) rs lastRow (S index) with
        | (s, Ok rows) => (s, Ok (n :: rows))
        | (s, Throw e) => (s, Throw e)
        end).
    { intros idx1 Hb. unfold bind. rewrite IH; [done|].
      apply heap_ok_with_rows. by rewrite Ho1. }
    destruct (keyHeadersSet (options st)) as [kh|] eqn:Hkh.
    + destruct (recordKey kh r) as [key|] eqn:Hkey.
      * destruct (rowByKeyMap st !! key) as [e|] eqn:He.
        { simpl. rewrite lookup_app_l by (eapply index_in; eauto).
          by rewrite Nat.add_0_r. }
        cbn beta iota. unfold ret at 1.
        rewrite Hstep.
        2:{ intros k h. rewrite lookup_insert. case_decide.
            - intros [= <-]. lia.
            - intros H'. apply (index_in _ Hok) in H'. fold n in H'. lia. }
        unfold createRows_outcome. simpl. rewrite Hkh, Ho1, !Happ.
        destruct (firstConflict kh _ (S n) rs) as [[k e]|]; simpl.
        { rewrite Happ, ?Hkey. repeat f_equal; lia. }
        by rewrite ?Hkey.
      * cbn beta iota. unfold ret at 1.
        rewrite Hstep.
        2:{ intros k h H'. apply (index_in _ Hok) in H'. fold n in H'. lia. }
        unfold createRows_outcome. simpl. rewrite Hkh, Ho1, !Happ.
        destruct (firstConflict kh _ (S n) rs) as [[k e]|]; simpl.
        { rewrite Happ, ?Hkey. repeat f_equal; lia. }
        by rewrite ?Hkey.
    + cbn beta iota. unfold ret at 1.
      rewrite Hstep.
      2:{ intros k h H'. apply (index_in _ Hok) in H'. fold n in H'. lia. }
      unfold createRows_outcome. simpl. rewrite Hkh, Ho1, !Happ. done.
Qed.

(** ** Batches of new rows *)

Lemma later_None c : later c = None ↔ c = None.
Proof. destruct c as [[]|]; simpl; split; congruence. Qed.

Lemma firstConflict_None kh records idx next :
  firstConflict kh idx next records = None ↔ batch_fresh kh idx records.
Proof.
  revert idx next. induction records as [|r rs IH]; intros idx next; simpl.
  - split; [|done]. intros _ i r key Hi. by rewrite lookup_nil in Hi.
  - destruct (recordKey kh r) as [k0|] eqn:Hk0.
    + destruct (idx !! k0) as [e|] eqn:He.
      * split; [done|]. intros Hf. destruct (Hf 0 r k0) as [Hn _]; [done..|]. congruence.
      * rewrite later_None, IH. split.
        -- intros Hf [|i] r' key Hi Hkey; simpl in Hi.
           ++ injection Hi as <-. split; [congruence|]. intros j ? Hj. lia.
           ++ destruct (Hf i r' key Hi Hkey) as [Hn Hj].
              rewrite lookup_insert in Hn. case_decide; [done|].
              split; [done|]. intros [|j] r'' Hlt Hr''; simpl in Hr''.
              ** injection Hr'' as <-. congruence.
              ** apply (Hj j); [lia|done].
        -- intros Hf i r' key Hi Hkey.
           destruct (Hf (S i) r' key Hi Hkey) as [Hn Hj].
           assert (k0 ≠ key).
           { intros ->. by apply (Hj 0 r); [lia|..]. }
           split; [by rewrite lookup_insert_ne|].
           intros j r'' Hlt Hr''. apply (Hj (S j)); [lia|done].
    + rewrite later_None, IH. split.
      * intros Hf [|i] r' key Hi Hkey; simpl in Hi.
        -- injection Hi as <-. congruence.
        -- destruct (Hf i r' key Hi Hkey) as [Hn Hj]. split; [done|].
           intros [|j] r'' Hlt Hr''; simpl in Hr''.
           ++ injection Hr'' as <-. congruence.
           ++ apply (Hj j); [lia|done].
      * intros Hf i r' key Hi Hkey.
        destruct (Hf (S i) r' key Hi Hkey) as [Hn Hj]. split; [done|].
        intros j r'' Hlt Hr''. apply (Hj (S j)); [lia|done].
Qed.

Lemma firstConflict_Some kh records idx next k e :
  firstConflict kh idx next records = Some (k, e) →
  ∃ r key, records !! k = Some r ∧ recordKey kh r = Some key ∧
           absorbed kh idx next (take k records) !! key = Some e ∧
           firstConflict kh idx next (take k records) = None.
Proof.
  revert idx next k e. induction records as [|r rs IH]; intros idx next k e; simpl; [done|].
  destruct (recordKey kh r) as [k0|] eqn:Hk0.
  - destruct (idx !! k0) as [e'|] eqn:He.
    + intros [= <- <-]. exists r, k0. by rewrite take_0.
    + destruct (firstConflict kh _ (S next) rs) as [[k' e']|] eqn:Hfc; [|done].
      simpl. intros [= <- <-]. destruct (IH _ _ _ _ Hfc) as (r' & key & ? & ? & ? & Hn).
      exists r', key. simpl. rewrite Hk0, He, Hn. done.
  - destruct (firstConflict kh _ (S next) rs) as [[k' e']|] eqn:Hfc; [|done].
    simpl. intros [= <- <-]. destruct (IH _ _ _ _ Hfc) as (r' & key & ? & ? & ? & Hn).
    exists r', key. simpl. rewrite Hk0, Hn. done.
Qed.

(** The index after a batch without conflict. *)
Lemma absorbed_lookup_old kh records idx next key :
  (∀ r, r ∈ records → recordKey kh r ≠ Some key) →
  absorbed kh idx next records !! key = idx !! key.
Proof.
  revert idx next. induction records as [|r rs IH]; intros idx next Hno; simpl; [done|].
  rewrite IH by (intros r' ?; apply Hno; by right).
  destruct (recordKey kh r) as [k0|] eqn:Hk0; [|done].
  rewrite lookup_insert_ne; [done|]. intros ->. by apply (Hno r); [left|].
Qed.

Lemma absorbed_lookup_new kh records idx next i r key :
  batch_fresh kh idx records →
  records !! i = Some r → recordKey kh r = Some key →
  absorbed kh idx next records !! key = Some (next + i).
Proof.
  revert idx next i. induction records as [|r0 rs IH]; intros idx next i Hf Hi Hkey; [done|].
  simpl. destruct i as [|i]; simpl in Hi.
  - injection Hi as ->. rewrite Hkey, Nat.add_0_r.
    rewrite absorbed_lookup_old; [by rewrite lookup_insert_eq|].
    intros r' Hin Hr'. apply list_elem_of_lookup in Hin as [j Hj].
    destruct (Hf (S j) r' key Hj Hr') as [_ Hno]. apply (Hno 0 r); [lia|done..].
  - replace (next + S i) with (S next + i) by lia. apply IH; [|done..].
    apply (firstConflict_None kh rs _ (S next)).
    apply (firstConflict_None kh (r0 :: rs) idx next) in Hf. simpl in Hf.
    destruct (recordKey kh r0); [|by apply later_None].
    destruct (idx !! s); [done|]. by apply later_None.
Qed.


(** ** Appending to the sheet *)

Lemma length_getValues hs (r : RowRecord) : length (getValues hs r) = length hs.
Proof. unfold getValues. by rewrite length_map. Qed.

Lemma length_encodedRow hs (r : RowRecord) : length (encodedRow hs r) = length hs.
Proof. unfold encodedRow. by rewrite length_map. Qed.

Lemma lastRow_pos st : grid_ok st → 1 ≤ lastRow st.
Proof. intros Hg. pose proof (cachedRows_pos _ Hg). pose proof (cachedRows_le _ Hg). lia. Qed.

Lemma mapM_cons_option {A B} (f : A → option B) x l :
  mapM f (x :: l) = y ← f x; k ← mapM f l; Some (y :: k).
Proof. done. Qed.

(** What [getValues] hands to [setValues] is the encoded row when the
    record is storable, and holds a value that is no cell value when it
    is not. *)
Lemma asCell_getValues hs (r : RowRecord) :
  mapM asCell (getValues hs r)
  = if storable hs r then Some (encodedRow hs r) else None.
Proof.
  unfold getValues, storable, encodedRow, cellOf.
  induction hs as [|h hs IH]; [done|]. cbn [map forallb].
  rewrite mapM_cons_option, IH. clear IH.
  destruct (Js.get r h) as [| |v| |]; cbn; try done;
    by destruct (forallb _ hs).
Qed.

Lemma asCells_getValues hs (records : list RowRecord) :
  asCells (map (getValues hs) records)
  = if forallb (storable hs) records then Some (map (encodedRow hs) records) else None.
Proof.
  unfold asCells. induction records as [|r rs IH]; [done|]. cbn [map forallb].
  rewrite mapM_cons_option, IH, asCell_getValues. clear IH.
  destruct (storable hs r); cbn; [|done]. by destruct (forallb _ rs).
Qed.

Lemma cell_written st records i j :
  cell (written st records) i j
  = match records !! (i - lastRow st) with
    | Some r =>
        if decide (lastRow st ≤ i ∧ j < length (headers st))
        then default (Str "") (encodedRow (headers st) r !! j)
        else cell (cells (sheet st)) i j
    | None => cell (cells (sheet st)) i j
    end.
Proof.
  unfold written, encoded. rewrite cell_writeRows, list_lookup_fmap.
  destruct (records !! (i - lastRow st)) as [r|]; simpl; [|done].
  rewrite length_encodedRow, Nat.sub_0_r.
  repeat case_decide; try done; lia.
Qed.

Lemma cell_written_block st records k r j :
  records !! k = Some r → j < length (headers st) →
  cell (written st records) (lastRow st + k) j
  = default (Str "") (encodedRow (headers st) r !! j).
Proof.
  intros Hk Hj. rewrite cell_written.
  replace (lastRow st + k - lastRow st) with k by lia. rewrite Hk.
  case_decide; [done|lia].
Qed.

Lemma cell_written_outside st records i j :
  i < lastRow st ∨ lastRow st + length records ≤ i ∨ length (headers st) ≤ j →
  cell (written st records) i j = cell (cells (sheet st)) i j.
Proof.
  intros H. rewrite cell_written.
  destruct (records !! (i - lastRow st)) as [r|] eqn:E; [|done].
  apply lookup_lt_Some in E. case_decide; [lia|done].
Qed.

Lemma width_written st records :
  grid_ok st → getLastColumn (written st records) = length (headers st).
Proof.
  intros Hg. apply Nat.le_antisymm.
  - apply getLastColumn_le. intros i j Hj.
    rewrite cell_written_outside by lia.
    apply getLastColumn_blank. by rewrite (width _ Hg).
  - pose proof (headers_pos _ Hg). pose proof (lastRow_pos _ Hg).
    assert (length (headers st) - 1 < getLastColumn (written st records)); [|lia].
    apply (getLastColumn_gt _ 0). rewrite cell_written_outside by lia.
    apply (header_content _ Hg).
Qed.

Lemma getLastRow_written_pos st records :
  grid_ok st → 1 ≤ getLastRow (written st records).
Proof.
  intros Hg. pose proof (lastRow_pos _ Hg).
  assert (0 < getLastRow (written st records)); [|lia].
  apply (getLastRow_gt _ _ (length (headers st) - 1)).
  rewrite cell_written_outside by lia. apply (header_content _ Hg).
Qed.

Lemma getLastRow_written_le st records :
  grid_ok st → getLastRow (written st records) ≤ lastRow st + length records.
Proof.
  intros Hg. apply getLastRow_le. intros i j Hi.
  rewrite cell_written_outside by lia.
  apply getLastRow_blank. pose proof (extent _ Hg). lia.
Qed.

Lemma getLastRow_written_full st records r :
  grid_ok st → last records = Some r →
  existsb hasContent (encodedRow (headers st) r) = true →
  getLastRow (written st records) = lastRow st + length records.
Proof.
  intros Hg Hlast Hc. apply Nat.le_antisymm; [by apply getLastRow_written_le|].
  rewrite last_lookup in Hlast.
  apply existsb_hasContent in Hc as [j Hj].
  assert (j < length (headers st)) as Hlt.
  { destruct (encodedRow (headers st) r !! j) eqn:E; [|done].
    apply lookup_lt_Some in E. by rewrite length_encodedRow in E. }
  assert (Hlen : 0 < length records).
  { destruct records; [done|simpl; lia]. }
  assert (lastRow st + pred (length records) < getLastRow (written st records)); [|lia].
  apply (getLastRow_gt _ _ j). by rewrite (cell_written_block _ _ _ r).
Qed.

Lemma cachedRows_appended st records :
  cachedRows (appended st records) = getLastRow (written st records).
Proof. done. Qed.

Lemma grid_ok_appended st records : grid_ok st → grid_ok (appended st records).
Proof.
  intros Hg. split; simpl.
  - done.
  - rewrite cachedRows_appended. by apply getLastRow_written_pos.
  - by rewrite cachedRows_appended.
  - apply (headers_pos _ Hg).
  - pose proof (lastRow_pos _ Hg). rewrite cell_written_outside by lia.
    apply (header_content _ Hg).
  - by apply width_written.
  - done.
Qed.

Lemma in_step_appended st records : in_step (appended st records).
Proof. done. Qed.

Lemma heap_ok_appended st records : heap_ok st → heap_ok (appended st records).
Proof. intros [H1 H2]. by split. Qed.

Lemma grid_ok_with_rows st objs idx : grid_ok st → grid_ok (with_rows st objs idx).
Proof. intros [H1 H2 H3 H4 H5 H6 H7]. by split. Qed.

(** [addRecords] up to the creation of the rows: the encoded rows are
    written under the row [lastRow], the range is read again, and the
    rows are created from the last row of the range cached before. *)
Lemma addRecords_eq st records :
  grid_ok st → records ≠ [] → forallb (storable (headers st)) records = true →
  addRecords records st
  = createInternalRows records (cachedRows st) (appended st records).
Proof.
  intros Hg Hne Hst. unfold addRecords, getSheetRange. msimpl.
  rewrite (range_cached _ Hg). msimpl.
  destruct records as [|r0 rs]; [done|].
  pose proof (lastRow_pos _ Hg) as Hl. pose proof (headers_pos _ Hg) as Hh.
  cbn [map].
  unfold Range_offset, getRange. cbn [row column numRows numColumns length].
  rewrite length_getValues.
  replace (1 + lastRow st) with (S (lastRow st)) by done.
  assert (Hc : (1 <=? length (headers st)) = true) by (apply Nat.leb_le; lia).
  rewrite Hc. cbn [Nat.leb andb Nat.add]. msimpl.
  change (getValues (headers st) r0 :: map (getValues (headers st)) rs)
    with (map (getValues (headers st)) (r0 :: rs)).
  rewrite asCells_getValues, Hst. msimpl.
  unfold Range_setValues. cbn [row column numRows numColumns length].
  rewrite !length_map, Nat.eqb_refl.
  assert (Hall : forallb (λ r, length r =? length (headers st))
            (map (encodedRow (headers st)) (r0 :: rs)) = true).
  { apply forallb_forall. intros x Hx. apply Nat.eqb_eq.
    apply in_map_iff in Hx as (r & <- & _). apply length_encodedRow. }
  rewrite Hall. cbn [andb]. msimpl.
  replace (S (lastRow st) - 1) with (lastRow st) by lia.
  change (1 - 1) with 0.
  change (writeRows (cells (sheet st)) (lastRow st) 0 _) with (written st (r0 :: rs)).
  unfold readSheetRange. cbn [sheet set_sheet cells sheetName].
  rewrite (width_written _ _ Hg).
  pose proof (getLastRow_written_pos st (r0 :: rs) Hg) as Hp.
  unfold getRange.
  assert (Hr : (1 <=? getLastRow (written st (r0 :: rs))) = true) by (by apply Nat.leb_le).
  rewrite Hr, Hc. cbn [Nat.leb andb]. msimpl.
  unfold Range_getLastRow. cbn [row numRows].
  replace (1 + cachedRows st - 1) with (cachedRows st) by lia.
  replace (1 + getLastRow (written st (r0 :: rs)) - 1)
    with (getLastRow (written st (r0 :: rs))) by lia.
  fold (appended st (r0 :: rs)).
  by destruct (createInternalRows _ _ _) as [? []].
Qed.

(** A record that gives [setValues] a value that is no cell value ends
    the run before anything is written. *)
Lemma addRecords_unstorable st records :
  grid_ok st → records ≠ [] → forallb (storable (headers st)) records = false →
  addRecords records st = (st, Throw Unmodelled).
Proof.
  intros Hg Hne Hst. unfold addRecords, getSheetRange. msimpl.
  rewrite (range_cached _ Hg). msimpl.
  destruct records as [|r0 rs]; [done|].
  pose proof (lastRow_pos _ Hg) as Hl. pose proof (headers_pos _ Hg) as Hh.
  cbn [map].
  unfold Range_offset, getRange. cbn [row column numRows numColumns length].
  rewrite length_getValues.
  replace (1 + lastRow st) with (S (lastRow st)) by done.
  assert (Hc : (1 <=? length (headers st)) = true) by (apply Nat.leb_le; lia).
  rewrite Hc. cbn [Nat.leb andb Nat.add]. msimpl.
  change (getValues (headers st) r0 :: map (getValues (headers st)) rs)
    with (map (getValues (headers st)) (r0 :: rs)).
  by rewrite asCells_getValues, Hst.
Qed.

(** ** The table the constructor builds *)

Lemma readSheetRange_Ok name s rg :
  readSheetRange name s = Ok rg →
  rg = mkRange 1 1 (getLastRow (cells s)) (getLastColumn (cells s))
  ∧ 1 ≤ getLastRow (cells s) ∧ 1 ≤ getLastColumn (cells s).
Proof.
  unfold readSheetRange, getRange. change (1 <=? 1) with true. cbn [andb].
  destruct (1 <=? getLastRow (cells s)) eqn:E1; cbn [andb]; [|done].
  destruct (1 <=? getLastColumn (cells s)) eqn:E2; [|done].
  intros [= <-]. apply Nat.leb_le in E1, E2. by split_and!.
Qed.

Lemma init_Ok app name o st recs :
  init app name o = Ok (st, recs) →
  grid_ok st ∧ objects st = [] ∧ rows st = [] ∧ rowByKeyMap st = ∅
  ∧ options st = o ∧ sheetName st = name.
Proof.
  unfold init. destruct (openSpreadsheet app o) as [ss|]; [|done].
  destruct (ss !! name) as [s|]; [|done].
  destruct (frozenRows s =? 0); [done|]. destruct (1 <? frozenRows s); [done|].
  destruct (readSheetRange name s) as [rg|] eqn:Hrg; [|done].
  apply readSheetRange_Ok in Hrg as (-> & Hr & Hc).
  unfold Range_getLastRow, Range_getLastColumn. cbn [row column numRows numColumns].
  destruct ((_ =? 0) || (_ =? 0)); [done|].
  unfold Range_getValues. cbn [row column numRows numColumns].
  destruct (getLastRow (cells s)) as [|lr] eqn:Elr; [lia|].
  cbn [seq map]. set (hs := map _ (seq 0 (getLastColumn (cells s)))).
  destruct (headerTest name hs) as [e|] eqn:Ht; [done|].
  destruct (lostHeaders o _); [|done].
  intros [= <- <-]. split; [|done].
  assert (Hlen : length (map keyof hs) = getLastColumn (cells s)).
  { subst hs. by rewrite !length_map, length_seq. }
  split; unfold cachedRows; cbn [range lastRow headers sheet cells fmap option_fmap
                                   option_map default numRows]; rewrite ?Hlen.
  - done.
  - unfold id. lia.
  - done.
  - lia.
  - unfold headerTest in Ht.
    destruct (existsb is_empty_text hs) eqn:He; [done|].
    destruct (hasContent _) eqn:Hc'; [done|]. exfalso. apply hasContent_false in Hc'.
    assert (existsb is_empty_text hs = true); [|congruence].
    apply existsb_exists. exists (Str ""). split; [|done]. rewrite <- Hc'.
    subst hs. apply in_map_iff. exists (getLastColumn (cells s) - 1).
    split; [done|]. apply in_seq. lia.
  - done.
  - lia.
Qed.

Lemma createRows_exact st records lr index st' hs :
  heap_ok st → index_exact st →
  createRows_outcome st records lr index = (st', Ok hs) → index_exact st'.
Proof.
  intros Hok Hex. unfold createRows_outcome.
  destruct (keyHeadersSet (options st)) as [kh|] eqn:Hkh.
  2:{ intros [= <- _] kh' h obj key Hkh'. simpl in Hkh'. congruence. }
  destruct (firstConflict kh _ _ records) as [[k e]|] eqn:Hfc; [done|].
  apply firstConflict_None in Hfc.
  intros [= <- _] kh' h obj key Hkh' Hobj Hkey. simpl in *.
  assert (kh' = kh) as -> by congruence.
  destruct (decide (h < length (objects st))) as [Hlt|Hge].
  - rewrite lookup_app_l in Hobj by done.
    pose proof (Hex _ _ _ _ Hkh Hobj Hkey) as Hidx.
    rewrite absorbed_lookup_old; [done|].
    intros r Hr Hkr. apply list_elem_of_lookup in Hr as [i Hi].
    destruct (Hfc i r key Hi Hkr) as [Hn _]. congruence.
  - rewrite lookup_app_r, lookup_newObjects in Hobj by lia.
    destruct (records !! (h - length (objects st))) as [r|] eqn:Hr; [|done].
    injection Hobj as <-. simpl in Hkey.
    rewrite (absorbed_lookup_new _ _ _ _ _ _ _ Hfc Hr Hkey). f_equal. lia.
Qed.

Lemma createRows_heap_ok st records lr index :
  heap_ok st → heap_ok (createRows_outcome st records lr index).1.
Proof.
  intros Hok. unfold createRows_outcome.
  destruct (keyHeadersSet (options st)) as [kh|].
  - destruct (firstConflict kh _ _ records) as [[k e]|] eqn:Hfc; simpl.
    + apply heap_ok_with_rows.
      rewrite length_app, length_newObjects.
      apply absorbed_bound.
      * rewrite !length_take. apply firstConflict_Some in Hfc as (r & _ & Hr & _).
        apply lookup_lt_Some in Hr. lia.
      * intros key h Hh. apply (index_in _ Hok) in Hh. lia.
    + apply heap_ok_with_rows. rewrite length_app, length_newObjects.
      apply absorbed_bound; [lia|].
      intros key h Hh. apply (index_in _ Hok) in Hh. lia.
  - simpl. apply heap_ok_with_rows. rewrite length_app.
    intros key h Hh. apply (index_in _ Hok) in Hh. lia.
Qed.

Lemma createRows_grid_ok st records lr index :
  grid_ok st → grid_ok (createRows_outcome st records lr index).1.
Proof.
  intros Hg. unfold createRows_outcome.
  destruct (keyHeadersSet (options st)) as [kh|]; [|by apply grid_ok_with_rows].
  destruct (firstConflict kh _ _ records) as [[k e]|]; by apply grid_ok_with_rows.
Qed.

Lemma new_Ok app name o objs st :
  new app name o = (objs, Ok st) →
  heap_ok st ∧ grid_ok st ∧ index_exact st ∧ objs = objects st.
Proof.
  unfold new. destruct (init app name o) as [[st0 recs]|] eqn:Hinit; [|done].
  apply init_Ok in Hinit as (Hg & Ho & Hr & Hi & _).
  assert (Hok : heap_ok st0).
  { split; [by rewrite Hr, Ho|]. intros key h. by rewrite Hi, lookup_empty. }
  assert (Hex : index_exact st0).
  { intros kh h obj key _ Hobj. by rewrite Ho in Hobj. }
  unfold createInternalRows. rewrite createRowsFrom_eq by done.
  pose proof (createRows_heap_ok st0 recs 1 0 Hok) as H1.
  pose proof (createRows_grid_ok st0 recs 1 0 Hg) as H2.
  destruct (createRows_outcome st0 recs 1 0) as [st' [hs|e]] eqn:Hout; [|done].
  intros [= <- <-]. simpl in H1, H2. split_and!; try done.
  exact (createRows_exact _ _ _ _ _ _ Hok Hex Hout).
Qed.

(** ** The record codec *)

Lemma Map_get_set {V} (h k : string) (v : V) m :
  Map_get h (Map_set k v m) = if decide (h = k) then Some v else Map_get h m.
Proof.
  induction m as [|[k' v'] m IH]; simpl.
  - repeat case_bool_decide; case_decide; congruence.
  - destruct (bool_decide (k = k')) eqn:E; simpl.
    + apply bool_decide_eq_true in E as <-.
      case_bool_decide; case_decide; congruence.
    + apply bool_decide_eq_false in E. rewrite IH.
      case_bool_decide; case_decide; congruence.
Qed.

Lemma Map_keys_get {V} (h : string) (m : list (string * V)) :
  h ∈ Map_keys m ↔ is_Some (Map_get h m).
Proof.
  unfold Map_keys. induction m as [|[k v] m IH]; simpl.
  - split; [by intros ?%elem_of_nil|by intros [? ?]].
  - rewrite elem_of_cons, IH. case_bool_decide; naive_solver.
Qed.

Lemma buildHeaderColumn_get headers h :
  match Map_get h (buildHeaderColumn headers) with
  | Some c => 1 ≤ c ∧ headers !! (c - 1) = Some h
  | None => h ∉ headers
  end.
Proof.
  unfold buildHeaderColumn.
  set (l := imap (fun index h => (index, h)) headers).
  assert (Hl : ∀ i h', (i, h') ∈ l ↔ headers !! i = Some h').
  { intros i h'. subst l. rewrite list_elem_of_lookup. split.
    - intros [j Hj]. rewrite list_lookup_imap in Hj.
      destruct (headers !! j) eqn:E; simpl in Hj; [|done]. by injection Hj as <- <-.
    - intros Hi. exists i. by rewrite list_lookup_imap, Hi. }
  assert (Hgen : ∀ l (m : list (string * nat)),
    (∀ i h', (i, h') ∈ l → headers !! i = Some h') →
    match Map_get h (fold_left (fun res ih => Map_set ih.2 (ih.1 + 1) res) l m) with
    | Some c => (1 ≤ c ∧ headers !! (c - 1) = Some h) ∨ Map_get h m = Some c
    | None => Map_get h m = None ∧ ∀ i, (i, h) ∉ l
    end).
  { clear. intros l. induction l as [|[i h'] l IH]; intros m Hl; simpl.
    - destruct (Map_get h m); [by right|]. split; [done|]. intros i. apply not_elem_of_nil.
    - specialize (IH (Map_set h' (i + 1) m)
                     (fun i0 h0 H => Hl i0 h0 (list_elem_of_further _ _ _ H))).
      destruct (Map_get h (fold_left _ l _)) as [c|].
      + destruct IH as [IH|IH]; [by left|]. rewrite Map_get_set in IH.
        case_decide as E; [|by right]. subst h'. injection IH as <-. left.
        split; [lia|]. replace (i + 1 - 1) with i by lia. apply Hl. by left.
      + destruct IH as [IH Hno]. rewrite Map_get_set in IH.
        case_decide as E; [done|]. split; [done|]. intros j [[=]|?]%elem_of_cons; [congruence|].
        by apply (Hno j). }
  specialize (Hgen l [] (fun i h' H => proj1 (Hl i h') H)).
  destruct (Map_get h (fold_left _ l [])) as [c|].
  - by destruct Hgen as [?|?].
  - destruct Hgen as [_ Hno]. intros [i Hi]%list_elem_of_lookup.
    apply (Hno i). by apply Hl.
Qed.

Lemma Map_keys_set {V} (k : string) (v : V) m :
  Map_keys (Map_set k v m)
  = if bool_decide (k ∈ Map_keys m) then Map_keys m else Map_keys m ++ [k].
Proof.
  unfold Map_keys. induction m as [|[k' v'] m IH]; cbn [Map_set map fst].
  - rewrite bool_decide_false; [done|]. apply not_elem_of_nil.
  - destruct (bool_decide (k = k')) eqn:E; cbn [map fst].
    + apply bool_decide_eq_true in E as <-. rewrite bool_decide_true; [done|]. by left.
    + apply bool_decide_eq_false in E. rewrite IH.
      destruct (bool_decide (k ∈ map fst m)) eqn:E2.
      * apply bool_decide_eq_true in E2. rewrite bool_decide_true; [done|]. by right.
      * apply bool_decide_eq_false in E2.
        rewrite bool_decide_false; [done|]. intros [?|?]%elem_of_cons; done.
Qed.

Lemma Map_keys_NoDup_set {V} (k : string) (v : V) m :
  NoDup (Map_keys m) → NoDup (Map_keys (Map_set k v m)).
Proof.
  intros H. rewrite Map_keys_set. case_bool_decide; [done|].
  apply NoDup_app. split_and!; [done| |apply NoDup_singleton].
  intros x Hx ->%list_elem_of_singleton. done.
Qed.

Lemma buildHeaderColumn_NoDup headers : NoDup (Map_keys (buildHeaderColumn headers)).
Proof.
  unfold buildHeaderColumn.
  assert (Hgen : ∀ (l : list (nat * string)) (m : list (string * nat)),
    NoDup (Map_keys m) →
    NoDup (Map_keys (fold_left (fun res ih => Map_set ih.2 (ih.1 + 1) res) l m))).
  { intros l. induction l as [|x l IH]; intros m Hm; simpl; [done|].
    by apply IH, Map_keys_NoDup_set. }
  apply Hgen. apply NoDup_nil_2.
Qed.

(** The record the loop of the constructor makes of a row: its own
    fields are the headers but [__proto__], and its prototype is what
    the setter of [__proto__] makes of the cell under that header. *)
Lemma loadRecord_fold (vals : string → RowRecordValue) keys (r0 : RowRecord) :
  NoDup keys → (∀ k, k ∈ keys → own r0 !! k = None) →
  ("__proto__" ∈ keys → proto r0 = ObjectPrototype) →
  let r := fold_left (fun rowRecord key => Js.set rowRecord key (vals key)) keys r0 in
  (∀ h, own r !! h
        = if decide (h ∈ keys ∧ h ≠ "__proto__") then Some (vals h) else own r0 !! h)
  ∧ proto r = if decide ("__proto__" ∈ keys) then protoAfter (vals "__proto__")
              else proto r0.
Proof.
  revert r0. induction keys as [|k keys IH]; intros r0 Hnd Hown Hproto; cbn zeta.
  - split.
    + intros h. rewrite decide_False; [done|]. intros [[]%elem_of_nil _].
    + rewrite decide_False; [done|]. apply not_elem_of_nil.
  - apply NoDup_cons in Hnd as [Hk Hnd]. cbn [fold_left].
    assert (Hk0 : own r0 !! k = None) by (apply Hown; by left).
    destruct (decide (k = "__proto__")) as [->|Hne].
    + assert (Hp : proto r0 = ObjectPrototype) by (apply Hproto; by left).
      assert (Hset : Js.set r0 "__proto__" (vals "__proto__")
                = mkRecord (own r0) (protoAfter (vals "__proto__"))).
      { unfold Js.set. rewrite Hk0, Hp. cbn.
        destruct (vals "__proto__") as [|[]]; try done; by destruct r0; simpl in *; subst. }
      rewrite Hset.
      destruct (IH (mkRecord (own r0) (protoAfter (vals "__proto__"))) Hnd) as [IH1 IH2].
      { intros k' Hk'. apply Hown. by right. }
      { done. }
      split.
      * intros h. rewrite IH1. cbn [own].
        repeat case_decide; try done; set_solver.
      * rewrite IH2. cbn [proto]. rewrite decide_False by done.
        rewrite decide_True; [done|by left].
    + assert (Hset : Js.set r0 k (vals k) = mkRecord (<[k := vals k]> (own r0)) (proto r0)).
      { unfold Js.set. rewrite Hk0, bool_decide_false by done. by destruct (proto r0). }
      rewrite Hset.
      destruct (IH (mkRecord (<[k := vals k]> (own r0)) (proto r0)) Hnd) as [IH1 IH2].
      { intros k' Hk'. cbn. rewrite lookup_insert_ne; [apply Hown; by right|].
        by intros ->. }
      { intros Hin. cbn. apply Hproto. by right. }
      split.
      * intros h. rewrite IH1. cbn [own].
        destruct (decide (h = k)) as [->|Hhk].
        -- rewrite decide_False by (intros [? _]; done).
           rewrite lookup_insert_eq, decide_True; [done|]. split; [by left|done].
        -- rewrite lookup_insert_ne by done.
           repeat case_decide; try done; set_solver.
      * rewrite IH2. cbn [proto]. repeat case_decide; try done; set_solver.
Qed.

Lemma loadRecord_own hc row h :
  NoDup (Map_keys hc) →
  own (loadRecord hc row) !! h
  = if bool_decide (h = "__proto__") then None
    else match Map_get h hc with
         | Some c => Some (decodeCell (row !! (c - 1)))
         | None => None
         end.
Proof.
  intros Hnd. unfold loadRecord.
  destruct (loadRecord_fold
              (fun key => decodeCell (Map_get key hc ≫= fun c => row !! (c - 1)))
              (Map_keys hc) (literal ∅) Hnd) as [H _]; [done..|].
  rewrite H. cbn. rewrite lookup_empty.
  case_bool_decide as E.
  - rewrite decide_False; [done|]. by intros [_ ?].
  - destruct (Map_get h hc) as [c|] eqn:Hc.
    + rewrite decide_True; [done|]. split; [|done]. apply Map_keys_get. eauto.
    + rewrite decide_False; [done|]. intros [[c Hc']%Map_keys_get _]. congruence.
Qed.

Lemma loadRecord_proto hc row :
  NoDup (Map_keys hc) →
  proto (loadRecord hc row)
  = match Map_get "__proto__" hc with
    | Some c => protoAfter (decodeCell (row !! (c - 1)))
    | None => ObjectPrototype
    end.
Proof.
  intros Hnd. unfold loadRecord.
  destruct (loadRecord_fold
              (fun key => decodeCell (Map_get key hc ≫= fun c => row !! (c - 1)))
              (Map_keys hc) (literal ∅) Hnd) as [_ H]; [done..|].
  rewrite H. cbn.
  destruct (Map_get "__proto__" hc) as [c|] eqn:Hc.
  - rewrite decide_True; [done|]. apply Map_keys_get. eauto.
  - rewrite decide_False; [done|]. intros [c Hc']%Map_keys_get. congruence.
Qed.

Lemma getValues_lookup headers (record : RowRecord) i h :
  headers !! i = Some h →
  getValues headers record !! i
  = Some (if eq_null (Js.get record h) then JsCell (Str "") else Js.get record h).
Proof. intros Hi. unfold getValues. by rewrite list_lookup_fmap, Hi. Qed.

Lemma encodedRow_lookup headers (record : RowRecord) i h :
  headers !! i = Some h → encodedRow headers record !! i = Some (cellOf record h).
Proof. intros Hi. unfold encodedRow. by rewrite list_lookup_fmap, Hi. Qed.

(** ** The small sheet *)

Lemma Demo_store_new :
  SheetTable.new Demo.app "Sheet1" Demo.keyed = (objects Demo.store, Ok Demo.store).
Proof. vm_compute. reflexivity. Qed.


Lemma Demo_store_ok :
  heap_ok Demo.store ∧ grid_ok Demo.store ∧ index_exact Demo.store.
Proof.
  destruct (new_Ok _ _ _ _ _ Demo_store_new) as (H1 & H2 & H3 & _). done.
Qed.

(** ** An empty batch *)

Lemma addRecords_nil (st : SheetTable.t) (rg : Range) :
  range st = Some rg → addRecords [] st = (st, Throw TypeError).
Proof. intros Hrg. unfold addRecords, getSheetRange. msimpl. by rewrite Hrg. Qed.

(** C10: [addRecords] (and [addRows] in the first variant) on an empty
    list of records reads the first element of the empty list of
    encoded rows before anything is written: the call ends in a
    [TypeError], not in an empty batch nor in an error of the store,
    and the grid and the state in memory are as they were. *)
Theorem empty_batch_TypeError (st : SheetTable.t) (rg : Range) (so : SheetObject.t) :
  range st = Some rg →
  addRecords [] st = (st, Throw TypeError)
  ∧ SheetObject.addRows [] so = (so, Throw TypeError).
Proof.
  intros Hrg. split.
  - by apply (addRecords_nil st rg).
  - done.
Qed.

Lemma empty_batch_TypeError_witness :
  range Demo.store = Some (mkRange 1 1 3 2)
  ∧ addRecords [] Demo.store = (Demo.store, Throw TypeError)
  ∧ SheetObject.addRows [] Demo.object = (Demo.object, Throw TypeError).
Proof.
  split; [reflexivity|].
  exact (empty_batch_TypeError Demo.store (mkRange 1 1 3 2) Demo.object eq_refl).
Defined.

(** ** The mandatory headers *)

Lemma elem_of_uniq (l : list string) h : h ∈ uniq l ↔ h ∈ l.
Proof.
  unfold uniq.
  assert (Hgen : ∀ xs seen,
    h ∈ fold_left
          (fun seen x => if bool_decide (x ∈ seen) then seen else seen ++ [x]) xs seen
    ↔ h ∈ seen ∨ h ∈ xs).
  { intros xs. induction xs as [|x xs IH]; intros seen; simpl.
    - rewrite elem_of_nil. naive_solver.
    - rewrite IH, elem_of_cons. case_bool_decide as E.
      + naive_solver.
      + rewrite elem_of_app, list_elem_of_singleton. naive_solver. }
  rewrite Hgen, elem_of_nil. naive_solver.
Qed.

Lemma lostHeaders_spec o hc h :
  h ∈ lostHeaders o hc
  ↔ (h ∈ default [] (keyHeaders o) ∨ h ∈ default [] (mandatoryHeaders o))
    ∧ Map_get h hc = None.
Proof.
  unfold lostHeaders.
  destruct (mandatoryHeaders o) as [[|m ms]|], (keyHeaders o) as [[|k ks]|];
    cbn [default];
    rewrite ?list_elem_of_filter, ?elem_of_uniq, ?elem_of_app, ?elem_of_nil; tauto.
Qed.

Lemma buildHeaderColumn_None headers h :
  Map_get h (buildHeaderColumn headers) = None ↔ h ∉ headers.
Proof.
  pose proof (buildHeaderColumn_get headers h) as H.
  destruct (Map_get h (buildHeaderColumn headers)) as [c|]; [|done].
  destruct H as [_ H]. apply list_elem_of_lookup_2 in H. naive_solver.
Qed.

(** C8, for [SheetTable]: once the sheet is found, its header row is
    frozen and passes the header test, the constructor checks the key
    headers and the mandatory headers of the options against the
    headers of the sheet.  The lost headers are the declared ones the
    sheet does not have; if there is one, construction fails with the
    error that names them and creates no row; if there is none, the
    constructor goes on to load the rows. *)
Theorem mandatory_headers_checked app name o ss sheet rg hs rest :
  openSpreadsheet app o = Ok ss → ss !! name = Some sheet → frozenRows sheet = 1 →
  readSheetRange name sheet = Ok rg →
  Range_getValues (cells sheet) rg = hs :: rest →
  headerTest name hs = None →
  let declared h :=
    h ∈ default [] (keyHeaders o) ∨ h ∈ default [] (mandatoryHeaders o) in
  let lost := lostHeaders o (buildHeaderColumn (map keyof hs)) in
  (∀ h, h ∈ lost ↔ declared h ∧ h ∉ map keyof hs)
  ∧ ((∃ h, declared h ∧ h ∉ map keyof hs) →
       SheetTable.new app name o = ([], Throw (MissingHeaders name lost)))
  ∧ ((∀ h, declared h → h ∈ map keyof hs) →
       ∃ st recs, init app name o = Ok (st, recs)).
Proof.
  intros Hss Hsheet Hfrozen Hrg Hvals Htest declared lost.
  assert (Hlost : ∀ h, h ∈ lost ↔ declared h ∧ h ∉ map keyof hs).
  { intros h. subst lost declared. cbn beta.
    by rewrite lostHeaders_spec, buildHeaderColumn_None. }
  assert (Hinit : init app name o
    = match lost with
      | _ :: _ => Throw (MissingHeaders name lost)
      | [] =>
          Ok (mkTable name o sheet (Range_getLastRow rg) (Some rg)
                (buildHeaderColumn (map keyof hs)) (map keyof hs) ∅ [] [],
              map (loadRecord (buildHeaderColumn (map keyof hs))) rest)
      end).
  { unfold init. rewrite Hss, Hsheet, Hfrozen, Hrg. cbn [Nat.eqb Nat.ltb Nat.leb].
    apply readSheetRange_Ok in Hrg as (-> & Hr & Hc).
    unfold Range_getLastRow, Range_getLastColumn. cbn [row column numRows numColumns].
    destruct (getLastRow (cells sheet)) as [|lr]; [lia|].
    destruct (getLastColumn (cells sheet)) as [|lc]; [lia|].
    cbn [Nat.add Nat.sub Nat.eqb orb].
    rewrite Hvals, Htest. fold lost. by destruct lost. }
  clearbody lost. split_and!.
  - exact Hlost.
  - intros (h & Hd & Hh). unfold SheetTable.new. rewrite Hinit.
    assert (h ∈ lost) as Hin by (apply Hlost; split; assumption).
    destruct lost as [|l0 ls]; [|done]. by apply elem_of_nil in Hin.
  - intros Hall. rewrite Hinit. destruct lost as [|l0 ls]; [eauto|].
    assert (l0 ∈ l0 :: ls) as [Hd Hh]%Hlost by (by left).
    destruct Hh. by apply Hall.
Qed.

Lemma mandatory_headers_checked_witness :
  let o := mkOptions None (Some ["email"]) (Some ["id"]) in
  openSpreadsheet Demo.app o = Ok (active Demo.app)
  ∧ active Demo.app !! "Sheet1" = Some (mkSheet 1 Demo.grid)
  ∧ readSheetRange "Sheet1" (mkSheet 1 Demo.grid) = Ok (mkRange 1 1 3 2)
  ∧ headerTest "Sheet1" [Str "id"; Str "name"] = None
  ∧ SheetTable.new Demo.app "Sheet1" o
    = ([], Throw (MissingHeaders "Sheet1"
                    (lostHeaders o (buildHeaderColumn ["id"; "name"])))).
Proof.
  intros o.
  assert (H1 : openSpreadsheet Demo.app o = Ok (active Demo.app)) by reflexivity.
  assert (H2 : active Demo.app !! "Sheet1" = Some (mkSheet 1 Demo.grid))
    by (vm_compute; reflexivity).
  assert (H3 : readSheetRange "Sheet1" (mkSheet 1 Demo.grid) = Ok (mkRange 1 1 3 2))
    by (vm_compute; reflexivity).
  assert (H4 : headerTest "Sheet1" [Str "id"; Str "name"] = None)
    by (vm_compute; reflexivity).
  split; [exact H1|]. split; [exact H2|]. split; [exact H3|]. split; [exact H4|].
  refine (proj1 (proj2 (mandatory_headers_checked Demo.app "Sheet1" o _ _ _
                          [Str "id"; Str "name"] _ H1 H2 eq_refl H3 eq_refl H4)) _).
  exists "email". split; [right; by left|].
  cbn [map keyof]. rewrite !elem_of_cons, elem_of_nil. intros [?|[?|[]]]; discriminate.
Defined.

(** [SheetObject] takes no mandatory headers and does not look its key
    headers up in the header row: with the key header [zz] on a sheet
    that has no such column it is constructed, and files its one row
    under the key of a [null]. *)
Lemma SheetObject_key_header_unchecked :
  match SheetObject.new (Demo.sheets Demo.oneRow) "Sheet1"
          (SheetObject.mkParams (Some ["zz"]) None) with
  | Ok so =>
      SheetObject.keyHeaders so = Some ["zz"]
      ∧ SheetObject.header so = [Str "id"; Str "name"]
      ∧ SheetObject.LineSymbol <$> SheetObject.rowsByKeysMap so !! "[null]" = Some 2
  | Throw _ => False
  end.
Proof. vm_compute. done. Qed.


(** ** Setting a field through a handle *)

Lemma cell_Range_setValue g (target : Range) v i j :
  cell (Range_setValue g target v) i j
  = if decide (row target - 1 = i ∧ column target - 1 = j) then v else cell g i j.
Proof. unfold Range_setValue. apply cell_setCell. Qed.

(** [setValue] on an attached handle, run to its end. *)
Lemma setValue_run (st : SheetTable.t) row obj rg header c target
    (value : RowRecordValue) :
  objects st !! row = Some obj → row ∈ rows st → range st = Some rg →
  Map_get header (headerColumn st) = Some c →
  Range_getCell rg (rowLine obj) c = Some target →
  let record' := spread_with (rowRecord obj) header value in
  let g' := Range_setValue (cells (sheet st)) target (encodeValue value) in
  let st1 :=
    set_objects (<[row := mkSheetRow record' (rowLine obj)]> (objects st))
      (set_sheet g' st) in
  setValue row header value st
  = (match keyHeadersSet (options st) with
     | Some kh =>
         match recordKey kh record' with
         | Some key => set_rowByKeyMap (<[key := row]> (rowByKeyMap st)) st1
         | None => st1
         end
     | None => st1
     end, Ok row).
Proof.
  intros Hobj Hin Hrg Hc Htarget record' g' st1.
  unfold setValue, getCell, getSheetRange, getHeaderColumn. msimpl.
  rewrite Hrg. msimpl. rewrite Hobj. msimpl. rewrite Hc. msimpl.
  rewrite Htarget. msimpl.
  set (st1' := set_objects _ _).
  assert (Hst1 : st1' = st1).
  { subst st1' st1. unfold set_objects, set_sheet. cbn. f_equal.
    apply list_eq. intros i.
    destruct (decide (row = i)) as [<-|Hne].
    - rewrite list_lookup_alter_eq.
      rewrite list_lookup_insert_eq by (by eapply lookup_lt_Some). by rewrite Hobj.
    - rewrite list_lookup_alter_ne by done. by rewrite list_lookup_insert_ne. }
  rewrite Hst1.
  assert (Hobj1 : objects st1 !! row = Some (mkSheetRow record' (rowLine obj))).
  { subst st1. cbn. apply list_lookup_insert_eq. by eapply lookup_lt_Some. }
  rewrite (attachRow_eq _ _ _ Hobj1).
  assert (Htouch : touch row st1 = st1).
  { unfold touch. by rewrite bool_decide_true. }
  change (rows st1) with (rows st). change (options st1) with (options st).
  change (rowByKeyMap st1) with (rowByKeyMap st).
  rewrite Htouch, bool_decide_true by done.
  destruct (keyHeadersSet (options st)) as [kh|]; [|done].
  cbn [rowRecord].
  destruct (recordKey kh record') as [key|]; [|done].
  by destruct (rowByKeyMap st !! key).
Qed.

(** C3, as the code has it.  For a handle of a [SheetTable] that is
    attached, a header of the table and a line inside the range:
    [setValue] writes the value to the cell of the line and of the
    column of the header ([null] as the empty text) and to no other
    cell, puts the record with the field updated in place of the record
    of the handle, and attaches the handle again.  Since the handle is
    not new, this never fails: the key of the updated record, if it has
    one, is mapped to the handle, whatever handle held it, and the
    other keys of the index stay, the former key of the handle among
    them. *)
Theorem setValue_writes_then_reabsorbs (st : SheetTable.t) row obj rg header c target
    (value : RowRecordValue) :
  objects st !! row = Some obj → row ∈ rows st → range st = Some rg →
  Map_get header (headerColumn st) = Some c →
  Range_getCell rg (rowLine obj) c = Some target →
  let record' := spread_with (rowRecord obj) header value in
  let g' := Range_setValue (cells (sheet st)) target (encodeValue value) in
  let st1 :=
    set_objects (<[row := mkSheetRow record' (rowLine obj)]> (objects st))
      (set_sheet g' st) in
  setValue row header value st
  = (match keyHeadersSet (options st) with
     | Some kh =>
         match recordKey kh record' with
         | Some key => set_rowByKeyMap (<[key := row]> (rowByKeyMap st)) st1
         | None => st1
         end
     | None => st1
     end, Ok row)
  ∧ cell g' (Gas.row target - 1) (column target - 1) = encodeValue value
  ∧ (∀ i j, ¬ (Gas.row target - 1 = i ∧ column target - 1 = j) →
       cell g' i j = cell (cells (sheet st)) i j)
  ∧ encodeValue Null = Str "".
Proof.
  intros Hobj Hin Hrg Hc Htarget record' g' st1. split_and!.
  - by apply (setValue_run st row obj rg header c target value).
  - subst g'. rewrite cell_Range_setValue. by rewrite decide_True.
  - intros i j Hne. subst g'. rewrite cell_Range_setValue. by rewrite decide_False.
  - done.
Qed.

Lemma setValue_writes_then_reabsorbs_witness :
  objects Demo.store !! 1
  = Some (mkSheetRow (Demo.record (Cell (Demo.num N2)) (Cell (Str "b"))) 3)
  ∧ 1 ∈ rows Demo.store
  ∧ range Demo.store = Some (mkRange 1 1 3 2)
  ∧ Map_get "name" (headerColumn Demo.store) = Some 2
  ∧ Range_getCell (mkRange 1 1 3 2) 3 2 = Some (mkRange 3 2 1 1)
  ∧ (setValue 1 "name" Null Demo.store).2 = Ok 1
  ∧ cell (cells (sheet (setValue 1 "name" Null Demo.store).1)) 2 1 = Str "".
Proof.
  assert (Hin : 1 ∈ rows Demo.store) by (apply list_elem_of_In; simpl; tauto).
  pose proof (setValue_writes_then_reabsorbs Demo.store 1 _ _ "name" 2 _ Null
                eq_refl Hin eq_refl eq_refl eq_refl) as (Hrun & _).
  split; [reflexivity|]. split; [exact Hin|]. split; [reflexivity|].
  split; [reflexivity|]. split; [reflexivity|].
  rewrite Hrun. split; [reflexivity|]. vm_compute. reflexivity.
Defined.

(** Setting the id of the row of line 3 to the id of the row of line 2
    is not refused: both rows then hold the id 1, the key [[1]] finds
    the row of line 3 and so does its former key [[2]].  In
    [SheetObject] the cell is written, and the rows and the index in
    memory stay as they were. *)
Lemma update_collision_not_detected :
  (let out := setValue 1 "id" (Cell (Demo.num N1)) Demo.store in
   out.2 = Ok 1
   ∧ cell (cells (sheet out.1)) 2 0 = Demo.num N1
   ∧ (getValue 0 "id" out.1).2 = Ok (JsCell (Demo.num N1))
   ∧ (getValue 1 "id" out.1).2 = Ok (JsCell (Demo.num N1))
   ∧ (getRowByKey (inl (Cell (Demo.num N1))) out.1).2 = Ok (Some 1)
   ∧ (getRowByKey (inl (Cell (Demo.num N2))) out.1).2 = Ok (Some 1))
  ∧ (let out := SheetObject.RowObject_setValue Demo.rowObj2 "id" (Cell (Demo.num N1))
                  Demo.object in
     out.2 = Ok Demo.rowObj2
     ∧ cell (cells (SheetObject.sheet out.1)) 2 0 = Demo.num N1
     ∧ SheetObject.rows out.1 = SheetObject.rows Demo.object
     ∧ SheetObject.rowsByKeysMap out.1 = SheetObject.rowsByKeysMap Demo.object).
Proof. vm_compute. split_and!; done. Qed.

(** ** Appending records *)

Lemma addRecords_outcome st records :
  heap_ok st → grid_ok st → records ≠ [] →
  forallb (storable (headers st)) records = true →
  addRecords records st
  = createRows_outcome (appended st records) records (cachedRows st) 0.
Proof.
  intros Hok Hg Hne Hst. rewrite addRecords_eq by done.
  unfold createInternalRows. apply createRowsFrom_eq. by apply heap_ok_appended.
Qed.

(** [addRecords] ends in one of four ways. *)
Lemma addRecords_total st records :
  heap_ok st → grid_ok st →
  ∃ st', (records = [] ∧ addRecords records st = (st', Throw TypeError))
       ∨ (forallb (storable (headers st)) records = false
          ∧ st' = st ∧ addRecords records st = (st', Throw Unmodelled))
       ∨ addRecords records st
         = (st', Ok (seq (length (objects st)) (length records)))
       ∨ ∃ name kh le ln,
           addRecords records st = (st', Throw (DuplicateKey name kh le ln)).
Proof.
  intros Hok Hg. destruct records as [|r rs].
  - exists st. left. split; [done|].
    apply (addRecords_nil st _ (range_cached _ Hg)).
  - destruct (forallb (storable (headers st)) (r :: rs)) eqn:Hst.
    + rewrite addRecords_outcome by done. unfold createRows_outcome.
      destruct (keyHeadersSet _); [|eauto 10].
      destruct (firstConflict _ _ _ _) as [[k e]|]; eauto 10.
    + exists st. right. left. split; [done|]. split; [done|].
      by apply addRecords_unstorable.
Qed.

(** ** The tables a caller can hold *)

Lemma Range_getCell_Some nr nc r c target :
  Range_getCell (mkRange 1 1 nr nc) r c = Some target ↔
  1 ≤ r ≤ nr ∧ 1 ≤ c ≤ nc ∧ target = mkRange r c 1 1.
Proof.
  unfold Range_getCell. cbn [row column numRows numColumns].
  destruct (1 <=? r) eqn:E1, (r <=? nr) eqn:E2, (1 <=? c) eqn:E3, (c <=? nc) eqn:E4;
    cbn [andb];
    repeat match goal with
    | H : (_ <=? _) = true |- _ => apply Nat.leb_le in H
    | H : (_ <=? _) = false |- _ => apply Nat.leb_gt in H
    end; split; try (intros [= <-]); try (intros (? & ? & ->)); try lia.
  - split_and!; try lia. f_equal; lia.
  - f_equal. f_equal; lia.
Qed.

(** [setValue] fails before it writes, or runs to its end. *)
Lemma setValue_split st row header value :
  heap_ok st → grid_ok st →
  match objects st !! row with
  | None => setValue row header value st = (st, Throw TypeError)
  | Some obj =>
      match Map_get header (headerColumn st) with
      | None => setValue row header value st = (st, Throw (HeaderNotFound header))
      | Some c =>
          match Range_getCell (mkRange 1 1 (cachedRows st) (length (headers st)))
                  (rowLine obj) c with
          | None => setValue row header value st = (st, Throw GasException)
          | Some target =>
              setValue row header value st
              = (afterSetValue st row obj header value target, Ok row)
          end
      end
  end.
Proof.
  intros Hok Hg.
  destruct (objects st !! row) as [obj|] eqn:Hobj.
  2:{ unfold setValue, getCell, getSheetRange, getLine, deref. msimpl.
      rewrite (range_cached _ Hg). msimpl. by rewrite Hobj. }
  destruct (Map_get header (headerColumn st)) as [c|] eqn:Hc.
  2:{ unfold setValue, getCell, getSheetRange, getLine, deref, getHeaderColumn.
      msimpl. rewrite (range_cached _ Hg). msimpl. rewrite Hobj. msimpl. by rewrite Hc. }
  destruct (Range_getCell _ (rowLine obj) c) as [target|] eqn:Ht.
  2:{ unfold setValue, getCell, getSheetRange, getLine, deref, getHeaderColumn.
      msimpl. rewrite (range_cached _ Hg). msimpl. rewrite Hobj. msimpl. rewrite Hc.
      msimpl. by rewrite Ht. }
  assert (Hin : row ∈ rows st).
  { rewrite (rows_all _ Hok), elem_of_seq. apply lookup_lt_Some in Hobj. lia. }
  by rewrite (setValue_run st row obj _ header c target value Hobj Hin
                (range_cached _ Hg) Hc Ht).
Qed.

Lemma afterSetValue_fields st row obj header value target :
  ∃ idx,
    afterSetValue st row obj header value target
    = set_rowByKeyMap idx
        (set_objects
           (<[row := mkSheetRow (spread_with (rowRecord obj) header value) (rowLine obj)]>
              (objects st))
           (set_sheet (Range_setValue (cells (sheet st)) target (encodeValue value)) st))
    ∧ (idx = rowByKeyMap st
       ∨ ∃ kh key, keyHeadersSet (options st) = Some kh
                   ∧ recordKey kh (spread_with (rowRecord obj) header value) = Some key
                   ∧ idx = <[key := row]> (rowByKeyMap st)).
Proof.
  unfold afterSetValue. cbn zeta.
  destruct (keyHeadersSet (options st)) as [kh|] eqn:Hkh.
  - destruct (recordKey kh _) as [key|] eqn:Hkey.
    + eexists. split; [reflexivity|]. right. by exists kh, key.
    + exists (rowByKeyMap st). split; [by destruct st|by left].
  - exists (rowByKeyMap st). split; [by destruct st|by left].
Qed.

Lemma setValue_invariant st row header value :
  heap_ok st → grid_ok st → lines_ok st →
  let st' := (setValue row header value st).1 in
  heap_ok st' ∧ grid_ok st' ∧ lines_ok st'.
Proof.
  intros Hok Hg Hl st'. subst st'.
  pose proof (setValue_split st row header value Hok Hg) as H.
  destruct (objects st !! row) as [obj|] eqn:Hobj; [|by rewrite H].
  destruct (Map_get header (headerColumn st)) as [c|]; [|by rewrite H].
  destruct (Range_getCell _ (rowLine obj) c) as [target|] eqn:Ht; [|by rewrite H].
  rewrite H. cbn [fst]. clear H.
  destruct (afterSetValue_fields st row obj header value target) as (idx & -> & Hidx).
  apply Range_getCell_Some in Ht as (Hr & Hc & ->).
  pose proof (Hl _ _ Hobj) as Hline. pose proof (cachedRows_le _ Hg) as Hle.
  assert (Hlt : row < length (objects st)) by (by eapply lookup_lt_Some).
  split_and!.
  - split; cbn.
    + rewrite length_insert. apply (rows_all _ Hok).
    + rewrite length_insert. intros key h.
      destruct Hidx as [->|(kh & key' & _ & _ & ->)].
      * apply (index_in _ Hok).
      * rewrite lookup_insert_Some. intros [[_ <-]|[_ Hh]]; [done|].
        by apply (index_in _ Hok) in Hh.
  - set (g' := Range_setValue _ _ _).
    assert (Hcell : ∀ i j, cell g' i j
              = if decide (rowLine obj - 1 = i ∧ c - 1 = j)
                then encodeValue value else cell (cells (sheet st)) i j).
    { intros i j. subst g'. unfold Range_setValue. cbn [Gas.row column].
      rewrite cell_setCell. repeat case_decide; try done; lia. }
    destruct Hg as [G1 G2 G3 G4 G5 G6 G7].
    assert (Hh : hasContent (cell g' 0 (length (headers st) - 1)) = true).
    { rewrite Hcell. case_decide; [lia|done]. }
    split; try done.
    + change (getLastColumn g' = length (headers st)). apply Nat.le_antisymm.
      * apply getLastColumn_le. intros i j Hj. rewrite Hcell.
        case_decide; [lia|]. apply getLastColumn_blank. lia.
      * apply getLastColumn_gt in Hh. lia.
    + change (getLastRow g' ≤ lastRow st). apply getLastRow_le. intros i j Hi.
      rewrite Hcell. case_decide; [lia|]. apply getLastRow_blank. lia.
  - intros h o. cbn. intros Ho.
    destruct (decide (row = h)) as [<-|Hne].
    + rewrite list_lookup_insert_eq in Ho by done. by injection Ho as <-.
    + rewrite list_lookup_insert_ne in Ho by done. by eapply Hl.
Qed.

Lemma lines_ok_createRows st records lr index :
  1 ≤ lr → lines_ok st → lines_ok (createRows_outcome st records lr index).1.
Proof.
  intros Hlr Hl.
  assert (Hgen : ∀ recs idx,
            lines_ok (with_rows st (objects st ++ newObjects recs lr index) idx)).
  { intros recs idx h o. cbn. intros Ho.
    apply lookup_app_Some in Ho as [Ho|[_ Ho]]; [by eapply Hl|].
    rewrite lookup_newObjects in Ho.
    destruct (recs !! _); [|done]. injection Ho as <-. cbn. lia. }
  unfold createRows_outcome.
  destruct (keyHeadersSet _); [|apply Hgen].
  destruct (firstConflict _ _ _ _) as [[k e]|]; apply Hgen.
Qed.

(** [addRecords] in every case: it changes nothing, or it writes the
    rows and creates handles. *)
Lemma addRecords_cases st records :
  heap_ok st → grid_ok st →
  (addRecords records st).1 = st
  ∨ (records ≠ [] ∧ forallb (storable (headers st)) records = true
     ∧ addRecords records st
       = createRows_outcome (appended st records) records (cachedRows st) 0).
Proof.
  intros Hok Hg. destruct records as [|r rs].
  { left. by rewrite (addRecords_nil st _ (range_cached _ Hg)). }
  destruct (forallb (storable (headers st)) (r :: rs)) eqn:Hst.
  - right. split; [done|]. split; [done|]. by apply addRecords_outcome.
  - left. by rewrite addRecords_unstorable.
Qed.

Lemma addRecords_invariant st records :
  heap_ok st → grid_ok st → lines_ok st →
  let st' := (addRecords records st).1 in
  heap_ok st' ∧ grid_ok st' ∧ lines_ok st'.
Proof.
  intros Hok Hg Hl st'. subst st'.
  destruct (addRecords_cases st records Hok Hg) as [->|(_ & _ & ->)]; [done|].
  split_and!.
  - apply createRows_heap_ok. by apply heap_ok_appended.
  - apply createRows_grid_ok. by apply grid_ok_appended.
  - apply lines_ok_createRows; [apply (cachedRows_pos _ Hg)|].
    intros h o Ho. by eapply Hl.
Qed.

(** [getSheetRange]: the cached range, or the range read again, which
    has the rows of the sheet that have content. *)
Lemma getSheetRange_eq st forceUpdate :
  grid_ok st →
  getSheetRange forceUpdate st
  = if forceUpdate
    then (let rg := mkRange 1 1 (getLastRow (cells (sheet st))) (length (headers st)) in
          (set_range (Some rg) st, Ok rg))
    else (st, Ok (mkRange 1 1 (cachedRows st) (length (headers st)))).
Proof.
  intros Hg. unfold getSheetRange. destruct forceUpdate; [|by rewrite (range_cached _ Hg)].
  unfold readSheetRange, getRange. rewrite (width _ Hg).
  pose proof (headers_pos _ Hg) as Hh.
  assert (0 < getLastRow (cells (sheet st))) as Hr.
  { apply (getLastRow_gt _ _ (length (headers st) - 1)), (header_content _ Hg). }
  assert (E1 : (1 <=? getLastRow (cells (sheet st))) = true) by (apply Nat.leb_le; lia).
  assert (E2 : (1 <=? length (headers st)) = true) by (by apply Nat.leb_le).
  rewrite E1, E2. done.
Qed.

Lemma getSheetRange_invariant st forceUpdate :
  heap_ok st → grid_ok st → lines_ok st →
  let st' := (getSheetRange forceUpdate st).1 in
  heap_ok st' ∧ grid_ok st' ∧ lines_ok st'.
Proof.
  intros Hok Hg Hl st'. subst st'. rewrite getSheetRange_eq by done.
  destruct forceUpdate; [|done]. cbn [fst]. split_and!.
  - destruct Hok. by split.
  - pose proof (headers_pos _ Hg) as Hh.
    assert (0 < getLastRow (cells (sheet st))) as Hr.
    { apply (getLastRow_gt _ _ (length (headers st) - 1)), (header_content _ Hg). }
    destruct Hg as [G1 G2 G3 G4 G5 G6 G7]. split; try done; cbn; unfold id; lia.
  - done.
Qed.

Lemma new_lines_ok app name o objs st :
  new app name o = (objs, Ok st) → lines_ok st.
Proof.
  unfold new. destruct (init app name o) as [[st0 recs]|] eqn:Hinit; [|done].
  apply init_Ok in Hinit as (Hg & Ho & Hr & Hi & _).
  assert (Hok : heap_ok st0).
  { split; [by rewrite Hr, Ho|]. intros key h. by rewrite Hi, lookup_empty. }
  unfold createInternalRows. rewrite createRowsFrom_eq by done.
  assert (Hl : lines_ok st0).
  { intros h obj. by rewrite Ho. }
  pose proof (lines_ok_createRows st0 recs 1 0 (le_n 1) Hl) as H.
  destruct (createRows_outcome st0 recs 1 0) as [st' [hs|e]]; [|done].
  by intros [= <- <-].
Qed.

(** Every table a caller can hold satisfies the invariants the
    statements on [addRecords] and [setValue] assume. *)
Lemma reachable_ok st : reachable st → heap_ok st ∧ grid_ok st ∧ lines_ok st.
Proof.
  induction 1 as [app name o objs st Hnew|st records _ (H1 & H2 & H3) _
                 |st row header value _ (H1 & H2 & H3)
                 |st forceUpdate _ (H1 & H2 & H3)].
  - pose proof (new_Ok _ _ _ _ _ Hnew) as (? & ? & _).
    split_and!; try done. by eapply new_lines_ok.
  - by apply addRecords_invariant.
  - by apply setValue_invariant.
  - by apply getSheetRange_invariant.
Qed.

(** ** The header test *)

Lemma sameValueZero_strings x (seen : list CellValue) :
  not_string x = false → (∀ y, y ∈ seen → not_string y = false) →
  existsb (sameValueZero x) seen = true ↔ x ∈ seen.
Proof.
  intros Hx Hseen. rewrite existsb_exists. split.
  - intros (y & Hin & Hy). apply list_elem_of_In in Hin.
    specialize (Hseen y Hin). destruct x, y; try done.
    simpl in Hy. by apply bool_decide_eq_true in Hy as [= ->].
  - intros Hin. exists x. split; [by apply list_elem_of_In|].
    destruct x; try done. simpl. by apply bool_decide_eq_true.
Qed.

Lemma Array_from_Set_length (xs : list CellValue) :
  (∀ x, x ∈ xs → not_string x = false) →
  length xs = length (Array_from_Set xs) ↔ NoDup xs.
Proof.
  intros Hxs. unfold Array_from_Set.
  assert (Hgen : ∀ xs seen,
    (∀ x, x ∈ xs → not_string x = false) →
    (∀ y, y ∈ seen → not_string y = false) →
    let r := fold_left
               (fun seen x => if existsb (sameValueZero x) seen then seen else seen ++ [x])
               xs seen in
    length r ≤ length seen + length xs
    ∧ (length seen + length xs = length r ↔ NoDup xs ∧ ∀ x, x ∈ xs → x ∉ seen)).
  { clear. intros xs. induction xs as [|x xs IH]; intros seen Hxs Hseen; simpl.
    - split; [lia|]. split; [|lia]. intros _. split; [constructor|].
      intros x Hx. by apply elem_of_nil in Hx.
    - assert (Hx : not_string x = false) by (apply Hxs; by left).
      assert (Hxs' : ∀ y, y ∈ xs → not_string y = false) by (intros y ?; apply Hxs; by right).
      destruct (existsb (sameValueZero x) seen) eqn:E.
      + apply sameValueZero_strings in E; [|done..].
        destruct (IH seen Hxs' Hseen) as [Hle _]. split; [lia|]. split; [lia|].
        intros [_ Hno]. destruct (Hno x); [by left|done].
      + assert (x ∉ seen) as Hnot.
        { intros Hin. apply sameValueZero_strings in Hin; [congruence|done..]. }
        destruct (IH (seen ++ [x]) Hxs') as [Hle Hiff].
        { intros y [?|Hy]%elem_of_app; [auto|].
          by apply list_elem_of_singleton in Hy as ->. }
        rewrite length_app in Hle, Hiff. simpl in Hle, Hiff.
        split; [lia|]. rewrite NoDup_cons.
        replace (length seen + S (length xs)) with (length seen + 1 + length xs) by lia.
        rewrite Hiff. split.
        * intros [Hnd Hno]. split_and!; [|done|].
          -- intros Hin. apply (Hno x Hin). apply elem_of_app. right. by left.
          -- intros y [->|Hy]%elem_of_cons; [done|].
             intros Hin. apply (Hno y Hy). apply elem_of_app. by left.
        * intros [[Hnx Hnd] Hno]. split; [done|].
          intros y Hy [Hin|Hin]%elem_of_app.
          -- apply (Hno y); [by right|done].
          -- apply list_elem_of_singleton in Hin as ->. done. }
  destruct (Hgen xs [] Hxs) as [_ Hiff].
  { intros y Hy. by apply elem_of_nil in Hy. }
  simpl in Hiff. rewrite Hiff. split; [by intros [? _]|].
  intros Hnd. split; [done|]. intros x _ Hx. by apply elem_of_nil in Hx.
Qed.

Lemma headerTest_spec name (hs : list CellValue) :
  match headerTest name hs with
  | Some e =>
      (e = HeadersNotFilled name ∧ Str "" ∈ hs)
      ∨ (e = HeadersNotStrings name ∧ ∃ h, h ∈ hs ∧ not_string h = true)
      ∨ (e = HeadersRepeat name ∧ ¬ NoDup hs)
  | None => NoDup hs ∧ ∀ h, h ∈ hs → ∃ s, h = Str s ∧ s ≠ ""
  end.
Proof.
  unfold headerTest.
  destruct (existsb is_empty_text hs) eqn:E1.
  { left. split; [done|]. apply existsb_exists in E1 as (h & Hin & Hh).
    apply bool_decide_eq_true in Hh as ->. by apply list_elem_of_In. }
  destruct (existsb not_string hs) eqn:E2.
  { right. left. split; [done|]. apply existsb_exists in E2 as (h & Hin & Hh).
    exists h. split; [by apply list_elem_of_In|done]. }
  assert (Hstr : ∀ h, h ∈ hs → not_string h = false).
  { intros h Hin. destruct (not_string h) eqn:E; [|done].
    assert (existsb not_string hs = true); [|congruence].
    apply existsb_exists. exists h. split; [by apply list_elem_of_In|done]. }
  pose proof (Array_from_Set_length hs Hstr) as Hnd.
  destruct (length hs =? length (Array_from_Set hs)) eqn:E3; cbn [negb].
  - apply Nat.eqb_eq in E3. split; [by apply Hnd|].
    intros h Hin. specialize (Hstr h Hin). destruct h as [s| | |]; try done.
    exists s. split; [done|]. intros ->.
    assert (existsb is_empty_text hs = true); [|congruence].
    apply existsb_exists. exists (Str ""). split; [by apply list_elem_of_In|done].
  - right. right. split; [done|]. apply Nat.eqb_neq in E3. by rewrite <- Hnd.
Qed.


(** ** The table the constructor returns, in full *)

Lemma Range_getValues_whole g nr nc :
  Range_getValues g (mkRange 1 1 nr nc) = map (fun i => sheetRow g i nc) (seq 0 nr).
Proof. done. Qed.

Lemma init_spec app name o st recs :
  init app name o = Ok (st, recs) →
  ∃ ss sheet,
    let g := cells sheet in
    let hs := sheetRow g 0 (getLastColumn g) in
    let hc := buildHeaderColumn (map keyof hs) in
    openSpreadsheet app o = Ok ss ∧ ss !! name = Some sheet ∧ frozenRows sheet = 1
    ∧ 1 ≤ getLastRow g ∧ 1 ≤ getLastColumn g
    ∧ headerTest name hs = None
    ∧ lostHeaders o hc = []
    ∧ st = mkTable name o sheet (getLastRow g)
             (Some (mkRange 1 1 (getLastRow g) (getLastColumn g)))
             hc (map keyof hs) ∅ [] []
    ∧ recs = map (fun i => loadRecord hc (sheetRow g (S i) (getLastColumn g)))
                 (seq 0 (getLastRow g - 1)).
Proof.
  unfold init. destruct (openSpreadsheet app o) as [ss|]; [|done].
  destruct (ss !! name) as [s|] eqn:Hs; [|done].
  destruct (frozenRows s =? 0) eqn:F0; [done|]. destruct (1 <? frozenRows s) eqn:F1; [done|].
  apply Nat.eqb_neq in F0. apply Nat.ltb_ge in F1.
  destruct (readSheetRange name s) as [rg|] eqn:Hrg; [|done].
  apply readSheetRange_Ok in Hrg as (-> & Hr & Hc).
  unfold Range_getLastRow, Range_getLastColumn. cbn [row column numRows numColumns].
  destruct ((_ =? 0) || (_ =? 0)); [done|].
  rewrite Range_getValues_whole.
  destruct (getLastRow (cells s)) as [|lr] eqn:Elr; [lia|].
  cbn [seq map]. fold (sheetRow (cells s) 0 (getLastColumn (cells s))).
  destruct (headerTest name _) as [e|] eqn:Ht; [done|].
  destruct (lostHeaders o _) eqn:Hlost; [|done].
  intros [= <- <-]. exists ss, s. cbn zeta. split_and!; try done; try lia.
  - by rewrite Elr.
  - rewrite Elr. replace (S lr - 1) with lr by lia.
    by rewrite <- seq_shift, !map_map.
Qed.

Lemma objects_createRows_Ok st records lr index st' hs :
  createRows_outcome st records lr index = (st', Ok hs) →
  ∃ idx, st' = with_rows st (objects st ++ newObjects records lr index) idx
         ∧ hs = seq (length (objects st)) (length records).
Proof.
  unfold createRows_outcome. destruct (keyHeadersSet _).
  - destruct (firstConflict _ _ _ _) as [[k e]|]; [done|]. intros [= <- <-]. eauto.
  - intros [= <- <-]. eauto.
Qed.

Lemma new_spec app name o objs st :
  new app name o = (objs, Ok st) →
  ∃ st0 recs idx,
    init app name o = Ok (st0, recs)
    ∧ st = with_rows st0 (newObjects recs 1 0) idx ∧ objs = objects st.
Proof.
  unfold new. destruct (init app name o) as [[st0 recs]|] eqn:Hinit; [|done].
  pose proof (init_Ok _ _ _ _ _ Hinit) as (Hg & Ho & Hr & Hi & _).
  assert (Hok : heap_ok st0).
  { split; [by rewrite Hr, Ho|]. intros key h. by rewrite Hi, lookup_empty. }
  unfold createInternalRows. rewrite createRowsFrom_eq by done.
  destruct (createRows_outcome st0 recs 1 0) as [st' [hs|e]] eqn:Hout; [|done].
  intros [= <- <-]. apply objects_createRows_Ok in Hout as (idx & -> & _).
  exists st0, recs, idx. rewrite Ho. done.
Qed.

Lemma NoDup_keyof (hs : list CellValue) :
  NoDup hs → (∀ h, h ∈ hs → ∃ s, h = Str s ∧ s ≠ "") → NoDup (map keyof hs).
Proof.
  intros Hnd Hstr. apply NoDup_fmap_2_strong; [|done].
  intros x y Hx Hy. destruct (Hstr x Hx) as (s & -> & _), (Hstr y Hy) as (s' & -> & _).
  simpl. by intros ->.
Qed.

Lemma new_schema_ok app name o objs st :
  new app name o = (objs, Ok st) → schema_ok st.
Proof.
  intros (st0 & recs & idx & Hinit & -> & _)%new_spec.
  apply init_spec in Hinit as (ss & sheet & _ & _ & _ & _ & _ & Ht & _ & -> & _).
  pose proof (headerTest_spec name (sheetRow (cells sheet) 0 (getLastColumn (cells sheet)))) as H.
  rewrite Ht in H. destruct H as [Hnd Hstr].
  split; cbn.
  - by apply NoDup_keyof.
  - intros h Hh. apply list_elem_of_fmap in Hh as (c & -> & Hc).
    destruct (Hstr c Hc) as (s & -> & Hs). done.
  - done.
Qed.

Lemma schema_column st j h :
  schema_ok st → headers st !! j = Some h → Map_get h (headerColumn st) = Some (j + 1).
Proof.
  intros [Hnd _ Hc] Hj. rewrite Hc.
  pose proof (buildHeaderColumn_get (headers st) h) as H.
  destruct (Map_get h (buildHeaderColumn (headers st))) as [c|].
  - destruct H as [Hpos Hc']. f_equal.
    pose proof (NoDup_lookup _ _ _ _ Hnd Hc' Hj). lia.
  - exfalso. apply H. by eapply list_elem_of_lookup_2.
Qed.

Lemma schema_no_column st h :
  schema_ok st → h ∉ headers st → Map_get h (headerColumn st) = None.
Proof.
  intros [_ _ Hc] Hh. rewrite Hc. by apply buildHeaderColumn_None.
Qed.
Lemma sheetRow_lookup g i n j : j < n → sheetRow g i n !! j = Some (cell g i j).
Proof.
  intros Hj. unfold sheetRow. rewrite list_lookup_fmap, lookup_seq_lt by done. done.
Qed.

Lemma length_sheetRow g i n : length (sheetRow g i n) = n.
Proof. unfold sheetRow. by rewrite length_map, length_seq. Qed.


(** ** Tables made by the constructor and by appends that return *)

Lemma absorbed_lookup_inv kh records idx next key h :
  absorbed kh idx next records !! key = Some h →
  idx !! key = Some h
  ∨ ∃ i r, records !! i = Some r ∧ recordKey kh r = Some key ∧ h = next + i.
Proof.
  revert idx next. induction records as [|r rs IH]; intros idx next; simpl; [by left|].
  intros [Hold|(i & r' & Hi & Hk & ->)]%IH.
  - destruct (recordKey kh r) as [k|] eqn:Hk; [|by left].
    rewrite lookup_insert in Hold. case_decide as E; [|by left].
    injection Hold as <-. subst k. right. exists 0, r. split_and!; [done..|lia].
  - right. exists (S i), r'. split_and!; [done..|lia].
Qed.

Lemma createRows_sound st records lr index st' hs :
  index_sound st →
  createRows_outcome st records lr index = (st', Ok hs) → index_sound st'.
Proof.
  intros Hs. unfold createRows_outcome.
  destruct (keyHeadersSet (options st)) as [kh|] eqn:Hkh.
  2:{ intros [= <- _] kh' key h Hkh'. simpl in Hkh'. congruence. }
  destruct (firstConflict kh _ _ records) as [[k e]|]; [done|].
  intros [= <- _] kh' key h Hkh' Hidx. simpl in *.
  assert (kh' = kh) as -> by congruence.
  apply absorbed_lookup_inv in Hidx as [Hold|(i & r & Hi & Hk & ->)].
  - destruct (Hs _ _ _ Hkh Hold) as (obj & Hobj & Hkey).
    exists obj. split; [|done]. by apply lookup_app_l_Some.
  - exists (mkSheetRow r (lr + (index + i) + 1)). split; [|done].
    rewrite lookup_app_r by lia.
    replace (length (objects st) + i - length (objects st)) with i by lia.
    by rewrite lookup_newObjects, Hi.
Qed.

Lemma index_exact_appended st records : index_exact st → index_exact (appended st records).
Proof. done. Qed.

Lemma index_sound_appended st records : index_sound st → index_sound (appended st records).
Proof. done. Qed.

Lemma new_in_step app name o objs st :
  new app name o = (objs, Ok st) → in_step st.
Proof.
  intros (st0 & recs & idx & Hinit & -> & _)%new_spec.
  apply init_spec in Hinit as (ss & sheet & _ & _ & _ & _ & _ & _ & _ & -> & _).
  done.
Qed.

Lemma new_sound app name o objs st :
  new app name o = (objs, Ok st) → index_sound st.
Proof.
  intros Hnew. unfold SheetTable.new in Hnew.
  destruct (init app name o) as [[st0 recs]|] eqn:Hinit; [|done].
  apply init_Ok in Hinit as (Hg0 & Ho & Hr & Hi & _).
  assert (Hok0 : heap_ok st0).
  { split; [by rewrite Hr, Ho|]. intros key h. by rewrite Hi, lookup_empty. }
  unfold createInternalRows in Hnew. rewrite createRowsFrom_eq in Hnew by done.
  destruct (createRows_outcome st0 recs 1 0) as [st' [hs|e]] eqn:Hout; [|done].
  injection Hnew as _ <-. eapply createRows_sound; [|done].
  intros kh key h _. by rewrite Hi, lookup_empty.
Qed.

Lemma loaded_ok st :
  loaded st →
  heap_ok st ∧ grid_ok st ∧ in_step st ∧ schema_ok st ∧ index_exact st ∧ index_sound st.
Proof.
  induction 1 as [app name o objs st Hnew
                 |st records st' hs _ (Hok & Hg & Hin & Hsc & Hex & Hso) Hadd].
  - pose proof (new_Ok _ _ _ _ _ Hnew) as (Hok & Hg & Hex & _).
    split_and!; try done.
    + by eapply new_in_step.
    + by eapply new_schema_ok.
    + by eapply new_sound.
  - destruct (addRecords_cases st records Hok Hg) as [E|(Hne & Hst & E)].
    { rewrite Hadd in E. cbn in E. by subst st'. }
    rewrite Hadd in E. symmetry in E.
    pose proof (createRows_heap_ok (appended st records) records (cachedRows st) 0
                  (heap_ok_appended _ _ Hok)) as H1.
    pose proof (createRows_grid_ok (appended st records) records (cachedRows st) 0
                  (grid_ok_appended _ _ Hg)) as H2.
    rewrite E in H1, H2. split_and!; try done.
    + by apply objects_createRows_Ok in E as (idx & -> & _).
    + apply objects_createRows_Ok in E as (idx & -> & _).
      destruct Hsc as [S1 S2 S3]. by split.
    + exact (createRows_exact _ _ _ _ _ _ (heap_ok_appended _ _ Hok)
               (index_exact_appended _ records Hex) E).
    + exact (createRows_sound _ _ _ _ _ _ (index_sound_appended _ records Hso) E).
Qed.

Lemma loaded_reachable st : loaded st → reachable st.
Proof.
  induction 1 as [app name o objs st Hnew|st records st' hs _ IH Hadd].
  - by eapply reach_new.
  - replace st' with (addRecords records st).1 by (by rewrite Hadd).
    apply reach_addRecords; [done|].
    destruct (forallb (storable (headers st)) records) eqn:E; [done|].
    destruct (reachable_ok _ IH) as (_ & Hg & _).
    rewrite (addRecords_unstorable st records Hg) in Hadd;
      [done|by intros ->|done].
Qed.


(** ** What the operations leave as it is *)

Lemma createRows_frame st records lr index :
  ∃ k idx,
    (createRows_outcome st records lr index).1
    = with_rows st (objects st ++ newObjects (take k records) lr index) idx.
Proof.
  unfold createRows_outcome. destruct (keyHeadersSet _).
  - destruct (firstConflict _ _ _ _) as [[k e]|]; cbn.
    + by exists (S k), (absorbed l (rowByKeyMap st) (length (objects st)) (take k records)).
    + exists (length records). rewrite firstn_all. eauto.
  - exists (length records). rewrite firstn_all. cbn. eauto.
Qed.

Lemma addRecords_frame st records :
  heap_ok st → grid_ok st →
  let st' := (addRecords records st).1 in
  headers st' = headers st ∧ headerColumn st' = headerColumn st
  ∧ options st' = options st ∧ sheetName st' = sheetName st
  ∧ (∀ i j, i < lastRow st → cell (cells (sheet st')) i j = cell (cells (sheet st)) i j)
  ∧ (∀ h obj, objects st !! h = Some obj → objects st' !! h = Some obj).
Proof.
  intros Hok Hg st'. subst st'.
  destruct (addRecords_cases st records Hok Hg) as [->|(_ & _ & ->)]; [done|].
  destruct (createRows_frame (appended st records) records (cachedRows st) 0)
    as (k & idx & ->).
  split_and!; try done.
  - intros i j Hi. apply (cell_written_outside st records). lia.
  - intros h obj Hobj. by apply lookup_app_l_Some.
Qed.

Lemma setValue_frame st row header value :
  heap_ok st → grid_ok st → lines_ok st →
  let st' := (setValue row header value st).1 in
  headers st' = headers st ∧ headerColumn st' = headerColumn st
  ∧ options st' = options st ∧ sheetName st' = sheetName st
  ∧ lastRow st' = lastRow st ∧ range st' = range st ∧ rows st' = rows st
  ∧ (∀ j, cell (cells (sheet st')) 0 j = cell (cells (sheet st)) 0 j).
Proof.
  intros Hok Hg Hl st'. subst st'.
  pose proof (setValue_split st row header value Hok Hg) as H.
  destruct (objects st !! row) as [obj|] eqn:Hobj; [|by rewrite H].
  destruct (Map_get header (headerColumn st)) as [c|]; [|by rewrite H].
  destruct (Range_getCell _ (rowLine obj) c) as [target|] eqn:Ht; [|by rewrite H].
  rewrite H. cbn [fst].
  destruct (afterSetValue_fields st row obj header value target) as (idx & -> & _).
  cbn. split_and!; try done.
  intros j. apply Range_getCell_Some in Ht as (Hr & Hc & ->).
  rewrite cell_Range_setValue. cbn. pose proof (Hl _ _ Hobj).
  case_decide; [lia|done].
Qed.

Lemma getSheetRange_frame st forceUpdate :
  grid_ok st →
  let st' := (getSheetRange forceUpdate st).1 in
  headers st' = headers st ∧ headerColumn st' = headerColumn st
  ∧ options st' = options st ∧ sheet st' = sheet st ∧ lastRow st' = lastRow st
  ∧ objects st' = objects st ∧ rows st' = rows st ∧ rowByKeyMap st' = rowByKeyMap st.
Proof. intros Hg st'. subst st'. rewrite getSheetRange_eq by done. by destruct forceUpdate. Qed.

Lemma new_header_row app name o objs st :
  new app name o = (objs, Ok st) → header_row_ok st.
Proof.
  intros (st0 & recs & idx & Hinit & -> & _)%new_spec.
  apply init_spec in Hinit as (ss & s & _ & _ & _ & _ & Hc & Ht & _ & -> & _).
  intros j h. cbn. rewrite list_lookup_fmap. intros Hj.
  destruct (sheetRow (cells s) 0 (getLastColumn (cells s)) !! j) as [c|] eqn:E; [|done].
  cbn in Hj. injection Hj as <-.
  pose proof (headerTest_spec name (sheetRow (cells s) 0 (getLastColumn (cells s)))) as H.
  rewrite Ht in H. destruct H as [_ Hstr].
  destruct (Hstr c) as (h & -> & _); [by eapply list_elem_of_lookup_2|].
  pose proof (lookup_lt_Some _ _ _ E) as Hlt. rewrite length_sheetRow in Hlt.
  rewrite sheetRow_lookup in E by done. by injection E as ->.
Qed.

Lemma reachable_schema st : reachable st → schema_ok st ∧ header_row_ok st.
Proof.
  intros Hr. induction Hr as [app name o objs st Hnew|st records Hr [Hs Hh] _
                             |st row header value Hr [Hs Hh]
                             |st forceUpdate Hr [Hs Hh]].
  - split; [by eapply new_schema_ok|by eapply new_header_row].
  - destruct (reachable_ok _ Hr) as (Hok & Hg & Hl).
    destruct (addRecords_frame st records Hok Hg) as (E1 & E2 & _ & _ & Hc & _).
    split.
    + destruct Hs as [S1 S2 S3]. split; rewrite ?E1, ?E2; done.
    + intros j h. rewrite E1. intros Hj. rewrite Hc; [by apply Hh|].
      apply (lastRow_pos _ Hg).
  - destruct (reachable_ok _ Hr) as (Hok & Hg & Hl).
    destruct (setValue_frame st row header value Hok Hg Hl)
      as (E1 & E2 & _ & _ & _ & _ & _ & Hc).
    split.
    + destruct Hs as [S1 S2 S3]. split; rewrite ?E1, ?E2; done.
    + intros j h. rewrite E1. intros Hj. rewrite Hc. by apply Hh.
  - destruct (reachable_ok _ Hr) as (Hok & Hg & Hl).
    destruct (getSheetRange_frame st forceUpdate Hg) as (E1 & E2 & _ & E3 & _).
    split.
    + destruct Hs as [S1 S2 S3]. split; rewrite ?E1, ?E2; done.
    + intros j h. rewrite E1, E3. apply Hh.
Qed.

(** Every key of the index of a table is the key of one of the records
    the table was built from. *)
Lemma absorbed_from (P : RowRecord → Prop) kh records idx next :
  Forall P records →
  (∀ key h, idx !! key = Some h → ∃ record, P record ∧ recordKey kh record = Some key) →
  ∀ key h, absorbed kh idx next records !! key = Some h →
           ∃ record, P record ∧ recordKey kh record = Some key.
Proof.
  intros HP Hidx key h [Hold|(i & r & Hi & Hk & _)]%absorbed_lookup_inv; [eauto|].
  exists r. split; [|done]. eapply Forall_lookup_1; done.
Qed.

Lemma createRows_from (P : RowRecord → Prop) st records lr index :
  Forall P records → index_from P st →
  index_from P (createRows_outcome st records lr index).1.
Proof.
  intros HP Hk. unfold createRows_outcome.
  destruct (keyHeadersSet (options st)) as [kh|] eqn:Hkh.
  2:{ cbn. intros kh' key h Hkh'. cbn in Hkh'. congruence. }
  destruct (firstConflict kh _ _ records) as [[k e]|]; cbn;
    intros kh' key h Hkh' Hidx; cbn in Hkh', Hidx;
    (assert (kh' = kh) as -> by congruence);
    eapply absorbed_from; try exact Hidx;
    try (intros key' h'; by apply Hk); [by apply Forall_take|done].
Qed.

Lemma reachable_built st : reachable st ↔ built (fun _ => True) st.
Proof.
  split.
  - induction 1; [eapply built_new; [done|by apply Forall_true]
                 |apply built_addRecords; [done|done|by apply Forall_true]
                 |by apply built_setValue|by apply built_getSheetRange].
  - induction 1; [by eapply reach_new|by apply reach_addRecords
                 |by apply reach_setValue|by apply reach_getSheetRange].
Qed.

Lemma built_reachable P st : built P st → reachable st.
Proof.
  induction 1; [by eapply reach_new|by apply reach_addRecords
               |by apply reach_setValue|by apply reach_getSheetRange].
Qed.

Lemma built_from P st : built P st → index_from P st.
Proof.
  intros Hb. induction Hb as [app name o objs st Hnew HP|st records Hb IH _ HP
                             |st row header value Hb IH HP
                             |st forceUpdate Hb IH].
  - intros kh key h Hkh Hidx.
    destruct (new_sound _ _ _ _ _ Hnew _ _ _ Hkh Hidx) as (obj & Hobj & Hkey).
    exists (rowRecord obj). split; [|done].
    assert (objs = objects st) as ->.
    { by apply new_spec in Hnew as (st0 & recs & idx & _ & _ & ->). }
    by apply (Forall_lookup_1 _ _ _ _ HP Hobj).
  - destruct (reachable_ok _ (built_reachable _ _ Hb)) as (Hok & Hg & Hl).
    destruct (addRecords_cases st records Hok Hg) as [->|(_ & _ & ->)]; [done|].
    by apply createRows_from.
  - destruct (reachable_ok _ (built_reachable _ _ Hb)) as (Hok & Hg & Hl).
    pose proof (setValue_split st row header value Hok Hg) as H.
    destruct (objects st !! row) as [obj|] eqn:Hobj; [|by rewrite H].
    destruct (Map_get header (headerColumn st)) as [c|]; [|by rewrite H].
    destruct (Range_getCell _ (rowLine obj) c) as [target|] eqn:Ht; [|by rewrite H].
    rewrite H. cbn [fst].
    destruct (afterSetValue_fields st row obj header value target)
      as (idx & -> & [->|(kh & key & Hkh & Hkey & ->)]).
    + intros kh key h. cbn. apply IH.
    + intros kh' key' h. cbn. intros Hkh'. assert (kh' = kh) as -> by congruence.
      rewrite lookup_insert_Some. intros [[<- _]|[_ Hidx]]; [|by eapply IH].
      exists (spread_with (rowRecord obj) header value). split; [by apply HP|done].
  - destruct (reachable_ok _ (built_reachable _ _ Hb)) as (Hok & Hg & Hl).
    destruct (getSheetRange_frame st forceUpdate Hg) as (_ & _ & E1 & _ & _ & _ & _ & E2).
    intros kh key h. rewrite E1, E2. apply IH.
Qed.

Lemma Demo_store_reachable : reachable Demo.store.
Proof. eapply reach_new. exact Demo_store_new. Qed.

Lemma Demo_store_loaded : loaded Demo.store.
Proof. exact (loaded_new _ _ _ _ _ Demo_store_new). Qed.


(** ** The key of a record *)

Lemma getRowKey_eq (so : SheetObject.t) (row : SheetObject.SheetRowObj) :
  SheetObject.getRowKey so row
  = JSON_stringify
      (map (fun h => Js.get (SheetObject.fields row) h)
           (default [] (SheetObject.keyHeaders so))).
Proof.
  unfold SheetObject.getRowKey. f_equal.
  assert (Hgen : ∀ (l : list string) acc,
    fold_left (fun res h => res ++ [Js.get (SheetObject.fields row) h]) l acc
    = acc ++ map (fun h => Js.get (SheetObject.fields row) h) l).
  { intros l. induction l as [|h l IH]; intros acc; simpl.
    - by rewrite app_nil_r.
    - by rewrite IH, <- app_assoc. }
  apply Hgen.
Qed.

Lemma key_text_eq (kh : list string) (r1 r2 : RowRecord) :
  JSON_stringify (map (fun h => Js.get r1 h) kh)
  = JSON_stringify (map (fun h => Js.get r2 h) kh)
  ↔ map (fun h => toJSON (Js.get r1 h)) kh = map (fun h => toJSON (Js.get r2 h)) kh.
Proof.
  rewrite JSON_stringify_eq by (by rewrite !length_map).
  by rewrite !map_map.
Qed.

Lemma forallb_fmap {A B} (f : B → bool) (g : A → B) (l : list A) :
  forallb f (map g l) = forallb (fun x => f (g x)) l.
Proof. induction l as [|x l IH]; simpl; [done|by rewrite IH]. Qed.

Lemma recordKey_None kh (r : RowRecord) :
  recordKey kh r = None ↔ forallb (fun h => eq_null (Js.get r h)) kh = true.
Proof. unfold recordKey. by destruct (forallb _ kh). Qed.

Lemma recordKey_Some kh (r : RowRecord) key :
  recordKey kh r = Some key ↔
  forallb (fun h => eq_null (Js.get r h)) kh = false
  ∧ key = JSON_stringify (map (fun h => Js.get r h) kh).
Proof. unfold recordKey. destruct (forallb _ kh); naive_solver. Qed.

Lemma recordKey_eq kh (r1 r2 : RowRecord) k1 k2 :
  recordKey kh r1 = Some k1 → recordKey kh r2 = Some k2 →
  k1 = k2
  ↔ map (fun h => toJSON (Js.get r1 h)) kh = map (fun h => toJSON (Js.get r2 h)) kh.
Proof.
  intros [_ ->]%recordKey_Some [_ ->]%recordKey_Some. apply key_text_eq.
Qed.

(** Two new rows attached one after the other to a table that has
    neither key: the second is refused exactly when both records have
    a key and the keys are the same. *)
Lemma pair_outcome st kh (r1 r2 : RowRecord) lr :
  heap_ok st → keyHeadersSet (options st) = Some kh →
  (∀ k, recordKey kh r1 = Some k ∨ recordKey kh r2 = Some k →
        rowByKeyMap st !! k = None) →
  (createInternalRows [r1; r2] lr st).2
  = match recordKey kh r1, recordKey kh r2 with
    | Some k1, Some k2 =>
        if bool_decide (k1 = k2)
        then Throw (DuplicateKey (sheetName st) kh (lr + 0 + 1) (lr + (0 + 1) + 1))
        else Ok [length (objects st); S (length (objects st))]
    | _, _ => Ok [length (objects st); S (length (objects st))]
    end.
Proof.
  intros Hok Hkh Hfresh. unfold createInternalRows.
  rewrite createRowsFrom_eq by done. unfold createRows_outcome. rewrite Hkh.
  cbn [firstConflict].
  destruct (recordKey kh r1) as [k1|] eqn:K1.
  - rewrite (Hfresh k1) by eauto.
    destruct (recordKey kh r2) as [k2|] eqn:K2; [|done].
    case_bool_decide as Hk.
    + subst k2. rewrite lookup_insert_eq. cbn.
      rewrite lookup_app_r by lia. by rewrite Nat.sub_diag.
    + rewrite lookup_insert_ne by done. by rewrite (Hfresh k2) by eauto.
  - destruct (recordKey kh r2) as [k2|] eqn:K2; [|done].
    by rewrite (Hfresh k2) by eauto.
Qed.

(** C9, as the code has it.  In [SheetTable] a record whose key values
    are all [null] or [undefined] has no key: the index never holds
    it, and it is the same as no other record.  Two records that have
    a key have the same key exactly when their key values, in the
    order of the key headers, are equal as [JSON.stringify] prints
    them: [undefined], [null], a non-finite number, an invalid date and
    an inherited function as [null], a date as the text of its ISO
    time stamp, and text, finite numbers and booleans as they are.
    This is what the index goes by: of two new rows attached to a
    table a caller can hold, that holds neither key, the second is
    refused as a duplicate exactly when both have a key and the key
    values are equal in that reading.  In [SheetObject] every row has
    a key, the same text without the exception for [null].  Records
    with equal key values have the same key. *)
Theorem same_key_iff_same_JSON (st : SheetTable.t) (kh : list string)
    (so : SheetObject.t) (r1 r2 : RowRecord) (l1 i1 l2 i2 lr : nat) :
  keyHeadersSet (options st) = Some kh →
  let sameJSON :=
    map (fun h => toJSON (Js.get r1 h)) kh = map (fun h => toJSON (Js.get r2 h)) kh in
  let keyed1 := forallb (fun h => eq_null (Js.get r1 h)) kh = false in
  let keyed2 := forallb (fun h => eq_null (Js.get r2 h)) kh = false in
  (recordKey kh r1 = None ↔ ¬ keyed1)
  ∧ (∀ k1, recordKey kh r1 = Some k1 → getRecordHash st (inl r1) = Ok k1)
  ∧ (∀ k1 k2, recordKey kh r1 = Some k1 → recordKey kh r2 = Some k2 →
       (k1 = k2 ↔ sameJSON))
  ∧ (reachable st →
     (∀ k, recordKey kh r1 = Some k ∨ recordKey kh r2 = Some k →
           rowByKeyMap st !! k = None) →
     (keyed1 ∧ keyed2 ∧ sameJSON →
      (createInternalRows [r1; r2] lr st).2
      = Throw (DuplicateKey (sheetName st) kh (lr + 1) (lr + 2)))
     ∧ (¬ (keyed1 ∧ keyed2 ∧ sameJSON) →
        (createInternalRows [r1; r2] lr st).2
        = Ok [length (objects st); S (length (objects st))]))
  ∧ (SheetObject.getRowKey so (SheetObject.mkRowObj r1 l1 i1)
     = SheetObject.getRowKey so (SheetObject.mkRowObj r2 l2 i2)
     ↔ map (fun h => toJSON (Js.get r1 h)) (default [] (SheetObject.keyHeaders so))
       = map (fun h => toJSON (Js.get r2 h)) (default [] (SheetObject.keyHeaders so)))
  ∧ (map (fun h => Js.get r1 h) kh = map (fun h => Js.get r2 h) kh →
     recordKey kh r1 = recordKey kh r2).
Proof.
  intros Hkh sameJSON keyed1 keyed2. subst sameJSON keyed1 keyed2. split_and!.
  - rewrite recordKey_None. by destruct (forallb _ kh).
  - intros k1 [_ ->]%recordKey_Some. unfold getRecordHash. by rewrite Hkh.
  - apply recordKey_eq.
  - intros (Hok & _)%reachable_ok Hfresh.
    rewrite (pair_outcome st kh r1 r2 lr Hok Hkh Hfresh).
    replace (lr + 0 + 1) with (lr + 1) by lia.
    replace (lr + (0 + 1) + 1) with (lr + 2) by lia.
    destruct (recordKey kh r1) as [k1|] eqn:K1.
    2:{ apply recordKey_None in K1. split; [|done]. intros (K & _). congruence. }
    destruct (recordKey kh r2) as [k2|] eqn:K2.
    2:{ apply recordKey_None in K2. split; [|done]. intros (_ & K & _). congruence. }
    pose proof (recordKey_eq kh r1 r2 k1 k2 K1 K2) as Heq.
    apply recordKey_Some in K1 as [K1 _]. apply recordKey_Some in K2 as [K2 _].
    case_bool_decide as Hk; split; try done.
    + intros Hn. destruct Hn. split_and!; try done. by apply Heq.
    + intros (_ & _ & Hj). by apply Heq in Hj.
  - rewrite !getRowKey_eq. apply key_text_eq.
  - intros Heq. unfold recordKey.
    replace (forallb (fun h => eq_null (Js.get r2 h)) kh)
      with (forallb (fun h => eq_null (Js.get r1 h)) kh).
    2:{ rewrite <- !(forallb_fmap eq_null (fun h => Js.get _ h)). by rewrite Heq. }
    by rewrite Heq.
Qed.

Lemma same_key_iff_same_JSON_witness :
  let r1 := Demo.record (Cell (Demo.num N3)) Null in
  let r2 := Demo.record (Cell (Demo.num N3)) (Cell (Str "x")) in
  keyHeadersSet (options Demo.store) = Some ["id"]
  ∧ recordKey ["id"] r1 = Some "[3]" ∧ recordKey ["id"] r2 = Some "[3]"
  ∧ (createInternalRows [r1; r2] 3 Demo.store).2
    = Throw (DuplicateKey "Sheet1" ["id"] 4 5).
Proof.
  intros r1 r2. split; [reflexivity|].
  split; [vm_compute; reflexivity|]. split; [vm_compute; reflexivity|].
  pose proof (same_key_iff_same_JSON Demo.store ["id"] Demo.object r1 r2 0 0 0 0 3
                eq_refl) as (_ & _ & _ & H & _).
  apply H.
  - exact Demo_store_reachable.
  - intros k [Hk|Hk]; vm_compute in Hk; injection Hk as <-; reflexivity.
  - split_and!; vm_compute; reflexivity.
Defined.

(** A date and the text of its ISO time stamp are different values with
    the same key, in both stores: the index of the table refuses the
    second of two such rows as a duplicate. *)
Lemma date_and_text_share_a_key :
  let r1 := Demo.record (Cell (Dat (DateAt 0))) Null in
  let r2 := Demo.record (Cell (Str "1970-01-01T00:00:00.000Z")) Null in
  Js.get r1 "id" ≠ Js.get r2 "id"
  ∧ recordKey ["id"] r1 = recordKey ["id"] r2
  ∧ recordKey ["id"] r1 ≠ None
  ∧ (addRecords [r1; r2] Demo.store).2 = Throw (DuplicateKey "Sheet1" ["id"] 4 5)
  ∧ SheetObject.getRowKey Demo.object (SheetObject.mkRowObj r1 4 3)
    = SheetObject.getRowKey Demo.object (SheetObject.mkRowObj r2 4 3).
Proof. vm_compute. split_and!; done. Qed.

(** ** Records without a key *)

Lemma rowByKeyMap_touch row st : rowByKeyMap (touch row st) = rowByKeyMap st.
Proof. unfold touch. by case_bool_decide. Qed.

Lemma null_key_record kh (r : RowRecord) :
  recordKey kh r = Some (JSON_stringify (replicate (length kh) JsNull)) →
  ∃ h, h ∈ kh ∧ eq_null (Js.get r h) = false ∧ toJSON (Js.get r h) = JNull.
Proof.
  intros [Hnot Hkey]%recordKey_Some.
  symmetry in Hkey. apply JSON_stringify_eq in Hkey.
  2:{ by rewrite length_map, length_replicate. }
  assert (Hall : ∀ h, h ∈ kh → toJSON (Js.get r h) = JNull).
  { intros h [i Hi]%list_elem_of_lookup.
    apply (f_equal (fun l => l !! i)) in Hkey.
    rewrite !list_lookup_fmap, Hi in Hkey. simpl in Hkey.
    rewrite lookup_replicate_2 in Hkey by (by eapply lookup_lt_Some).
    simpl in Hkey. by injection Hkey. }
  apply not_true_iff_false in Hnot.
  destruct (existsb (fun h => negb (eq_null (Js.get r h))) kh) eqn:E.
  - apply existsb_exists in E as (h & Hin & Hh). exists h.
    apply list_elem_of_In in Hin. split_and!; [done| |by apply Hall].
    by apply negb_true_iff in Hh.
  - destruct Hnot. apply forallb_forall. intros h Hin.
    destruct (eq_null (Js.get r h)) eqn:Eh; [done|].
    assert (existsb (fun h => negb (eq_null (Js.get r h))) kh = true); [|congruence].
    apply existsb_exists. exists h. by rewrite Eh.
Qed.

Lemma plainKey_not_null kh (r : RowRecord) :
  plainKey kh r = true →
  recordKey kh r ≠ Some (JSON_stringify (replicate (length kh) JsNull)).
Proof.
  intros Hp (h & Hin & Hn & Hj)%null_key_record.
  unfold plainKey in Hp. rewrite forallb_forall in Hp.
  apply list_elem_of_In, Hp in Hin. rewrite Hj in Hin. congruence.
Qed.

Lemma getRowByKey_values st kh (keys : list RowRecordValue) :
  keyHeadersSet (options st) = Some kh → length keys = length kh →
  getRowByKey (inr keys) st
  = (st, Ok (rowByKeyMap st !! JSON_stringify (map of_value keys))).
Proof.
  intros Hkh Hlen. unfold getRowByKey, indexed, getRecordHash. msimpl. rewrite Hkh.
  assert (Hk : keyHeaders (options st) = Some kh).
  { unfold keyHeadersSet in Hkh. by destruct (keyHeaders (options st)) as [[|]|]. }
  rewrite bool_decide_true by eauto. cbn [negb]. cbn beta.
  rewrite Hk. cbn [default]. rewrite Hlen, Nat.eqb_refl. cbn [negb]. cbn beta.
  by rewrite Hkh.
Qed.

(** C5, for [SheetTable].  Absorbing a handle whose key fields are all
    [null] (or [undefined]: absent and not inherited) leaves the index
    as it was.  [getRowByKey] of the all-null key reads the index at
    the text of that key, and a record is filed under that text only
    if one of its key values is not [null] and yet is printed as
    [null] (NaN, an infinity, an invalid date, an inherited function).
    So in every table a caller can hold that was built from records
    without such key values, those loaded from the sheet, those handed
    to [addRecords] and those [setValue] has made, the lookup of the
    all-null key finds nothing, whatever all-null rows the table
    holds. *)
Theorem all_null_key_not_indexed (st : SheetTable.t) (kh : list string) :
  keyHeadersSet (options st) = Some kh →
  let nullKey := JSON_stringify (replicate (length kh) JsNull) in
  (∀ row obj, objects st !! row = Some obj →
     forallb (fun h => eq_null (Js.get (rowRecord obj) h)) kh = true →
     attachRow row st = (touch row st, Ok tt)
     ∧ rowByKeyMap (touch row st) = rowByKeyMap st)
  ∧ getRowByKey (inr (replicate (length kh) Null)) st
    = (st, Ok (rowByKeyMap st !! nullKey))
  ∧ (∀ r : RowRecord, recordKey kh r = Some nullKey →
       ∃ h, h ∈ kh ∧ eq_null (Js.get r h) = false ∧ toJSON (Js.get r h) = JNull)
  ∧ (built (fun r => plainKey kh r = true) st →
     getRowByKey (inr (replicate (length kh) Null)) st = (st, Ok None)).
Proof.
  intros Hkh nullKey.
  assert (Hget : getRowByKey (inr (replicate (length kh) Null)) st
                 = (st, Ok (rowByKeyMap st !! nullKey))).
  { rewrite (getRowByKey_values st kh) by (by rewrite ?length_replicate).
    unfold nullKey. do 4 f_equal.
    induction (length kh) as [|n IH]; simpl; [done|by rewrite IH]. }
  split_and!.
  - intros row obj Hobj Hnull. rewrite (attachRow_eq _ _ _ Hobj), Hkh.
    apply recordKey_None in Hnull. rewrite Hnull. split; [done|].
    apply rowByKeyMap_touch.
  - exact Hget.
  - apply null_key_record.
  - intros Hb. rewrite Hget. do 2 f_equal.
    destruct (rowByKeyMap st !! nullKey) as [h|] eqn:Hidx; [|done].
    destruct (built_from _ _ Hb kh nullKey h Hkh Hidx) as (r & Hp & Hkey).
    by destruct (plainKey_not_null kh r Hp).
Qed.

Lemma Demo_blanks_new :
  SheetTable.new (mkApp (Demo.sheets Demo.blankKeys) ∅) "Sheet1" Demo.keyed
  = (objects Demo.blanks, Ok Demo.blanks).
Proof. vm_compute. reflexivity. Qed.

Lemma all_null_key_not_indexed_witness :
  let st := (addRecords [Demo.record Null (Cell (Str "c"))] Demo.blanks).1 in
  keyHeadersSet (options st) = Some ["id"]
  ∧ rows st = [0; 1; 2]
  ∧ Forall (fun obj => recordKey ["id"] (rowRecord obj) = None) (objects st)
  ∧ getRowByKey (inr [Null]) st = (st, Ok None).
Proof.
  intros st. split; [reflexivity|]. split; [vm_compute; reflexivity|].
  split; [repeat constructor|].
  refine (proj2 (proj2 (proj2 (all_null_key_not_indexed st ["id"] eq_refl))) _).
  apply built_addRecords.
  - eapply built_new; [exact Demo_blanks_new|]. repeat constructor.
  - reflexivity.
  - repeat constructor.
Defined.

(** A row whose key is NaN is filed under the all-null key in
    [SheetTable], and [getRowByKey(null)] returns it; [SheetObject]
    files rows with an empty key cell like any other, so that two of
    them collide. *)
Lemma null_key_lookup_finds_a_row :
  (let out := addRecords [Demo.record (Cell (Num NaN)) (Cell (Str "c"))] Demo.store in
   out.2 = Ok [2]
   ∧ getRowByKey (inl Null) out.1 = (out.1, Ok (Some 2)))
  ∧ SheetObject.new (Demo.sheets Demo.blankKeys) "Sheet1" Demo.params
    = Throw (DuplicateKey "Sheet1" ["id"] 2 3).
Proof. vm_compute. split_and!; done. Qed.

(** ** Absorbing a handle into the index *)

Lemma addToIndex_eq (so : SheetObject.t) (r : SheetObject.SheetRowObj) :
  SheetObject.addToIndex r so
  = match SheetObject.rowsByKeysMap so !! SheetObject.getRowKey so r with
    | Some existRow =>
        (so, Throw (DuplicateKey (SheetObject.sheetName so)
                      (default [] (SheetObject.keyHeaders so))
                      (SheetObject.LineSymbol existRow) (SheetObject.LineSymbol r)))
    | None =>
        (SheetObject.set_rowsByKeysMap
           (<[SheetObject.getRowKey so r := r]> (SheetObject.rowsByKeysMap so)) so,
         Ok tt)
    end.
Proof.
  unfold SheetObject.addToIndex. msimpl.
  by destruct (SheetObject.rowsByKeysMap so !! SheetObject.getRowKey so r).
Qed.

Lemma index_exact_unique st kh h1 h2 o1 o2 key :
  index_exact st → keyHeadersSet (options st) = Some kh →
  objects st !! h1 = Some o1 → objects st !! h2 = Some o2 →
  recordKey kh (rowRecord o1) = Some key → recordKey kh (rowRecord o2) = Some key →
  h1 = h2.
Proof.
  intros Hex Hkh H1 H2 K1 K2.
  pose proof (Hex _ _ _ _ Hkh H1 K1) as E1.
  pose proof (Hex _ _ _ _ Hkh H2 K2) as E2. congruence.
Qed.

(** C1, as the code has it.  For a handle with a key, in an indexed
    [SheetTable]: a new handle whose key the index holds is refused
    with the error that names the line of the holder and its own line,
    and the index stays as it was, while the handle stays in the row
    set; a new handle whose key is free is filed under it; a handle
    that is already attached is never refused: its key is mapped to
    it, whatever handle held that key.  In [SheetObject] a row whose
    key the index holds is always refused.  In a table made by the
    constructor and by calls of [addRecords] that all returned, the
    index holds every handle that has a key, under its key, and only
    these: so no two handles of the table have the same key.  Nothing
    of the kind is stated of a table on which [addRecords] has thrown
    or [setValue] has run. *)
Theorem absorb_new_or_attached (st : SheetTable.t) kh :
  keyHeadersSet (options st) = Some kh →
  (∀ row obj key,
     objects st !! row = Some obj → recordKey kh (rowRecord obj) = Some key →
     (row ∉ rows st → ∀ e eobj,
        rowByKeyMap st !! key = Some e → objects st !! e = Some eobj →
        attachRow row st
        = (touch row st,
           Throw (DuplicateKey (sheetName st) kh (rowLine eobj) (rowLine obj)))
        ∧ rowByKeyMap (touch row st) = rowByKeyMap st
        ∧ rows (touch row st) = rows st ++ [row])
     ∧ (row ∉ rows st → rowByKeyMap st !! key = None →
        attachRow row st
        = (set_rowByKeyMap (<[key := row]> (rowByKeyMap st)) (touch row st), Ok tt))
     ∧ (row ∈ rows st →
        attachRow row st
        = (set_rowByKeyMap (<[key := row]> (rowByKeyMap st)) st, Ok tt)))
  ∧ (∀ (so : SheetObject.t) r existRow,
       SheetObject.rowsByKeysMap so !! SheetObject.getRowKey so r = Some existRow →
       SheetObject.addToIndex r so
       = (so, Throw (DuplicateKey (SheetObject.sheetName so)
                       (default [] (SheetObject.keyHeaders so))
                       (SheetObject.LineSymbol existRow) (SheetObject.LineSymbol r))))
  ∧ (loaded st →
     rows st = seq 0 (length (objects st))
     ∧ (∀ h obj key,
          objects st !! h = Some obj → recordKey kh (rowRecord obj) = Some key →
          rowByKeyMap st !! key = Some h)
     ∧ (∀ key h, rowByKeyMap st !! key = Some h →
          ∃ obj, objects st !! h = Some obj ∧ recordKey kh (rowRecord obj) = Some key)
     ∧ (∀ h1 h2 o1 o2 key,
          objects st !! h1 = Some o1 → objects st !! h2 = Some o2 →
          recordKey kh (rowRecord o1) = Some key →
          recordKey kh (rowRecord o2) = Some key → h1 = h2)).
Proof.
  intros Hkh. split_and!.
  - intros row obj key Hobj Hkey.
    rewrite (attachRow_eq _ _ _ Hobj), Hkh, Hkey. split_and!.
    + intros Hnew e eobj He Heobj. rewrite He, bool_decide_false, Heobj by done.
      split; [done|]. split; [apply rowByKeyMap_touch|].
      unfold touch. by rewrite bool_decide_false.
    + intros Hnew Hnone. by rewrite Hnone.
    + intros Hin. destruct (rowByKeyMap st !! key).
      * by rewrite bool_decide_true.
      * unfold touch. by rewrite bool_decide_true.
  - intros so r existRow He. by rewrite addToIndex_eq, He.
  - intros (Hok & _ & _ & _ & Hex & Hso)%loaded_ok. split_and!.
    + apply Hok.
    + intros h obj key. by apply Hex.
    + intros key h. by apply Hso.
    + intros h1 h2 o1 o2 key. by apply index_exact_unique.
Qed.

Lemma absorb_new_or_attached_witness :
  keyHeadersSet (options Demo.store) = Some ["id"]
  ∧ objects Demo.store !! 0
    = Some (mkSheetRow (Demo.record (Cell (Demo.num N1)) (Cell (Str "a"))) 2)
  ∧ recordKey ["id"] (Demo.record (Cell (Demo.num N1)) (Cell (Str "a"))) = Some "[1]"
  ∧ attachRow 0 Demo.store
    = (set_rowByKeyMap (<["[1]" := 0]> (rowByKeyMap Demo.store)) Demo.store, Ok tt)
  ∧ loaded Demo.store
  ∧ rowByKeyMap Demo.store !! "[1]" = Some 0.
Proof.
  assert (H3 : recordKey ["id"] (Demo.record (Cell (Demo.num N1)) (Cell (Str "a")))
               = Some "[1]") by (vm_compute; reflexivity).
  assert (Hl : loaded Demo.store) by (eapply loaded_new; exact Demo_store_new).
  pose proof (absorb_new_or_attached Demo.store ["id"] eq_refl) as (Hrow & _ & Huniq).
  split; [reflexivity|]. split; [reflexivity|]. split; [exact H3|]. split_and!.
  - refine (proj2 (proj2 (Hrow 0 _ "[1]" eq_refl H3)) _). by left.
  - exact Hl.
  - exact (proj1 (proj2 (Huniq Hl)) 0 _ "[1]" eq_refl H3).
Defined.

(** The key [[1]] is held by the row of line 2; attaching again the row
    of line 3, whose id has become 1, does not fail and maps the key to
    it.  This is the state [setValue] leaves: two handles of the row
    set have the key [[1]]. *)
Lemma reabsorb_overwrites_other_handle :
  objects Demo.updated !! 1
  = Some (mkSheetRow (Demo.record (Cell (Demo.num N1)) (Cell (Str "b"))) 3)
  ∧ 1 ∈ rows Demo.updated
  ∧ recordKey ["id"] (Demo.record (Cell (Demo.num N1)) (Cell (Str "b"))) = Some "[1]"
  ∧ rowByKeyMap Demo.updated !! "[1]" = Some 0
  ∧ (attachRow 1 Demo.updated).2 = Ok tt
  ∧ rowByKeyMap (attachRow 1 Demo.updated).1 !! "[1]" = Some 1
  ∧ (setValue 1 "id" (Cell (Demo.num N1)) Demo.store).1 = (attachRow 1 Demo.updated).1
  ∧ recordKey ["id"] <$> (rowRecord <$> objects (attachRow 1 Demo.updated).1)
    = [Some "[1]"; Some "[1]"].
Proof.
  split_and!; try (vm_compute; reflexivity).
  apply list_elem_of_In. simpl. tauto.
Qed.

(** ** Appending records *)

Lemma getLastRow_written_short st records r :
  grid_ok st → last records = Some r →
  existsb hasContent (encodedRow (headers st) r) = false →
  getLastRow (written st records) < lastRow st + length records.
Proof.
  intros Hg Hlast Hc.
  assert (Hlen : 0 < length records) by (destruct records; [done|simpl; lia]).
  assert (getLastRow (written st records) ≤ lastRow st + length records - 1); [|lia].
  apply getLastRow_le. intros i j Hi. rewrite cell_written.
  pose proof (extent _ Hg) as Hext.
  destruct (records !! (i - lastRow st)) as [r'|] eqn:E.
  2:{ apply getLastRow_blank. lia. }
  case_decide as Hd; [|apply getLastRow_blank; lia].
  pose proof (lookup_lt_Some _ _ _ E) as Hlt.
  rewrite last_lookup in Hlast.
  replace (i - lastRow st) with (pred (length records)) in E by lia.
  assert (r' = r) as -> by congruence.
  apply hasContent_false, not_true_is_false. intros Hj.
  assert (existsb hasContent (encodedRow (headers st) r) = true); [|congruence].
  apply existsb_hasContent. eauto.
Qed.

(** The cached range stays in step with the counter of the last row
    as long as the sheet is not read again by [getSheetRange(true)]. *)
Lemma in_step_kept st :
  heap_ok st → grid_ok st → in_step st →
  (∀ records, in_step (addRecords records st).1)
  ∧ (∀ row header value, in_step (setValue row header value st).1)
  ∧ in_step (getSheetRange false st).1.
Proof.
  intros Hok Hg Hin. split_and!.
  - intros records.
    destruct (addRecords_cases st records Hok Hg) as [->|(_ & _ & ->)]; [done|].
    destruct (createRows_frame (appended st records) records (cachedRows st) 0)
      as (k & idx & ->).
    apply in_step_appended.
  - intros row header value.
    pose proof (setValue_split st row header value Hok Hg) as H.
    destruct (objects st !! row) as [obj|] eqn:Hobj; [|by rewrite H].
    destruct (Map_get header (headerColumn st)) as [c|]; [|by rewrite H].
    destruct (Range_getCell _ (rowLine obj) c) as [target|] eqn:Ht; [|by rewrite H].
    rewrite H. cbn [fst].
    by destruct (afterSetValue_fields st row obj header value target) as (idx & -> & _).
  - by rewrite getSheetRange_eq.
Qed.

(** C6, as the code has it.  On a table a caller can hold, a batch of
    records that is not empty, gives a cell value, [null] or
    [undefined] under every header, and has no key that the index or an
    earlier record of the batch holds, is appended: the encoded rows
    are written as one block under the row [lastRow] of the table and
    nothing else is written; a handle is made for each record, in the
    order of the batch, with the lines that follow the rows of the
    cached range, which are the rows written when the range is in step
    with [lastRow]; the counter [lastRow] is read again from the sheet:
    it is the end of the block when the last record has a value that
    is not empty, and is less when the last record is written as an
    empty row. *)
Theorem addRecords_appends (st : SheetTable.t) (records : list RowRecord) :
  reachable st → records ≠ [] →
  forallb (storable (headers st)) records = true →
  (∀ kh, keyHeadersSet (options st) = Some kh →
         batch_fresh kh (rowByKeyMap st) records) →
  let n := length (objects st) in
  let m := length records in
  ∃ st',
    addRecords records st = (st', Ok (seq n m))
    ∧ (∀ k r j, records !! k = Some r → j < length (headers st) →
         cell (cells (sheet st')) (lastRow st + k) j
         = default (Str "") (encodedRow (headers st) r !! j))
    ∧ (∀ i j, i < lastRow st ∨ lastRow st + m ≤ i ∨ length (headers st) ≤ j →
         cell (cells (sheet st')) i j = cell (cells (sheet st)) i j)
    ∧ lastRow st' = getLastRow (cells (sheet st'))
    ∧ lastRow st' ≤ lastRow st + m
    ∧ (∀ r, last records = Some r →
         existsb hasContent (encodedRow (headers st) r) = true →
         lastRow st' = lastRow st + m)
    ∧ (∀ r, last records = Some r →
         existsb hasContent (encodedRow (headers st) r) = false →
         lastRow st' < lastRow st + m)
    ∧ (∀ k r, records !! k = Some r →
         objects st' !! (n + k) = Some (mkSheetRow r (cachedRows st + k + 1)))
    ∧ (in_step st → ∀ k r, records !! k = Some r →
         objects st' !! (n + k) = Some (mkSheetRow r (lastRow st + k + 1)))
    ∧ length (objects st') = n + m
    ∧ rows st' = rows st ++ seq n m
    ∧ in_step st'.
Proof.
  intros Hreach Hne Hst Hfresh n m.
  destruct (reachable_ok _ Hreach) as (Hok & Hg & _).
  pose proof (addRecords_outcome st records Hok Hg Hne Hst) as Hrun.
  assert (Hout : ∃ idx,
    createRows_outcome (appended st records) records (cachedRows st) 0
    = (with_rows (appended st records)
         (objects st ++ newObjects records (cachedRows st) 0) idx, Ok (seq n m))).
  { unfold createRows_outcome. cbn [appended options set_lastRow set_range set_sheet
      objects rowByKeyMap].
    destruct (keyHeadersSet (options st)) as [kh|] eqn:Hkh; [|eauto].
    apply (firstConflict_None kh records (rowByKeyMap st) n) in Hfresh; [|done].
    fold n. rewrite Hfresh. eauto. }
  destruct Hout as [idx Hout]. rewrite Hout in Hrun.
  assert (Hobj : ∀ k r, records !! k = Some r →
    (objects st ++ newObjects records (cachedRows st) 0) !! (n + k)
    = Some (mkSheetRow r (cachedRows st + k + 1))).
  { intros k r Hk. rewrite lookup_app_r by (fold n; lia).
    fold n. replace (n + k - n) with k by lia.
    rewrite lookup_newObjects, Hk. cbn. done. }
  eexists. split; [exact Hrun|].
  cbn [with_rows set_rowByKeyMap set_rows set_objects appended set_lastRow set_range
       set_sheet sheet cells lastRow objects rows].
  split_and!.
  - intros k r j. apply cell_written_block.
  - intros i j. apply cell_written_outside.
  - done.
  - by apply getLastRow_written_le.
  - intros r. by apply getLastRow_written_full.
  - intros r. by apply getLastRow_written_short.
  - exact Hobj.
  - intros Hin k r Hk. rewrite <- Hin. by apply Hobj.
  - rewrite length_app, length_newObjects. done.
  - rewrite length_app, length_newObjects. fold n m.
    rewrite (rows_all _ Hok). fold n. by rewrite seq_app.
  - done.
Qed.

Lemma Demo_batch_fresh kh :
  keyHeadersSet (options Demo.store) = Some kh →
  batch_fresh kh (rowByKeyMap Demo.store)
    [Demo.record (Cell (Demo.num N3)) (Cell (Str "c"))].
Proof.
  intros [= <-]. apply (firstConflict_None _ _ _ 2). vm_compute. reflexivity.
Qed.

Lemma addRecords_appends_witness :
  reachable Demo.store
  ∧ ∃ st',
      addRecords [Demo.record (Cell (Demo.num N3)) (Cell (Str "c"))] Demo.store
      = (st', Ok [2])
      ∧ lastRow st' = 4
      ∧ objects st' !! 2
        = Some (mkSheetRow (Demo.record (Cell (Demo.num N3)) (Cell (Str "c"))) 4).
Proof.
  split; [exact Demo_store_reachable|].
  destruct (addRecords_appends Demo.store
              [Demo.record (Cell (Demo.num N3)) (Cell (Str "c"))]
              Demo_store_reachable ltac:(discriminate) eq_refl Demo_batch_fresh)
    as (st' & Hrun & _ & _ & _ & _ & Hfull & _ & Hobj & _).
  exists st'. split; [exact Hrun|]. split.
  - apply (Hfull _ eq_refl). vm_compute. reflexivity.
  - apply (Hobj 0 _ eq_refl).
Defined.

(** A record without a value is written as an empty row: the handle is
    made at line 4, and the counter of the last row stays at 3. *)
Lemma blank_record_does_not_advance :
  let out := addRecords [literal ∅] Demo.store in
  lastRow Demo.store = 3
  ∧ out.2 = Ok [2]
  ∧ rowLine <$> objects out.1 !! 2 = Some 4
  ∧ lastRow out.1 = 3.
Proof. vm_compute. split_and!; done. Qed.

(** X12: once the last row of the sheet is blanked through its handle and
    the range is read again, the range has a row less than the counter
    [lastRow]: the next record is written to row 4 of the sheet, and
    its handle has the line 3, the line of the blanked row. *)
Example forced_reread_shifts_lines :
  let st1 := (setValue 1 "id" Null Demo.store).1 in
  let st2 := (setValue 1 "name" Null st1).1 in
  let st3 := (getSheetRange true st2).1 in
  let out := addRecords [Demo.record (Cell (Demo.num N3)) (Cell (Str "c"))] st3 in
  cachedRows st3 = 2 ∧ lastRow st3 = 3
  ∧ out.2 = Ok [2]
  ∧ cells (sheet out.1) !! 3 = Some [Demo.num N3; Str "c"]
  ∧ rowLine <$> objects out.1 !! 2 = Some 3
  ∧ rowLine <$> objects out.1 !! 1 = Some 3.
Proof. vm_compute. split_and!; done. Qed.

(** ** A batch with a duplicate key *)

(** C2, as the code has it.  When [addRecords] on a table a caller can
    hold fails with the duplicate-key error, the encoded rows of all
    the records are in the sheet, under the row [lastRow] of the table;
    the error names the line of the row that holds the key and, for
    the first record that was refused, the line that follows the rows
    of the cached range, which is the row the record was written to
    when the range is in step with [lastRow]; the handles of the
    records before it are attached and indexed; the handle of the
    refused record is made and is in the set of rows, but no key of
    the index is mapped to it, and its key is still mapped to the row
    that held it; the records after it have no handle. *)
Theorem addRecords_duplicate (st st' : SheetTable.t) (records : list RowRecord)
    name kh le ln :
  reachable st →
  addRecords records st = (st', Throw (DuplicateKey name kh le ln)) →
  let n := length (objects st) in
  ∃ k r key e eobj,
    records !! k = Some r
    ∧ keyHeadersSet (options st) = Some kh ∧ recordKey kh r = Some key
    ∧ name = sheetName st ∧ ln = cachedRows st + k + 1
    ∧ (in_step st → ln = lastRow st + k + 1)
    ∧ (∀ i r' j, records !! i = Some r' → j < length (headers st) →
         cell (cells (sheet st')) (lastRow st + i) j
         = default (Str "") (encodedRow (headers st) r' !! j))
    ∧ (∀ i j, i < lastRow st ∨ lastRow st + length records ≤ i
              ∨ length (headers st) ≤ j →
         cell (cells (sheet st')) i j = cell (cells (sheet st)) i j)
    ∧ rowByKeyMap st' = absorbed kh (rowByKeyMap st) n (take k records)
    ∧ rowByKeyMap st' !! key = Some e ∧ e < n + k
    ∧ objects st' !! e = Some eobj ∧ le = rowLine eobj
    ∧ objects st' !! (n + k) = Some (mkSheetRow r ln)
    ∧ length (objects st') = n + k + 1
    ∧ rows st' = rows st ++ seq n (k + 1)
    ∧ (∀ key' h, rowByKeyMap st' !! key' = Some h → h < n + k).
Proof.
  intros Hreach Hrun n.
  destruct (reachable_ok _ Hreach) as (Hok & Hg & _).
  assert (Hne : records ≠ []).
  { intros ->. by rewrite (addRecords_nil st _ (range_cached _ Hg)) in Hrun. }
  assert (Hst : forallb (storable (headers st)) records = true).
  { destruct (forallb _ records) eqn:E; [done|].
    by rewrite addRecords_unstorable in Hrun. }
  rewrite addRecords_outcome in Hrun by done.
  unfold createRows_outcome in Hrun.
  cbn [appended options set_lastRow set_range set_sheet objects rowByKeyMap sheetName]
    in Hrun.
  destruct (keyHeadersSet (options st)) as [kh'|] eqn:Hkh; [|done].
  fold n in Hrun.
  destruct (firstConflict kh' (rowByKeyMap st) n records) as [[k e]|] eqn:Hfc; [|done].
  injection Hrun as <- <- <- <- <-.
  destruct (firstConflict_Some _ _ _ _ _ _ Hfc) as (r & key & Hr & Hkey & He & _).
  assert (Hbound : ∀ key' h,
            absorbed kh' (rowByKeyMap st) n (take k records) !! key' = Some h → h < n + k).
  { apply absorbed_bound.
    - rewrite length_take. lia.
    - intros key' h Hh. apply (index_in _ Hok) in Hh. fold n in Hh. lia. }
  assert (Hlen : length (objects st ++ newObjects (take (S k) records) (cachedRows st) 0)
                 = n + k + 1).
  { rewrite length_app, length_newObjects, length_take. fold n.
    apply lookup_lt_Some in Hr. lia. }
  pose proof (Hbound _ _ He) as Hlt.
  destruct (lookup_lt_is_Some_2
              (objects st ++ newObjects (take (S k) records) (cachedRows st) 0) e)
    as [eobj Heobj]; [lia|].
  exists k, r, key, e, eobj.
  cbn [with_rows set_rowByKeyMap set_rows set_objects appended set_lastRow set_range
       set_sheet sheet cells lastRow objects rows rowByKeyMap].
  rewrite Heobj. split_and!; try done.
  - intros Hin. by rewrite <- Hin.
  - intros i r' j. apply cell_written_block.
  - intros i j. apply cell_written_outside.
  - rewrite lookup_app_r by (fold n; lia). fold n.
    replace (n + k - n) with k by lia.
    rewrite lookup_newObjects, lookup_take_lt by lia. by rewrite Hr.
  - rewrite Hlen, (rows_all _ Hok). fold n. by rewrite <- Nat.add_assoc, seq_app.
Qed.

Lemma addRecords_duplicate_witness :
  reachable Demo.store
  ∧ (addRecords [Demo.record (Cell (Demo.num N2)) (Cell (Str "c"))] Demo.store).2
    = Throw (DuplicateKey "Sheet1" ["id"] 3 4)
  ∧ ∃ k : nat, 4 = cachedRows Demo.store + k + 1.
Proof.
  split; [exact Demo_store_reachable|]. split; [vm_compute; reflexivity|].
  destruct (addRecords_duplicate Demo.store
              (addRecords [Demo.record (Cell (Demo.num N2)) (Cell (Str "c"))] Demo.store).1
              [Demo.record (Cell (Demo.num N2)) (Cell (Str "c"))]
              "Sheet1" ["id"] 3 4 Demo_store_reachable)
    as (k & _ & _ & _ & _ & _ & _ & _ & _ & Hln & _).
  - vm_compute. reflexivity.
  - by exists k.
Defined.

(** The record with the id 2 is refused, its row is in the sheet at
    line 4, the key [[2]] is still mapped to the row of line 3: and the
    handle of line 4 is in the set of rows of the table. *)
Lemma failing_handle_stays_in_rows :
  let out := addRecords [Demo.record (Cell (Demo.num N2)) (Cell (Str "c"))] Demo.store in
  out.2 = Throw (DuplicateKey "Sheet1" ["id"] 3 4)
  ∧ cells (sheet out.1) !! 3 = Some [Demo.num N2; Str "c"]
  ∧ rowByKeyMap out.1 !! "[2]" = Some 1
  ∧ getRows out.1 = [0; 1; 2]
  ∧ objects out.1 !! 2
    = Some (mkSheetRow (Demo.record (Cell (Demo.num N2)) (Cell (Str "c"))) 4).
Proof. vm_compute. split_and!; done. Qed.

(** C7 holds of [SheetTable]: once the sheet is found and its header row
    is frozen, a header row with an empty cell, a cell that is not text
    or a cell that repeats makes the constructor fail with the error of
    one of the defects the row has, and no row is created. *)
Lemma SheetTable_rejects_bad_headers app name o ss sheet rg hs rest :
  openSpreadsheet app o = Ok ss → ss !! name = Some sheet → frozenRows sheet = 1 →
  readSheetRange name sheet = Ok rg →
  Range_getValues (cells sheet) rg = hs :: rest →
  Str "" ∈ hs ∨ (∃ h, h ∈ hs ∧ not_string h = true) ∨ ¬ NoDup hs →
  ∃ e, SheetTable.new app name o = ([], Throw e)
       ∧ ((e = HeadersNotFilled name ∧ Str "" ∈ hs)
          ∨ (e = HeadersNotStrings name ∧ ∃ h, h ∈ hs ∧ not_string h = true)
          ∨ (e = HeadersRepeat name ∧ ¬ NoDup hs)).
Proof.
  intros Hss Hsheet Hfrozen Hrg Hvals Hbad.
  pose proof (headerTest_spec name hs) as Hspec.
  destruct (headerTest name hs) as [e|] eqn:Htest.
  - exists e. split; [|done].
    unfold SheetTable.new, init. rewrite Hss, Hsheet, Hfrozen, Hrg.
    cbn [Nat.eqb Nat.ltb Nat.leb].
    apply readSheetRange_Ok in Hrg as (-> & Hr & Hc).
    unfold Range_getLastRow, Range_getLastColumn. cbn [row column numRows numColumns].
    destruct (getLastRow (cells sheet)) as [|lr]; [lia|].
    destruct (getLastColumn (cells sheet)) as [|lc]; [lia|].
    cbn [Nat.add Nat.sub Nat.eqb orb]. by rewrite Hvals, Htest.
  - destruct Hspec as [Hnd Hstr]. destruct Hbad as [Hin|[(h & Hin & Hh)|Hdup]].
    + destruct (Hstr _ Hin) as (s & [= <-] & Hs). done.
    + destruct (Hstr _ Hin) as (s & -> & _). done.
    + done.
Qed.

(** C7 fails on the first variant: [getSheetRowsAsObjects] returns
    before its header test when the sheet has no data row.  On the
    header row [id, id] alone [SheetObject] is constructed, with that
    header, where [SheetTable] fails with the error of repeated
    headers; with a data row below it [SheetObject] fails too. *)
Theorem SheetObject_header_only_unchecked :
  match SheetObject.new (Demo.sheets Demo.headerOnly) "Sheet1"
          (SheetObject.mkParams None None) with
  | Ok so =>
      SheetObject.header so = [Str "id"; Str "id"] ∧ SheetObject.rows so = []
  | Throw _ => False
  end
  ∧ SheetTable.new (mkApp (Demo.sheets Demo.headerOnly) ∅) "Sheet1"
      (mkOptions None None None)
    = ([], Throw (HeadersRepeat "Sheet1"))
  ∧ SheetObject.new (Demo.sheets (Demo.headerOnly ++ [[Demo.num N1; Demo.num N2]]))
      "Sheet1" (SheetObject.mkParams None None)
    = Throw (HeadersRepeat "Sheet1").
Proof. vm_compute. split_and!; done. Qed.



(** ** The codec of records *)

Lemma decodeCell_encoded (v : RowRecordValue) :
  v ≠ Cell (Str "") → decodeCell (Some (encodeValue v)) = v.
Proof.
  destruct v as [|c]; [done|]. intros Hne. unfold decodeCell, or_null, encodeValue.
  unfold is_empty_text. case_bool_decide as E; [by subst c|done].
Qed.

Lemma cellOf_own (record : RowRecord) h v :
  own record !! h = Some v → cellOf record h = encodeValue v.
Proof. intros Hv. unfold cellOf, Js.get. rewrite Hv. by destruct v. Qed.

(** X11: the round trip, where it holds: on a schema without the header
    [__proto__], a record made by an object literal whose own fields
    are the headers, none of them with the empty text as its value, is
    encoded as a row of cell values, and decoding that row gives the
    record back. *)
Lemma codec_roundtrip_plain headers (fields : gmap string RowRecordValue) :
  "__proto__" ∉ headers →
  dom fields = list_to_set headers →
  (∀ h, fields !! h ≠ Some (Cell (Str ""))) →
  mapM asCell (getValues headers (literal fields))
  = Some (encodedRow headers (literal fields))
  ∧ loadRecord (buildHeaderColumn headers) (encodedRow headers (literal fields))
    = literal fields.
Proof.
  intros Hproto Hdom Hne.
  assert (Hown : ∀ h, h ∈ headers → ∃ v, fields !! h = Some v).
  { intros h Hh. apply elem_of_dom. by rewrite Hdom, elem_of_list_to_set. }
  split.
  - rewrite asCell_getValues.
    assert (storable headers (literal fields) = true) as ->; [|done].
    unfold storable. apply forallb_forall.
    intros h Hh%list_elem_of_In. destruct (Hown h Hh) as [v Hv].
    unfold Js.get. cbn. rewrite Hv. by destruct v.
  - pose proof (buildHeaderColumn_NoDup headers) as Hnd.
    pose proof (loadRecord_own (buildHeaderColumn headers)
                  (encodedRow headers (literal fields))) as Ho.
    pose proof (loadRecord_proto (buildHeaderColumn headers)
                  (encodedRow headers (literal fields)) Hnd) as Hp.
    destruct (loadRecord _ _) as [o p]. cbn in Ho, Hp. unfold literal. f_equal.
    + apply map_eq. intros h. rewrite (Ho h Hnd).
      pose proof (buildHeaderColumn_get headers h) as Hh.
      case_bool_decide as E.
      { subst h. symmetry. apply not_elem_of_dom. by rewrite Hdom, elem_of_list_to_set. }
      destruct (Map_get h (buildHeaderColumn headers)) as [c|].
      * destruct Hh as [Hc Hh]. rewrite (encodedRow_lookup _ _ _ _ Hh).
        destruct (Hown h) as [v Hv]; [by eapply list_elem_of_lookup_2|].
        rewrite (cellOf_own (literal fields) h v Hv), Hv. f_equal.
        apply decodeCell_encoded. intros ->. by destruct (Hne h).
      * symmetry. apply not_elem_of_dom. by rewrite Hdom, elem_of_list_to_set.
    + rewrite Hp. pose proof (buildHeaderColumn_get headers "__proto__") as Hh.
      destruct (Map_get "__proto__" (buildHeaderColumn headers)) as [c|]; [|done].
      destruct Hh as [_ Hh]. destruct Hproto. by eapply list_elem_of_lookup_2.
Qed.

Lemma codec_roundtrip_plain_witness :
  let fields : gmap string RowRecordValue :=
    {[ "id" := Cell (Demo.num N1); "name" := Null ]} in
  ("__proto__" ∉ ["id"; "name"])
  ∧ mapM asCell (getValues ["id"; "name"] (literal fields))
    = Some [Demo.num N1; Str ""]
  ∧ loadRecord (buildHeaderColumn ["id"; "name"]) [Demo.num N1; Str ""]
    = literal fields.
Proof.
  intros fields.
  assert (H1 : "__proto__" ∉ ["id"; "name"]).
  { intros H. repeat (apply elem_of_cons in H as [H|H]; [done|]).
    by apply elem_of_nil in H. }
  assert (H2 : dom fields = list_to_set ["id"; "name"]) by (vm_compute; reflexivity).
  assert (H3 : ∀ h, fields !! h ≠ Some (Cell (Str ""))).
  { intros h Hh. subst fields.
    destruct (decide (h = "id")); destruct (decide (h = "name")); simplify_map_eq. }
  split; [exact H1|].
  exact (codec_roundtrip_plain ["id"; "name"] fields H1 H2 H3).
Defined.

(** C4 fails on headers that name a member of [Object.prototype].
    Under the header [__proto__] no row is decoded to a record that
    has the field: [rowRecord[key] = val] runs the setter of the
    prototype, so the record with the own fields [__proto__: "x"] and
    [a: "y"], encoded as the row [x, y], is decoded as [{a: "y"}].  Under
    the header [constructor] a record without the field is not encoded
    with the empty text: [record[h]] reads the function the record
    inherits, and the row is not a row of cell values. *)
Theorem codec_breaks_on_prototype_names :
  let hs := ["__proto__"; "a"] in
  let record := spread_with (literal {[ "a" := Cell (Str "y") ]}) "__proto__"
                  (Cell (Str "x")) in
  (dom (own record) = list_to_set hs
   ∧ own record !! "__proto__" = Some (Cell (Str "x"))
   ∧ mapM asCell (getValues hs record) = Some [Str "x"; Str "y"]
   ∧ loadRecord (buildHeaderColumn hs) [Str "x"; Str "y"]
     = literal {[ "a" := Cell (Str "y") ]}
   ∧ loadRecord (buildHeaderColumn hs) [Str "x"; Str "y"] ≠ record)
  ∧ (∀ headers row,
       own (loadRecord (buildHeaderColumn headers) row) !! "__proto__" = None)
  ∧ (getValues ["constructor"; "a"] (literal {[ "a" := Null ]})
     = [JsFunction; JsCell (Str "")]
     ∧ mapM asCell (getValues ["constructor"; "a"] (literal {[ "a" := Null ]})) = None)
  ∧ (∀ headers (r : RowRecord) i,
       headers !! i = Some "constructor" →
       own r !! "constructor" = None → proto r = ObjectPrototype →
       getValues headers r !! i = Some JsFunction).
Proof.
  intros hs record. split_and!; try (vm_compute; reflexivity).
  - intros H. apply (f_equal (fun r => own r !! "__proto__")) in H.
    vm_compute in H. discriminate H.
  - intros headers row.
    by rewrite (loadRecord_own _ _ _ (buildHeaderColumn_NoDup headers)).
  - intros headers r i Hi Hown Hproto.
    rewrite (getValues_lookup _ _ _ _ Hi). unfold Js.get. rewrite Hown, Hproto.
    by vm_compute.
Qed.

(** ** The table the constructor returns *)

Lemma loadRecord_get hc row h :
  NoDup (Map_keys hc) → h ≠ "__proto__" →
  Js.get (loadRecord hc row) h
  = match Map_get h hc with
    | Some c => of_value (decodeCell (row !! (c - 1)))
    | None => inherited (proto (loadRecord hc row)) h
    end.
Proof.
  intros Hnd Hne. unfold Js.get. rewrite (loadRecord_own _ _ _ Hnd).
  rewrite bool_decide_false by done. by destruct (Map_get h hc).
Qed.

(** X1: the table the constructor returns mirrors the sheet.  Its
    headers are the texts of the first row; it has one row handle for
    each row of the sheet under the header row, in the order of the
    sheet, the handle [i] at the line [i + 2]; the value of a header
    other than [__proto__] in a row is the cell of the sheet in that
    line and in the column of the header, an empty cell being read as
    [null]; when no header is [__proto__], a field that is not a
    header reads as what an empty object literal has under the name. *)
Theorem constructor_loads_rows app name o objs st :
  SheetTable.new app name o = (objs, Ok st) →
  let g := cells (sheet st) in
  (∃ ss, openSpreadsheet app o = Ok ss ∧ ss !! name = Some (sheet st))
  ∧ lastRow st = getLastRow g
  ∧ length (headers st) = getLastColumn g
  ∧ (∀ j h, headers st !! j = Some h → cell g 0 j = Str h)
  ∧ getRows st = seq 0 (getLastRow g - 1)
  ∧ ∀ i, i < getLastRow g - 1 →
      getLine i st = (st, Ok (i + 2))
      ∧ (∀ j h, headers st !! j = Some h → h ≠ "__proto__" →
           getValue i h st
           = (st, Ok (if is_empty_text (cell g (S i) j) then JsNull
                      else JsCell (cell g (S i) j))))
      ∧ ("__proto__" ∉ headers st →
         ∀ h, h ∉ headers st → getValue i h st = (st, Ok (Js.get (literal ∅) h))).
Proof.
  intros Hnew g.
  pose proof (new_schema_ok _ _ _ _ _ Hnew) as Hschema.
  pose proof (new_header_row _ _ _ _ _ Hnew) as Hhead.
  pose proof (new_spec _ _ _ _ _ Hnew) as (st0 & recs & idx & Hinit & Hst & _).
  apply init_spec in Hinit
    as (ss & s & Hss & Hs & _ & Hr & Hc & Ht & _ & Hst0 & Hrecs).
  assert (Hsheet : sheet st = s) by (by rewrite Hst, Hst0).
  assert (Hg : g = cells s) by (subst g; by rewrite Hsheet).
  assert (Hhs : headers st = map keyof (sheetRow g 0 (getLastColumn g))).
  { by rewrite Hg, Hst, Hst0. }
  assert (Hlen : length (headers st) = getLastColumn g).
  { by rewrite Hhs, length_map, length_sheetRow. }
  assert (Hobjs : objects st = newObjects recs 1 0) by (by rewrite Hst).
  assert (Hnrec : length recs = getLastRow g - 1).
  { by rewrite Hrecs, length_map, length_seq, Hg. }
  assert (Hnd : NoDup (Map_keys (headerColumn st))).
  { rewrite (columns_built _ Hschema). apply buildHeaderColumn_NoDup. }
  split_and!.
  - exists ss. by rewrite Hsheet.
  - by rewrite Hg, Hst, Hst0.
  - done.
  - exact Hhead.
  - unfold getRows. rewrite Hst. cbn. by rewrite length_newObjects, Hnrec.
  - intros i Hi.
    assert (Hobj : objects st !! i
              = Some (mkSheetRow (loadRecord (headerColumn st)
                                    (sheetRow g (S i) (getLastColumn g))) (i + 2))).
    { rewrite Hobjs, lookup_newObjects, Hrecs, list_lookup_fmap, lookup_seq_lt
        by (rewrite <- Hg; lia).
      cbn. rewrite Hst, Hst0, Hg. cbn. do 2 f_equal. lia. }
    split_and!.
    + unfold getLine, deref. msimpl. by rewrite Hobj.
    + intros j h Hj Hne. unfold getValue. msimpl. rewrite Hobj. cbn.
      rewrite (loadRecord_get _ _ _ Hnd Hne), (schema_column _ _ _ Hschema Hj).
      replace (j + 1 - 1) with j by lia.
      rewrite sheetRow_lookup by (rewrite <- Hlen; by eapply lookup_lt_Some).
      unfold decodeCell, or_null. by destruct (is_empty_text _).
    + intros Hproto h Hh. unfold getValue. msimpl. rewrite Hobj. cbn.
      pose proof (loadRecord_proto (headerColumn st)
                    (sheetRow g (S i) (getLastColumn g)) Hnd) as Hp.
      rewrite (schema_no_column _ _ Hschema Hproto) in Hp.
      unfold Js.get at 1. rewrite (loadRecord_own _ _ _ Hnd), Hp.
      rewrite (schema_no_column _ _ Hschema Hh).
      unfold Js.get. cbn. rewrite lookup_empty. by case_bool_decide.
Qed.

Lemma constructor_loads_rows_witness :
  SheetTable.new Demo.app "Sheet1" Demo.keyed = (objects Demo.store, Ok Demo.store)
  ∧ getRows Demo.store = [0; 1]
  ∧ getLine 1 Demo.store = (Demo.store, Ok 3)
  ∧ getValue 1 "name" Demo.store = (Demo.store, Ok (JsCell (Str "b"))).
Proof.
  pose proof (constructor_loads_rows _ _ _ _ _ Demo_store_new)
    as (_ & _ & _ & _ & Hrows & Hrow).
  split; [exact Demo_store_new|]. split; [exact Hrows|].
  destruct (Hrow 1) as (Hline & Hval & _); [vm_compute; lia|].
  split; [exact Hline|]. exact (Hval 1 "name" eq_refl ltac:(discriminate)).
Defined.

(** ** Looking a key up *)

Lemma keyed_exists kh (r : RowRecord) :
  forallb (fun h => eq_null (Js.get r h)) kh = false
  ↔ ∃ k, k ∈ kh ∧ eq_null (Js.get r k) = false.
Proof.
  rewrite <- not_true_iff_false, forallb_forall. split.
  - intros Hn. destruct (existsb (fun k => negb (eq_null (Js.get r k))) kh) eqn:E.
    + apply existsb_exists in E as (k & Hin & Hk). exists k.
      split; [by apply list_elem_of_In|]. by destruct (eq_null _).
    + exfalso. apply Hn. intros k Hin.
      destruct (eq_null (Js.get r k)) eqn:Ek; [done|].
      assert (existsb (fun k => negb (eq_null (Js.get r k))) kh = true); [|congruence].
      apply existsb_exists. exists k. by rewrite Ek.
  - intros (k & Hin & Hk) Hf. apply list_elem_of_In in Hin.
    specialize (Hf k Hin). congruence.
Qed.

(** X2: on a table made by the constructor and by appends that return,
    looking a key up never fails once it has as many values as the table
    has key headers, and it finds the handle [h] exactly when the row of
    [h] has a key (its key fields are not all [null]) whose values read
    as the values of the looked-up key do in JSON.  So every row with a
    key is found by its key values, an absent key gives no handle, and
    no two rows are found by the same key. *)
Theorem getRowByKey_loaded st kh (vs : list RowRecordValue) :
  loaded st → keyHeadersSet (options st) = Some kh → length vs = length kh →
  ∃ r, getRowByKey (inr vs) st = (st, Ok r)
       ∧ ∀ h, r = Some h ↔
           ∃ obj, objects st !! h = Some obj
                  ∧ (∃ k, k ∈ kh ∧ eq_null (Js.get (rowRecord obj) k) = false)
                  ∧ map toJSON (map (fun k => Js.get (rowRecord obj) k) kh)
                    = map toJSON (map of_value vs).
Proof.
  intros Hl Hkh Hlen.
  destruct (loaded_ok _ Hl) as (Hok & Hg & _ & _ & Hex & Hso).
  exists (rowByKeyMap st !! JSON_stringify (map of_value vs)). split.
  - by apply (getRowByKey_values st kh).
  - intros h. split.
    + intros Hidx. destruct (Hso _ _ _ Hkh Hidx) as (obj & Hobj & Hkey).
      apply recordKey_Some in Hkey as [Hnn Hkey].
      exists obj. split_and!; [done|by apply keyed_exists|].
      apply JSON_stringify_eq in Hkey; [done|]. by rewrite !length_map.
    + intros (obj & Hobj & Hnn & Hjson).
      apply (Hex kh h obj); [done..|].
      apply recordKey_Some. split; [by apply keyed_exists|].
      symmetry. apply JSON_stringify_eq; [|done]. by rewrite !length_map.
Qed.

Lemma getRowByKey_loaded_witness :
  loaded Demo.store ∧ keyHeadersSet (options Demo.store) = Some ["id"]
  ∧ getRowByKey (inr [Cell (Demo.num N2)]) Demo.store = (Demo.store, Ok (Some 1))
  ∧ getRowByKey (inr [Cell (Demo.num N7)]) Demo.store = (Demo.store, Ok None).
Proof.
  split; [exact Demo_store_loaded|]. split; [reflexivity|].
  destruct (getRowByKey_loaded Demo.store ["id"] [Cell (Demo.num N2)]
              Demo_store_loaded eq_refl eq_refl) as (r & Hrun & _).
  split; [|reflexivity]. rewrite Hrun.
  assert (Some 1 = r) as <-; [|reflexivity].
  transitivity (match getRowByKey (inr [Cell (Demo.num N2)]) Demo.store with
                | (_, Ok x) => x
                | _ => None
                end); [reflexivity|by rewrite Hrun].
Defined.

(** ** Invariants of the tables a caller can hold *)

Lemma reachable_rows st h :
  reachable st → h ∈ getRows st ↔ is_Some (objects st !! h).
Proof.
  intros (Hok & _)%reachable_ok. unfold getRows.
  rewrite (rows_all _ Hok), elem_of_seq, lookup_lt_is_Some. lia.
Qed.

(** X3: what holds of every table a caller can hold, made by the
    constructor and changed by [addRecords], [setValue] and
    [getSheetRange] in any order, whether they returned or threw.
    [getRows] gives every handle ever created, in the order of
    creation; the index points at such handles only; every handle has
    a line under the header row; the cached range is a rectangle from
    the first cell, of at least the header row and at most [lastRow]
    rows, and as many columns as there are headers; the sheet has no
    content under the row [lastRow] nor to the right of the headers;
    the headers are distinct and stand in the first row of the
    sheet. *)
Theorem reachable_table_invariants st :
  reachable st →
  getRows st = seq 0 (length (objects st))
  ∧ (∀ key h, rowByKeyMap st !! key = Some h → h ∈ getRows st)
  ∧ (∀ h, h ∈ getRows st → ∃ line, getLine h st = (st, Ok line) ∧ 2 ≤ line)
  ∧ getSheetRange false st
    = (st, Ok (mkRange 1 1 (cachedRows st) (length (headers st))))
  ∧ 1 ≤ cachedRows st ≤ lastRow st
  ∧ getLastRow (cells (sheet st)) ≤ lastRow st
  ∧ getLastColumn (cells (sheet st)) = length (headers st)
  ∧ NoDup (headers st)
  ∧ (∀ j h, headers st !! j = Some h → cell (cells (sheet st)) 0 j = Str h).
Proof.
  intros Hr. destruct (reachable_ok _ Hr) as (Hok & Hg & Hl).
  destruct (reachable_schema _ Hr) as (Hs & Hh).
  split_and!.
  - apply (rows_all _ Hok).
  - intros key h Hk. apply (reachable_rows _ _ Hr), lookup_lt_is_Some.
    by apply (index_in _ Hok) in Hk.
  - intros h [obj Hobj]%(reachable_rows _ _ Hr). exists (rowLine obj).
    split; [|by eapply Hl]. unfold getLine, deref. msimpl. by rewrite Hobj.
  - unfold getSheetRange. by rewrite (range_cached _ Hg).
  - apply (cachedRows_pos _ Hg).
  - apply (cachedRows_le _ Hg).
  - apply (extent _ Hg).
  - apply (width _ Hg).
  - apply (headers_nodup _ Hs).
  - exact Hh.
Qed.

Lemma reachable_table_invariants_witness :
  reachable (setValue 1 "id" (Cell (Demo.num N1)) Demo.store).1
  ∧ getRows (setValue 1 "id" (Cell (Demo.num N1)) Demo.store).1 = [0; 1].
Proof.
  assert (Hr : reachable (setValue 1 "id" (Cell (Demo.num N1)) Demo.store).1).
  { apply reach_setValue. exact Demo_store_reachable. }
  split; [exact Hr|].
  destruct (reachable_table_invariants _ Hr) as (Hrows & _).
  rewrite Hrows. reflexivity.
Defined.

(** ** Setting and reading a field *)

(** X4: a value set through a handle is the value read back.  When
    [setValue(header, value)] returns, it returns the handle; the
    record of the handle is the object literal with the own fields of
    the former record and the field set; [getValue(header)] on it then
    gives [value]; the cell of the handle for that header holds the
    value as it is written ([null] as the empty text); the other own
    fields of the row, the records of the other rows, the lines of all
    rows, the row set and the range are as before. *)
Theorem setValue_then_getValue st row header value st' r :
  reachable st → setValue row header value st = (st', Ok r) →
  r = row
  ∧ (∃ record, getRecord row st = (st, Ok record)
       ∧ getRecord row st' = (st', Ok (spread_with record header value))
       ∧ ∀ h v, h ≠ header → own record !! h = Some v →
           getValue row h st' = (st', Ok (of_value v)))
  ∧ getValue row header st' = (st', Ok (of_value value))
  ∧ (∃ target, getCell row header st' = (st', Ok target)
       ∧ Range_getValue (cells (sheet st')) target = encodeValue value)
  ∧ (∀ row', row' ≠ row → getRecord row' st' = (st', (getRecord row' st).2))
  ∧ (∀ row', getLine row' st' = (st', (getLine row' st).2))
  ∧ getRows st' = getRows st
  ∧ getSheetRange false st' = (st', (getSheetRange false st).2).
Proof.
  intros Hr Hrun. destruct (reachable_ok _ Hr) as (Hok & Hg & Hl).
  pose proof (setValue_split st row header value Hok Hg) as H.
  destruct (objects st !! row) as [obj|] eqn:Hobj; [|congruence].
  destruct (Map_get header (headerColumn st)) as [c|] eqn:Hc; [|congruence].
  destruct (Range_getCell _ (rowLine obj) c) as [target|] eqn:Ht; [|congruence].
  rewrite H in Hrun. injection Hrun as <- <-.
  destruct (afterSetValue_fields st row obj header value target) as (idx & -> & _).
  assert (Hlt : row < length (objects st)) by (by eapply lookup_lt_Some).
  split_and!.
  - done.
  - exists (rowRecord obj). split_and!.
    + unfold getRecord, deref. msimpl. by rewrite Hobj.
    + unfold getRecord, deref. msimpl. cbn. by rewrite list_lookup_insert_eq by done.
    + intros h v Hne Hv. unfold getValue, getRecord, deref. msimpl. cbn.
      rewrite list_lookup_insert_eq by done. cbn.
      unfold Js.get. cbn. by rewrite lookup_insert_ne, Hv by done.
  - unfold getValue, getRecord, deref. msimpl. cbn.
    rewrite list_lookup_insert_eq by done. cbn.
    unfold Js.get. cbn. by rewrite lookup_insert_eq.
  - exists target. split.
    + unfold getCell, getSheetRange, getHeaderColumn. msimpl. cbn.
      rewrite (range_cached _ Hg). msimpl. cbn.
      rewrite list_lookup_insert_eq by done. msimpl. cbn. rewrite Hc. msimpl.
      by rewrite Ht.
    + cbn. unfold Range_getValue. rewrite cell_Range_setValue. by rewrite decide_True.
  - intros row' Hne. unfold getRecord, deref. msimpl. cbn.
    rewrite list_lookup_insert_ne by done. by destruct (objects st !! row').
  - intros row'. unfold getLine, deref. msimpl. cbn.
    destruct (decide (row = row')) as [<-|Hne].
    + rewrite list_lookup_insert_eq by done. by rewrite Hobj.
    + rewrite list_lookup_insert_ne by done. by destruct (objects st !! row').
  - done.
  - unfold getSheetRange. cbn. by rewrite (range_cached _ Hg).
Qed.

Lemma setValue_then_getValue_witness :
  reachable Demo.store
  ∧ (setValue 1 "name" Null Demo.store).2 = Ok 1
  ∧ (getValue 1 "name" (setValue 1 "name" Null Demo.store).1).2 = Ok JsNull
  ∧ (getValue 1 "id" (setValue 1 "name" Null Demo.store).1).2
    = Ok (JsCell (Demo.num N2)).
Proof.
  split; [exact Demo_store_reachable|]. split; [reflexivity|].
  destruct (setValue_then_getValue Demo.store 1 "name" Null
              (setValue 1 "name" Null Demo.store).1 1 Demo_store_reachable eq_refl)
    as (_ & _ & Hget & _).
  split; [by rewrite Hget|]. reflexivity.
Defined.

(** X5: [setValue] fails before it writes.  On a handle of the table:
    a header the sheet does not have gives the error of the header not
    found; a header of the sheet on a handle whose line is below the
    cached range gives the exception of the cell out of range; in both
    cases the sheet and the table are as they were.  In every other
    case [setValue] returns the handle. *)
Theorem setValue_outcomes st row header value line :
  reachable st → getLine row st = (st, Ok line) →
  (header ∉ headers st →
     setValue row header value st = (st, Throw (HeaderNotFound header)))
  ∧ (header ∈ headers st → cachedRows st < line →
       setValue row header value st = (st, Throw GasException))
  ∧ (header ∈ headers st → line ≤ cachedRows st →
       ∃ st', setValue row header value st = (st', Ok row)).
Proof.
  intros Hr Hline. destruct (reachable_ok _ Hr) as (Hok & Hg & Hl).
  destruct (reachable_schema _ Hr) as (Hs & _).
  pose proof (setValue_split st row header value Hok Hg) as H.
  unfold getLine, deref, bind, orThrow, ret in Hline.
  destruct (objects st !! row) as [obj|] eqn:Hobj; [|done].
  cbn in Hline. injection Hline as <-. pose proof (Hl _ _ Hobj) as Hge.
  split_and!.
  - intros Hh. by rewrite (schema_no_column _ _ Hs Hh) in H.
  - intros [j Hj]%list_elem_of_lookup Hlt.
    rewrite (schema_column _ _ _ Hs Hj) in H.
    destruct (Range_getCell _ _ _) as [target|] eqn:Ht; [|done].
    apply Range_getCell_Some in Ht. lia.
  - intros [j Hj]%list_elem_of_lookup Hle.
    rewrite (schema_column _ _ _ Hs Hj) in H.
    destruct (Range_getCell _ _ _) as [target|] eqn:Ht; [eauto|].
    exfalso. apply lookup_lt_Some in Hj.
    assert (Hsome : Range_getCell (mkRange 1 1 (cachedRows st) (length (headers st)))
                      (rowLine obj) (j + 1) = Some (mkRange (rowLine obj) (j + 1) 1 1)).
    { apply Range_getCell_Some. split_and!; try done; lia. }
    congruence.
Qed.

Lemma setValue_outcomes_witness :
  reachable Demo.store ∧ getLine 1 Demo.store = (Demo.store, Ok 3)
  ∧ setValue 1 "price" Null Demo.store = (Demo.store, Throw (HeaderNotFound "price")).
Proof.
  split; [exact Demo_store_reachable|]. split; [reflexivity|].
  destruct (setValue_outcomes Demo.store 1 "price" Null 3 Demo_store_reachable eq_refl)
    as (Hno & _).
  apply Hno. intros Hin. apply list_elem_of_In in Hin. simpl in Hin.
  destruct Hin as [H|[H|[]]]; discriminate H.
Defined.

(** ** Further properties of the table *)

(** X6: [getHeaderColumn] gives the column of the sheet in which the
    header stands.  On every table a caller can hold it returns [c]
    exactly when the cell of the first row in the column [c] of the
    table holds the header, and it fails with the error of the header
    not found when no cell of the first row does. *)
Theorem getHeaderColumn_reachable st h :
  reachable st →
  let g := cells (sheet st) in
  (∀ c, getHeaderColumn h st = (st, Ok c)
        ↔ 1 ≤ c ≤ getLastColumn g ∧ cell g 0 (c - 1) = Str h)
  ∧ ((∀ j, j < getLastColumn g → cell g 0 j ≠ Str h) →
       getHeaderColumn h st = (st, Throw (HeaderNotFound h))).
Proof.
  intros Hr g. destruct (reachable_ok _ Hr) as (Hok & Hg & Hl).
  destruct (reachable_schema _ Hr) as (Hs & Hh).
  pose proof (width _ Hg) as Hw. fold g in Hw.
  unfold getHeaderColumn, orThrow. split.
  - intros c. split.
    + destruct (Map_get h (headerColumn st)) as [c'|] eqn:Hc; [|done].
      intros [= <-]. rewrite (columns_built _ Hs) in Hc.
      pose proof (buildHeaderColumn_get (headers st) h) as H. rewrite Hc in H.
      destruct H as [Hpos Hj]. pose proof (lookup_lt_Some _ _ _ Hj).
      split; [lia|]. by apply Hh.
    + intros [Hc Hcell].
      destruct (headers st !! (c - 1)) as [h'|] eqn:Hj.
      2:{ apply lookup_ge_None in Hj. lia. }
      pose proof (Hh _ _ Hj) as Hcell'. subst g. rewrite Hcell in Hcell'.
      injection Hcell' as <-. rewrite (schema_column _ _ _ Hs Hj).
      unfold ret. do 2 f_equal. lia.
  - intros Hno. rewrite schema_no_column; [done..|].
    intros [j Hj]%list_elem_of_lookup. apply (Hno j).
    + rewrite Hw. by eapply lookup_lt_Some.
    + by apply Hh.
Qed.

Lemma getHeaderColumn_reachable_witness :
  reachable Demo.store
  ∧ getHeaderColumn "name" Demo.store = (Demo.store, Ok 2)
  ∧ getHeaderColumn "price" Demo.store = (Demo.store, Throw (HeaderNotFound "price")).
Proof.
  split; [exact Demo_store_reachable|].
  split.
  - apply (getHeaderColumn_reachable Demo.store "name" Demo_store_reachable).
    split; [vm_compute; lia|reflexivity].
  - apply (getHeaderColumn_reachable Demo.store "price" Demo_store_reachable).
    intros j Hj. change (getLastColumn (cells (sheet Demo.store))) with 2 in Hj.
    destruct j as [|[|j]]; [discriminate..|lia].
Defined.

(** X7: [addRecords] only appends.  For records that give a cell
    value, [null] or [undefined] under every header: whether it
    returns or throws, the sheet above the end of the table is as it
    was, every handle the table had keeps its record and its line, the
    new handles come after them in [getRows], and the headers stay.
    It returns one handle for each record of a batch that is not
    empty, and the only errors it ends in are the [TypeError] of the
    empty batch, which changes nothing, and the error of a duplicate
    key. *)
Theorem addRecords_only_appends st records st' res :
  reachable st → forallb (storable (headers st)) records = true →
  addRecords records st = (st', res) →
  (∀ i j, i < lastRow st → cell (cells (sheet st')) i j = cell (cells (sheet st)) i j)
  ∧ (∀ h, h ∈ getRows st →
       getRecord h st' = (st', (getRecord h st).2)
       ∧ getLine h st' = (st', (getLine h st).2))
  ∧ (∃ k, k ≤ length records
          ∧ getRows st' = getRows st ++ seq (length (getRows st)) k)
  ∧ headers st' = headers st
  ∧ match res with
    | Ok hs => records ≠ [] ∧ hs = seq (length (getRows st)) (length records)
    | Throw e =>
        (e = TypeError ∧ records = [] ∧ st' = st)
        ∨ (records ≠ [] ∧ ∃ name kh le ln, e = DuplicateKey name kh le ln)
    end.
Proof.
  intros Hr Hst Hrun. destruct (reachable_ok _ Hr) as (Hok & Hg & Hl).
  pose proof (addRecords_frame st records Hok Hg) as (E1 & _ & _ & _ & Hc & Hobjs).
  rewrite Hrun in E1, Hc, Hobjs. cbn [fst] in *.
  assert (Hlen : length (getRows st) = length (objects st)).
  { unfold getRows. by rewrite (rows_all _ Hok), length_seq. }
  split_and!; [done| | |done|].
  - intros h [obj Hobj]%(reachable_rows _ _ Hr).
    unfold getRecord, getLine, deref. msimpl. by rewrite (Hobjs _ _ Hobj), Hobj.
  - rewrite Hlen. unfold getRows. destruct records as [|r rs].
    { rewrite (addRecords_nil st _ (range_cached _ Hg)) in Hrun. injection Hrun as <- _.
      exists 0. split; [done|]. by rewrite app_nil_r. }
    rewrite addRecords_outcome in Hrun by done.
    destruct (createRows_frame (appended st (r :: rs)) (r :: rs) (cachedRows st) 0)
      as (k & idx & Hst'). rewrite Hrun in Hst'. cbn [fst] in Hst'. subst st'.
    exists (length (take k (r :: rs))). split; [rewrite length_take; lia|].
    cbn [rows with_rows set_rows set_rowByKeyMap].
    change (objects (appended st (r :: rs))) with (objects st).
    rewrite length_app, length_newObjects, seq_app, (rows_all _ Hok). done.
  - rewrite Hlen. destruct records as [|r rs].
    { rewrite (addRecords_nil st _ (range_cached _ Hg)) in Hrun.
      injection Hrun as <- <-. by left. }
    rewrite addRecords_outcome in Hrun by done. unfold createRows_outcome in Hrun.
    change (objects (appended st (r :: rs))) with (objects st) in Hrun.
    destruct (keyHeadersSet _).
    + destruct (firstConflict _ _ _ _) as [[k e]|].
      * injection Hrun as _ <-. right. split; [done|]. eauto.
      * by injection Hrun as _ <-.
    + by injection Hrun as _ <-.
Qed.

Lemma addRecords_only_appends_witness :
  reachable Demo.store
  ∧ getRows (addRecords [Demo.record (Cell (Demo.num N1)) Null] Demo.store).1 = [0; 1; 2]
  ∧ getLine 1 (addRecords [Demo.record (Cell (Demo.num N1)) Null] Demo.store).1
    = ((addRecords [Demo.record (Cell (Demo.num N1)) Null] Demo.store).1, Ok 3).
Proof.
  split; [exact Demo_store_reachable|].
  destruct (addRecords_only_appends Demo.store [Demo.record (Cell (Demo.num N1)) Null]
              _ _ Demo_store_reachable eq_refl (surjective_pairing _))
    as (_ & Hkeep & _).
  split; [reflexivity|].
  destruct (Hkeep 1) as [_ Hline].
  { apply list_elem_of_In. simpl. tauto. }
  rewrite Hline. reflexivity.
Defined.

(** X8: the error of the sheet that is not filled is never thrown by
    the constructor of [SheetTable].  On a sheet without content, whose
    first row is frozen, it fails with the error of the range that
    cannot be got, where [getSheetTableRange] of the first variant
    fails with the error of the sheet that is not filled. *)
Theorem SheetTable_never_SheetNotFilled app name o :
  (∀ objs n, SheetTable.new app name o ≠ (objs, Throw (SheetNotFilled n)))
  ∧ (∀ ss sheet,
       openSpreadsheet app o = Ok ss → ss !! name = Some sheet →
       frozenRows sheet = 1 → getLastRow (cells sheet) = 0 →
       SheetTable.new app name o
       = ([], Throw (GetRangeFailed 0 (getLastColumn (cells sheet)) name))
       ∧ SheetObject.getSheetTableRange ss name = Throw (SheetNotFilled name)).
Proof.
  split.
  - intros objs n. unfold SheetTable.new.
    destruct (init app name o) as [[st0 recs]|e] eqn:Hinit.
    + pose proof (init_Ok _ _ _ _ _ Hinit) as (Hg & Ho & Hr & Hi & _).
      assert (Hok : heap_ok st0).
      { split; [by rewrite Hr, Ho|]. intros key h. by rewrite Hi, lookup_empty. }
      unfold createInternalRows. rewrite createRowsFrom_eq by done.
      unfold createRows_outcome. destruct (keyHeadersSet _); [|done].
      destruct (firstConflict _ _ _ _) as [[k e]|]; done.
    + intros [= _ ->]. revert Hinit. unfold init.
      destruct (openSpreadsheet app o) as [ss|] eqn:Hop.
      2:{ intros [= ->]. unfold openSpreadsheet in Hop. repeat case_match; done. }
      destruct (ss !! name) as [s|]; [|done].
      destruct (frozenRows s =? 0); [done|]. destruct (1 <? frozenRows s); [done|].
      destruct (readSheetRange name s) as [rg|] eqn:Hrg.
      2:{ unfold readSheetRange in Hrg. destruct (getRange _ _ _ _); [done|].
          intros [= ->]. done. }
      apply readSheetRange_Ok in Hrg as (-> & Hr & Hc).
      unfold Range_getLastRow, Range_getLastColumn. cbn [row column numRows numColumns].
      destruct (getLastRow (cells s)) as [|lr]; [lia|].
      destruct (getLastColumn (cells s)) as [|lc]; [lia|].
      cbn [Nat.add Nat.sub Nat.eqb orb]. rewrite Range_getValues_whole. cbn [seq map].
      destruct (headerTest name _) as [e|] eqn:Ht.
      { intros [= ->]. unfold headerTest in Ht. repeat case_match; congruence. }
      destruct (lostHeaders o _); done.
  - intros ss sheet Hss Hs Hf Hr.
    unfold SheetTable.new, init, SheetObject.getSheetTableRange, readSheetRange, getRange.
    rewrite Hss, Hs, Hf, Hr. done.
Qed.

(** X9: the record codec the other way round.  Under headers that are
    distinct and do not include [__proto__], a row of cells as wide as
    the headers, decoded as the constructor decodes it and encoded as
    [addRecords] encodes it, is the row itself: every value read is a
    cell value, and the cells are those of the row. *)
Theorem codec_row_roundtrip headers (row : list CellValue) :
  NoDup headers → "__proto__" ∉ headers → length row = length headers →
  getValues headers (loadRecord (buildHeaderColumn headers) row) = map JsCell row
  ∧ mapM asCell (getValues headers (loadRecord (buildHeaderColumn headers) row))
    = Some row.
Proof.
  intros Hnd Hproto Hlen.
  assert (Hvals : getValues headers (loadRecord (buildHeaderColumn headers) row)
                  = map JsCell row).
  { apply list_eq. intros i. rewrite list_lookup_fmap.
    destruct (headers !! i) as [h|] eqn:Hi.
    - rewrite (getValues_lookup _ _ _ _ Hi).
      assert (h ≠ "__proto__") as Hne.
      { intros ->. apply Hproto. by eapply list_elem_of_lookup_2. }
      rewrite (loadRecord_get _ _ _ (buildHeaderColumn_NoDup headers) Hne).
      pose proof (buildHeaderColumn_get headers h) as H.
      destruct (Map_get h (buildHeaderColumn headers)) as [c|].
      + destruct H as [Hpos Hc]. pose proof (NoDup_lookup _ _ _ _ Hnd Hc Hi) as E.
        replace (c - 1) with i by lia.
        destruct (row !! i) as [v|] eqn:Hv.
        * unfold decodeCell. cbn. unfold is_empty_text. case_bool_decide; by subst.
        * apply lookup_ge_None in Hv. apply lookup_lt_Some in Hi. lia.
      + exfalso. apply H. by eapply list_elem_of_lookup_2.
    - apply lookup_ge_None in Hi. rewrite !lookup_ge_None_2; [done|lia|].
      by rewrite length_getValues. }
  split; [exact Hvals|]. rewrite Hvals.
  clear. induction row as [|v row IH]; [done|].
  cbn [map]. rewrite mapM_cons_option. cbn. by rewrite IH.
Qed.

Lemma codec_row_roundtrip_witness :
  NoDup ["id"; "name"] ∧ length [Demo.num N2; Str ""] = length ["id"; "name"]
  ∧ mapM asCell (getValues ["id"; "name"]
      (loadRecord (buildHeaderColumn ["id"; "name"]) [Demo.num N2; Str ""]))
    = Some [Demo.num N2; Str ""].
Proof.
  assert (Hnd : NoDup ["id"; "name"]).
  { apply NoDup_cons. split; [|apply NoDup_singleton].
    intros Hin. apply list_elem_of_In in Hin. simpl in Hin.
    destruct Hin as [H|[]]; discriminate H. }
  assert (Hp : "__proto__" ∉ ["id"; "name"]).
  { intros H. repeat (apply elem_of_cons in H as [H|H]; [done|]).
    by apply elem_of_nil in H. }
  split; [exact Hnd|]. split; [reflexivity|].
  exact (proj2 (codec_row_roundtrip ["id"; "name"] [Demo.num N2; Str ""] Hnd Hp eq_refl)).
Defined.


(** ** Two appends in a row *)

Lemma writeCells_rows g i j vs : writeCells g i j vs = writeRows g i j [vs].
Proof. done. Qed.

Lemma writeRows_app g i j (a b : Grid) :
  writeRows g i j (a ++ b) = writeRows (writeRows g i j a) (i + length a) j b.
Proof.
  revert g i. induction a as [|r a IH]; intros g i; simpl.
  - by rewrite Nat.add_0_r.
  - rewrite IH. f_equal. lia.
Qed.

Lemma newObjects_app a b lr index :
  newObjects (a ++ b) lr index = newObjects a lr index ++ newObjects b lr (index + length a).
Proof.
  revert index. induction a as [|r a IH]; intros index; simpl.
  - by rewrite Nat.add_0_r.
  - rewrite IH. do 3 f_equal. lia.
Qed.

Lemma newObjects_shift b lr k index :
  newObjects b (lr + k) index = newObjects b lr (index + k).
Proof.
  revert index. induction b as [|r b IH]; intros index; simpl; [done|].
  rewrite IH. f_equal. f_equal. lia.
Qed.

Lemma absorbed_app kh idx n a b :
  absorbed kh idx n (a ++ b) = absorbed kh (absorbed kh idx n a) (n + length a) b.
Proof.
  revert idx n. induction a as [|r a IH]; intros idx n; simpl.
  - by rewrite Nat.add_0_r.
  - rewrite IH. f_equal. lia.
Qed.

Lemma firstConflict_app kh idx n a b :
  firstConflict kh idx n a = None →
  firstConflict kh (absorbed kh idx n a) (n + length a) b = None →
  firstConflict kh idx n (a ++ b) = None.
Proof.
  revert idx n. induction a as [|r a IH]; intros idx n; simpl.
  - by rewrite Nat.add_0_r.
  - replace (n + S (length a)) with (S n + length a) by lia.
    destruct (recordKey kh r) as [key|].
    + destruct (idx !! key); [done|].
      rewrite !later_None. apply IH.
    + rewrite !later_None. apply IH.
Qed.


Lemma createRows_Ok_inv st records lr index st' hs :
  createRows_outcome st records lr index = (st', Ok hs) →
  hs = seq (length (objects st)) (length records)
  ∧ match keyHeadersSet (options st) with
    | Some kh =>
        firstConflict kh (rowByKeyMap st) (length (objects st)) records = None
        ∧ st' = with_rows st (objects st ++ newObjects records lr index)
                  (absorbed kh (rowByKeyMap st) (length (objects st)) records)
    | None =>
        st' = with_rows st (objects st ++ newObjects records lr index) (rowByKeyMap st)
    end.
Proof.
  unfold createRows_outcome. destruct (keyHeadersSet _).
  - destruct (firstConflict _ _ _ _) as [[k e]|]; [done|]. by intros [= <- <-].
  - by intros [= <- <-].
Qed.

Lemma addRecords_Ok_storable st records st' hs :
  grid_ok st → addRecords records st = (st', Ok hs) →
  records ≠ [] ∧ forallb (storable (headers st)) records = true.
Proof.
  intros Hg Hrun.
  assert (Hne : records ≠ []).
  { intros ->. by rewrite (addRecords_nil st _ (range_cached _ Hg)) in Hrun. }
  split; [done|]. destruct (forallb _ records) eqn:E; [done|].
  by rewrite (addRecords_unstorable st records Hg Hne E) in Hrun.
Qed.

(** X10: two appends that return are one append of the two batches,
    when the cached range is in step with [lastRow] and the last
    record of the first batch has a value that is not empty: the
    sheet, the table and the handles are the same. *)
Theorem addRecords_compose st r1 r2 st1 hs1 st2 hs2 rl :
  reachable st → in_step st →
  addRecords r1 st = (st1, Ok hs1) →
  last r1 = Some rl → existsb hasContent (encodedRow (headers st) rl) = true →
  addRecords r2 st1 = (st2, Ok hs2) →
  addRecords (r1 ++ r2) st = (st2, Ok (hs1 ++ hs2)).
Proof.
  intros Hr Hin H1 Hlast Hcontent H2.
  destruct (reachable_ok _ Hr) as (Hok & Hg & _).
  destruct (addRecords_Ok_storable _ _ _ _ Hg H1) as [Hne1 Hs1].
  assert (Hr1 : reachable st1).
  { replace st1 with (addRecords r1 st).1 by (by rewrite H1). by apply reach_addRecords. }
  destruct (reachable_ok _ Hr1) as (Hok1 & Hg1 & _).
  destruct (addRecords_Ok_storable _ _ _ _ Hg1 H2) as [Hne2 Hs2].
  assert (Hhs : headers st1 = headers st).
  { pose proof (addRecords_frame st r1 Hok Hg) as (E & _). by rewrite H1 in E. }
  rewrite Hhs in Hs2.
  assert (Hne : r1 ++ r2 ≠ []) by (by destruct r1).
  assert (Hs : forallb (storable (headers st)) (r1 ++ r2) = true).
  { by rewrite forallb_app, Hs1, Hs2. }
  rewrite addRecords_outcome in H1 by done.
  rewrite addRecords_outcome in H2 by (by rewrite ?Hhs).
  rewrite addRecords_outcome by done.
  unfold in_step in Hin. rewrite Hin in H1 |- *.
  apply createRows_Ok_inv in H1 as [-> H1], H2 as [-> H2].
  change (options (appended st r1)) with (options st) in H1.
  change (objects (appended st r1)) with (objects st) in H1.
  change (rowByKeyMap (appended st r1)) with (rowByKeyMap st) in H1.
  change (options (appended st1 r2)) with (options st1) in H2.
  change (objects (appended st1 r2)) with (objects st1) in H2.
  change (rowByKeyMap (appended st1 r2)) with (rowByKeyMap st1) in H2.
  assert (Hfull : getLastRow (written st r1) = lastRow st + length r1).
  { by apply (getLastRow_written_full st r1 rl). }
  assert (Hw : ∀ objs idx,
    written (with_rows (appended st r1) objs idx) r2 = written st (r1 ++ r2)).
  { intros objs idx. unfold written, encoded. cbn.
    change (writeRows (cells (sheet st)) (lastRow st) 0 (map (encodedRow (headers st)) r1))
      with (written st r1).
    rewrite Hfull, map_app, writeRows_app, length_map. done. }
  assert (Happ : ∀ objs idx objs' idx',
    with_rows (appended (with_rows (appended st r1) objs idx) r2) objs' idx'
    = with_rows (appended st (r1 ++ r2)) objs' idx').
  { intros. unfold appended. rewrite Hw. done. }
  unfold createRows_outcome.
  change (options (appended st (r1 ++ r2))) with (options st).
  change (objects (appended st (r1 ++ r2))) with (objects st).
  change (rowByKeyMap (appended st (r1 ++ r2))) with (rowByKeyMap st).
  rewrite length_app, seq_app.
  destruct (keyHeadersSet (options st)) as [kh|] eqn:Hkh.
  - destruct H1 as [F1 ->]. cbn in H2. rewrite Hkh in H2. destruct H2 as [F2 ->].
    rewrite length_app, length_newObjects in F2.
    rewrite (firstConflict_app _ _ _ _ _ F1 F2). rewrite Happ.
    cbn. rewrite Hfull. f_equal.
    + rewrite length_app, length_newObjects, absorbed_app.
      rewrite newObjects_app, newObjects_shift, <- app_assoc. done.
    + by rewrite length_app, length_newObjects.
  - subst st1. cbn in H2. rewrite Hkh in H2. subst st2. rewrite Happ.
    cbn. rewrite Hfull. f_equal.
    + rewrite newObjects_app, newObjects_shift, <- app_assoc. done.
    + by rewrite length_app, length_newObjects.
Qed.

Lemma addRecords_compose_witness :
  let r1 := [Demo.record (Cell (Demo.num N3)) (Cell (Str "c"))] in
  let r2 := [Demo.record (Cell (Demo.num N4)) (Cell (Str "d"))] in
  reachable Demo.store ∧ in_step Demo.store
  ∧ (addRecords r1 Demo.store).2 = Ok [2]
  ∧ (addRecords r2 (addRecords r1 Demo.store).1).2 = Ok [3]
  ∧ addRecords (r1 ++ r2) Demo.store
    = ((addRecords r2 (addRecords r1 Demo.store).1).1, Ok ([2] ++ [3])).
Proof.
  intros r1 r2.
  split; [exact Demo_store_reachable|]. split; [reflexivity|].
  split; [vm_compute; reflexivity|]. split; [vm_compute; reflexivity|].
  apply (addRecords_compose Demo.store r1 r2 (addRecords r1 Demo.store).1 [2]
           (addRecords r2 (addRecords r1 Demo.store).1).1 [3]
           (Demo.record (Cell (Demo.num N3)) (Cell (Str "c")))).
  - exact Demo_store_reachable.
  - reflexivity.
  - vm_compute. reflexivity.
  - reflexivity.
  - vm_compute. reflexivity.
  - vm_compute. reflexivity.
Defined.

(** ** The cached range and the counter of the last row *)

(** X13: the cached range of a table has as many rows as the counter
    [lastRow] says when the constructor returns, and [addRecords],
    [setValue] and [getSheetRange()] keep it so, whether they return
    or throw; only a forced [getSheetRange(true)] can leave the range
    with fewer rows than [lastRow]. *)
Theorem in_step_preserved st :
  reachable st →
  (∀ app name o objs, SheetTable.new app name o = (objs, Ok st) → in_step st)
  ∧ (in_step st →
     (∀ records, forallb (storable (headers st)) records = true →
                 in_step (addRecords records st).1)
     ∧ (∀ row header value, in_step (setValue row header value st).1)
     ∧ in_step (getSheetRange false st).1)
  ∧ cachedRows (getSheetRange true st).1 ≤ lastRow (getSheetRange true st).1.
Proof.
  intros Hr. destruct (reachable_ok _ Hr) as (Hok & Hg & Hl). split_and!.
  - intros app name o objs. apply new_in_step.
  - intros Hin. destruct (in_step_kept st Hok Hg Hin) as (H1 & H2 & H3).
    split_and!; [by intros records _|done|done].
  - apply cachedRows_le. by apply (getSheetRange_invariant st true Hok Hg Hl).
Qed.

Lemma in_step_preserved_witness :
  reachable Demo.store ∧ in_step Demo.store
  ∧ in_step (setValue 1 "name" Null Demo.store).1.
Proof.
  split; [exact Demo_store_reachable|].
  destruct (in_step_preserved Demo.store Demo_store_reachable) as (Hnew & Hkeep & _).
  assert (Hin : in_step Demo.store) by exact (Hnew _ _ _ _ Demo_store_new).
  split; [exact Hin|].
  exact (proj1 (proj2 (Hkeep Hin)) 1 "name" Null).
Defined.

(** ** Rows appended to the first variant *)







